(** * embed.js: trusted inclusion of HTML snippets at placeholder elements

    A shallow embedding of the snippet embedder (the script that replaces
    every element carrying [data-embedsrc] by the snippet fetched from that
    address) and the properties of its trust check, its cloner, its
    embedder and its per-placeholder error handling.

    Layout: text helpers, the URL constructor, the host environment, the
    DOM, the effect monad, the four functions of the script
    ([domain], [embedElements], [embedElement], [getClonedElements]), then
    the lemmas and the theorems. *)

From Stdlib Require Import Ascii String List NArith Lia.
From stdpp Require Import gmap strings list pretty.

Set Default Proof Using "Type".
Set Warnings "-register-all".

(* ===================================================================== *)
(** ** Text *)
(* ===================================================================== *)

(** Strings are sequences of code units; the model covers the code units
    below U+0100, which is where every literal of the script lives. *)
Module Text.

Definition code (c : ascii) : N := N_of_ascii c.

(** White space and line terminators of ECMAScript below U+0100: TAB, LF,
    VT, FF, CR, SPACE and NBSP.  These are what [String.prototype.trim]
    strips. *)
Definition is_space (c : ascii) : bool :=
  match code c with
  | 9 | 10 | 11 | 12 | 13 | 32 | 160 => true
  | _ => false
  end%N.

Fixpoint trimStart (s : string) : string :=
  match s with
  | EmptyString => EmptyString
  | String c s' => if is_space c then trimStart s' else s
  end.

Fixpoint trimEnd (s : string) : string :=
  match s with
  | EmptyString => EmptyString
  | String c s' =>
      match trimEnd s' with
      | EmptyString => if is_space c then EmptyString else String c EmptyString
      | t => String c t
      end
  end.

(** [s.trim()] *)
Definition trim (s : string) : string := trimEnd (trimStart s).

(** A string is truthy when it is not empty. *)
Definition truthy (s : string) : bool :=
  match s with EmptyString => false | String _ _ => true end.

(** Every code unit of [s] is white space (the empty string included). *)
Fixpoint blank (s : string) : bool :=
  match s with
  | EmptyString => true
  | String c s' => is_space c && blank s'
  end.

(** [s.split(sep)[0]] for a one-character separator: the part of [s]
    before the first [sep], all of [s] when there is none. *)
Fixpoint split_first (sep : ascii) (s : string) : string :=
  match s with
  | EmptyString => EmptyString
  | String c s' => if Ascii.eqb c sep then EmptyString else String c (split_first sep s')
  end.

Definition is_upper (c : ascii) : bool := ((65 <=? code c) && (code c <=? 90))%N.
Definition is_lower (c : ascii) : bool := ((97 <=? code c) && (code c <=? 122))%N.
Definition is_alpha (c : ascii) : bool := is_upper c || is_lower c.
Definition is_digit (c : ascii) : bool := ((48 <=? code c) && (code c <=? 57))%N.

Definition lower (c : ascii) : ascii :=
  if is_upper c then ascii_of_N (code c + 32) else c.

Fixpoint toLowerCase (s : string) : string :=
  match s with
  | EmptyString => EmptyString
  | String c s' => String (lower c) (toLowerCase s')
  end.

(** The longest prefix whose code units satisfy [p], and the rest. *)
Fixpoint span (p : ascii -> bool) (s : string) : string * string :=
  match s with
  | EmptyString => (EmptyString, EmptyString)
  | String c s' =>
      if p c then let '(a, b) := span p s' in (String c a, b)
      else (EmptyString, s)
  end.

Fixpoint all (p : ascii -> bool) (s : string) : bool :=
  match s with
  | EmptyString => true
  | String c s' => p c && all p s'
  end.

Fixpoint keep (p : ascii -> bool) (s : string) : string :=
  match s with
  | EmptyString => EmptyString
  | String c s' => if p c then String c (keep p s') else keep p s'
  end.

(** The part after the last [sep], all of [s] when there is none. *)
Fixpoint after_last (sep : ascii) (s : string) : string :=
  match s with
  | EmptyString => EmptyString
  | String c s' =>
      if Ascii.eqb c sep
      then (if all (fun d => negb (Ascii.eqb d sep)) s' then s' else after_last sep s')
      else (if all (fun d => negb (Ascii.eqb d sep)) s' then s else after_last sep s')
  end.

(** A name of lower-case letters, digits and hyphens that starts with a
    letter.  As a selector it is a type selector, between brackets it is an
    attribute selector, and every rule for the names of elements and
    attributes takes it. *)
Definition plain_name (s : string) : bool :=
  match s with
  | EmptyString => false
  | String c s' => is_lower c && all (fun d => is_lower d || is_digit d || Ascii.eqb d "-") s'
  end.

(** Decimal value of a string of digits. *)
Definition digits_value (s : string) : N :=
  (fix go (s : string) (acc : N) : N :=
     match s with
     | EmptyString => acc
     | String c s' => go s' (10 * acc + (code c - 48))%N
     end) s 0%N.

End Text.

(* ===================================================================== *)
(** ** The URL constructor *)
(* ===================================================================== *)

(** The script reads two components of a parsed URL, [protocol] and
    [hostname]; [port] completes the origin. *)
Record URL := mkURL { protocol : string; hostname : string; port : string }.

(** [new URL(url, base)] as the URL Standard defines it, for the part that
    decides the three components above: removal of surrounding control
    characters and of tabs and newlines, the scheme, the authority
    (credentials dropped, host, port with the scheme's default elided) and
    resolution of a schemeless [url] against [base].  The base is parsed
    first and on its own: a base that has no scheme makes the constructor
    throw, whatever [url] is.  [None] is the [TypeError] the constructor
    throws.  Not covered: the scheme [file], IPv6 literals, IDNA
    and percent-decoding of hosts, numeric IPv4 forms, a [url] that repeats
    the special scheme of [base] without slashes; paths, queries and
    fragments are not computed since nothing reads them. *)
Module Whatwg.
Import Text.

Definition is_c0_or_space (c : ascii) : bool := (code c <=? 32)%N.
Definition is_tab_or_newline (c : ascii) : bool :=
  match code c with 9 | 10 | 13 => true | _ => false end%N.

Fixpoint strip_start (p : ascii -> bool) (s : string) : string :=
  match s with
  | EmptyString => EmptyString
  | String c s' => if p c then strip_start p s' else s
  end.

Fixpoint strip_end (p : ascii -> bool) (s : string) : string :=
  match s with
  | EmptyString => EmptyString
  | String c s' =>
      match strip_end p s' with
      | EmptyString => if p c then EmptyString else String c EmptyString
      | t => String c t
      end
  end.

Definition clean (s : string) : string :=
  keep (fun c => negb (is_tab_or_newline c))
       (strip_end is_c0_or_space (strip_start is_c0_or_space s)).

Definition is_scheme_char (c : ascii) : bool :=
  is_alpha c || is_digit c ||
  match code c with 43 | 45 | 46 => true | _ => false end%N.

(** Scheme start state and scheme state: an ASCII letter, then letters,
    digits, [+], [-] and [.], up to a colon.  Returns the lowercased
    scheme and the text after the colon. *)
Definition scheme_of (s : string) : option (string * string) :=
  match s with
  | EmptyString => None
  | String c s' =>
      if is_alpha c then
        match span is_scheme_char s' with
        | (sch, String ":" rest) => Some (toLowerCase (String c sch), rest)
        | _ => None
        end
      else None
  end.

Definition default_port (scheme : string) : option N :=
  if String.eqb scheme "http" then Some 80%N
  else if String.eqb scheme "ws" then Some 80%N
  else if String.eqb scheme "https" then Some 443%N
  else if String.eqb scheme "wss" then Some 443%N
  else if String.eqb scheme "ftp" then Some 21%N
  else None.

(** The special schemes that require a host. *)
Definition special (scheme : string) : bool :=
  match default_port scheme with Some _ => true | None => false end.

Definition is_slash (sp : bool) (c : ascii) : bool :=
  Ascii.eqb c "/" || (sp && Ascii.eqb c "\").

Definition ends_authority (sp : bool) (c : ascii) : bool :=
  is_slash sp c || Ascii.eqb c "?" || Ascii.eqb c "#".

(** Forbidden host code points that can still occur once the authority
    has been cut at its delimiters. *)
Definition forbidden_host (c : ascii) : bool :=
  (code c <=? 32)%N ||
  match code c with
  | 37 | 60 | 62 | 91 | 92 | 93 | 94 | 124 | 127 => true
  | _ => false
  end%N.

(** Authority state, host state and port state on the text that follows
    the slashes. *)
Definition authority (scheme : string) (s : string) : option URL :=
  let sp := special scheme in
  let '(auth, _) := span (fun c => negb (ends_authority sp c)) s in
  let hostport := after_last "@" auth in
  let '(h, p) := span (fun c => negb (Ascii.eqb c ":")) hostport in
  let digits := match p with String _ d => d | EmptyString => EmptyString end in
  if negb (all is_digit digits) then None
  else if sp && negb (truthy h) then None
  else if negb (all (fun c => negb (forbidden_host c)) h) then None
  else if (65535 <? digits_value digits)%N then None
  else
    Some {| protocol := scheme +:+ ":";
            hostname := if sp then toLowerCase h else h;
            port := if negb (truthy digits) then EmptyString
                    else if decide (default_port scheme = Some (digits_value digits))
                         then EmptyString
                         else pretty (digits_value digits) |}.

(** What follows a scheme. *)
Definition after_scheme (scheme rest : string) : option URL :=
  if special scheme then
    authority scheme (strip_start (is_slash true) rest)
  else
    match rest with
    | String "/" (String "/" s) => authority scheme s
    | _ => Some {| protocol := scheme +:+ ":"; hostname := EmptyString; port := EmptyString |}
    end.

(** A base whose path is opaque cannot resolve a relative reference. *)
Definition opaque_path (scheme rest : string) : bool :=
  negb (special scheme) &&
  match rest with String "/" _ => false | _ => true end.

(** A schemeless [url] against the parsed base. *)
Definition relative (url bscheme brest : string) (b : URL) : option URL :=
  match url with
  | String "#" _ => Some b
  | _ =>
      if opaque_path bscheme brest then None
      else
        match url with
        | String c1 (String c2 s) =>
            if is_slash (special bscheme) c1 && is_slash (special bscheme) c2
            then authority bscheme
                   (if special bscheme then strip_start (is_slash true) s else s)
            else Some b
        | _ => Some b
        end
  end.

(** [new URL(url, base)] *)
Definition construct (url base : string) : option URL :=
  match scheme_of (clean base) with
  | None => None
  | Some (bscheme, brest) =>
      match after_scheme bscheme brest with
      | None => None
      | Some b =>
          match scheme_of (clean url) with
          | Some (scheme, rest) => after_scheme scheme rest
          | None => relative (clean url) bscheme brest b
          end
      end
  end.

End Whatwg.

(* ===================================================================== *)
(** ** The host environment *)
(* ===================================================================== *)

(** Markup: what the HTML parser makes of a text.  A string that the
    script reads from an [innerHTML] getter is represented by the forest
    it was serialized from; what the parser makes of that string when it
    is handed to a setter or to [insertAdjacentHTML] is the browser's
    [reparse] of the forest. *)
Inductive html :=
| HText (s : string)
| HElem (tag : string) (attrs : gmap string string) (kids : list html).

(** [a || b] on values that are a string or undefined. *)
Definition or_else (a b : option string) : option string :=
  match a with
  | Some s => if Text.truthy s then a else b
  | None => b
  end.
Arguments or_else : simpl never.

(* ===================================================================== *)
(** ** The DOM *)
(* ===================================================================== *)

(** Who constructed an element: the HTML parser (a [script] made this way
    is inert) or [document.createElement] (a [script] made this way runs
    when it is inserted, a [link] applies at once). *)
Inductive maker := ByParser | ByCreateElement.

(** An element has an identity [id]: the object the script holds a
    reference to.  Text nodes are never referenced. *)
Inductive node :=
| Text (s : string)
| Elem (id : nat) (by_ : maker) (tag : string) (attrs : gmap string string) (kids : list node).

Module Dom.

Definition is_element (n : node) : bool :=
  match n with Text _ => false | Elem _ _ _ _ _ => true end.

Definition is_node (i : nat) (n : node) : bool :=
  match n with Text _ => false | Elem j _ _ _ _ => Nat.eqb j i end.

Definition children (n : node) : list node :=
  match n with Text _ => [] | Elem _ _ _ _ k => k end.

Definition ident (n : node) : nat :=
  match n with Text _ => 0 | Elem i _ _ _ _ => i end.

Definition made_by (n : node) : option maker :=
  match n with Text _ => None | Elem _ m _ _ _ => Some m end.

(** [n.tagName] up to letter case; [createElement] takes it back. *)
Definition tagName (n : node) : string :=
  match n with Text _ => EmptyString | Elem _ _ t _ _ => t end.

Definition attributes (n : node) : gmap string string :=
  match n with Text _ => ∅ | Elem _ _ _ a _ => a end.

(** [n.getAttribute(name)]; [None] is null. *)
Definition getAttribute (n : node) (name : string) : option string :=
  attributes n !! name.

Definition getAttributeNames (n : node) : list string :=
  (map_to_list (attributes n)).*1.

(** [n.setAttribute(name, value)]; a null value is written as the
    string "null". *)
Definition setAttribute (n : node) (name : string) (value : option string) : node :=
  match n with
  | Text _ => n
  | Elem i m t a k => Elem i m t (<[name := default "null" value]> a) k
  end.

(** The element descendants of [n] in document order. *)
Fixpoint descendants (n : node) : list node :=
  match n with
  | Text _ => []
  | Elem _ _ _ _ k =>
      flat_map (fun c => if is_element c then c :: descendants c else []) k
  end.

Definition ids (n : node) : list nat := map ident (descendants n).

(** [n.querySelectorAll(tag)] for a type selector. *)
Definition querySelectorAll (n : node) (selector : string) : list node :=
  List.filter (fun c => String.eqb (tagName c) selector) (descendants n).

(** [n.querySelectorAll(`[${name}]`)]. *)
Definition querySelectorAll_attr (n : node) (name : string) : list node :=
  List.filter (fun c => bool_decide (is_Some (getAttribute c name))) (descendants n).

(** Rewrites, below [n], the child that is the element [i] into the
    nodes [f] gives for it. *)
Fixpoint edit (i : nat) (f : node -> list node) (n : node) : node :=
  match n with
  | Text _ => n
  | Elem j m t a k =>
      Elem j m t a (flat_map (fun c => if is_node i c then f c else [edit i f c]) k)
  end.

(** [i.remove()] *)
Definition remove (i : nat) (n : node) : node := edit i (fun _ => []) n.

(** Insertion of [new] right after the element [i]. *)
Definition insert_after (i : nat) (new : list node) (n : node) : node :=
  edit i (fun p => p :: new) n.

(** [i.prepend(...new)] *)
Definition prepend (i : nat) (new : list node) (n : node) : node :=
  edit i (fun e => match e with
                   | Text _ => [e]
                   | Elem j m t a k => [Elem j m t a (new ++ k)]
                   end) n.

(** The siblings that follow the element [i] below [n]; [None] when [i]
    is not below [n]. *)
Fixpoint siblings_after (i : nat) (n : node) : option (list node) :=
  match n with
  | Text _ => None
  | Elem _ _ _ _ k =>
      (fix scan (l : list node) : option (list node) :=
         match l with
         | [] => None
         | c :: l' =>
             if is_node i c then Some l'
             else match siblings_after i c with
                  | Some r => Some r
                  | None => scan l'
                  end
         end) k
  end.

Definition first_element (l : list node) : option node :=
  List.find is_element l.

(** The tag name of the parent of the element [i] below [n]. *)
Fixpoint parent_tag (i : nat) (n : node) : option string :=
  match n with
  | Text _ => None
  | Elem _ _ t _ k =>
      if existsb (is_node i) k then Some t
      else
        (fix scan (l : list node) : option string :=
           match l with
           | [] => None
           | c :: l' =>
               match parent_tag i c with
               | Some r => Some r
               | None => scan l'
               end
           end) k
  end.

(** The serializer: [outerHTML] of a node, [innerHTML] of an element. *)
Fixpoint outerHTML (n : node) : html :=
  match n with
  | Text s => HText s
  | Elem _ _ t a k => HElem t a (map outerHTML k)
  end.

Definition innerHTML (n : node) : list html := map outerHTML (children n).

(** Runs [f] along [l], threading the counter of fresh identities. *)
Definition thread {A B : Type} (f : A -> nat -> B * nat) : list A -> nat -> list B * nat :=
  fix go (l : list A) (n : nat) : list B * nat :=
    match l with
    | [] => ([], n)
    | x :: l' =>
        let '(y, n1) := f x n in
        let '(ys, n2) := go l' n1 in
        (y :: ys, n2)
    end.

(** The nodes the parser constructs for a piece of markup: one new
    identity per element, in document order. *)
Fixpoint build (h : html) (n : nat) : node * nat :=
  match h with
  | HText s => (Text s, n)
  | HElem t a k =>
      let '(k', n') := thread build k (S n) in
      (Elem n ByParser t a k', n')
  end.

Definition build_all : list html -> nat -> list node * nat := thread build.

(** Markup without any element named [tag]. *)
Fixpoint free_of (tag : string) (h : html) : bool :=
  match h with
  | HText _ => true
  | HElem t _ k => negb (String.eqb t tag) && forallb (free_of tag) k
  end.

(** The markup that is left when every element named [tag] is cut out. *)
Fixpoint cut (tag : string) (h : html) : list html :=
  match h with
  | HText _ => [h]
  | HElem t a k =>
      if String.eqb t tag then [] else [HElem t a (flat_map (cut tag) k)]
  end.

(** The elements named [tag] in a piece of markup, in document order. *)
Fixpoint named (tag : string) (h : html) : list html :=
  match h with
  | HText _ => []
  | HElem t a k =>
      (if String.eqb t tag then [h] else []) ++ flat_map (named tag) k
  end.

End Dom.

(* ===================================================================== *)
(** ** Effects *)
(* ===================================================================== *)

(** Thrown values.  The texts of the errors the platform raises differ
    between browsers; the model fixes one text for each.  [Detached] is not
    an error of the platform: the model follows the document tree only, and
    it reports with [Detached] that the script went on to work on a node
    that is no longer in the document. *)
Inductive exn :=
| TypeError (msg : string)
| Error (msg : string)
| DOMException (name msg : string)
| Detached.

(** [`${err}`] *)
Definition exn_string (e : exn) : string :=
  match e with
  | TypeError msg => "TypeError: " +:+ msg
  | Error msg => "Error: " +:+ msg
  | DOMException name msg => name +:+ ": " +:+ msg
  | Detached => "Detached"
  end.

(** What the script finds in the browser.  [new_URL] is the URL
    constructor and [parseHTML] the HTML fragment parser on a text, in a
    [div].  [reparse context markup] is what the fragment parser, in an
    element named [context], makes of the text that the serializer writes
    for [markup].  [accepts_element_name] and [accepts_attribute_name] are
    the rules of [createElement] and [setAttribute] for names that are not
    plain, and [other_selectors] is [querySelectorAll] on the selectors
    that are not plain: its result on a node, or what it throws.  Then
    [window.location], the [data-domain] attribute of
    [document.currentScript] ([None]: no such attribute) and the two
    language properties of [navigator] ([None]: undefined). *)
Record Browser := {
  new_URL : string -> string -> option URL;
  parseHTML : string -> list html;
  reparse : string -> list html -> list html;
  accepts_element_name : string -> bool;
  accepts_attribute_name : string -> bool;
  other_selectors : string -> node -> exn + list node;
  location : URL;
  location_href : string;
  data_domain : option string;
  language : option string;
  userLanguage : option string
}.

(** What the page can observe of a run, in the order it happens. *)
Inductive event :=
| ConsoleLog (msg : string)
| Alert (msg : string)
| Fetch (url : string) (placeholder : nat).

(** The state the script works on: the document (the document node and
    all that is connected to it), the next unused identity and the events
    so far. *)
Record page := mkPage {
  document : node;
  next_id : nat;
  events : list event
}.

(** A computation either returns or throws; the state it leaves behind is
    kept in both cases, as a JavaScript exception does not undo writes. *)
Definition M (A : Type) : Type := page -> (exn + A) * page.

Definition ret {A} (a : A) : M A := fun st => (inr a, st).

Definition bind {A B} (c : M A) (k : A -> M B) : M B :=
  fun st =>
    match c st with
    | (inr a, st') => k a st'
    | (inl e, st') => (inl e, st')
    end.

Definition throw {A} (e : exn) : M A := fun st => (inl e, st).

(** [try { c } catch (err) { handler }] *)
Definition try_catch {A} (c : M A) (handler : exn -> M A) : M A :=
  fun st =>
    match c st with
    | (inr a, st') => (inr a, st')
    | (inl e, st') => handler e st'
    end.

Declare Scope script_scope.
Delimit Scope script_scope with script.
Notation "x <- c ;; k" := (bind c (fun x => k))
  (at level 100, c at next level, right associativity) : script_scope.
Notation "c ;; k" := (bind c (fun _ => k))
  (at level 100, right associativity) : script_scope.
Open Scope script_scope.

(** [list.forEach(f)] *)
Fixpoint forEach {A} (l : list A) (f : A -> M unit) : M unit :=
  match l with
  | [] => ret tt
  | x :: l' => f x ;; forEach l' f
  end.

Definition emit (e : event) : M unit :=
  fun st => (inr tt, mkPage (document st) (next_id st) (events st ++ [e])).

Definition console_log (msg : string) : M unit := emit (ConsoleLog msg).
Definition alert (msg : string) : M unit := emit (Alert msg).
Definition fetch (url : string) (placeholder : nat) : M unit := emit (Fetch url placeholder).

Definition get_document : M node := fun st => (inr (document st), st).

Definition set_document (d : node) : M unit :=
  fun st => (inr tt, mkPage d (next_id st) (events st)).

Section Platform.
Context (B : Browser).

(** What [createElement] and [setAttribute] throw on a name they do not
    take. *)
Definition invalid_element_name (name : string) : exn :=
  DOMException "InvalidCharacterError"
    ("Failed to execute 'createElement' on 'Document': The tag name provided ('"
     +:+ name +:+ "') is not a valid name.").

Definition invalid_attribute_name (name : string) : exn :=
  DOMException "InvalidCharacterError"
    ("Failed to execute 'setAttribute' on 'Element': '" +:+ name
     +:+ "' is not a valid attribute name.").

Definition syntax_error (selector : string) : exn :=
  DOMException "SyntaxError"
    ("Failed to execute 'querySelectorAll' on 'Document': '" +:+ selector
     +:+ "' is not a valid selector.").

(** [document.createElement(tag)]: a new element, not in the document. *)
Definition createElement (tag : string) : M node :=
  fun st =>
    if Text.plain_name tag || accepts_element_name B tag
    then (inr (Elem (next_id st) ByCreateElement tag ∅ []),
          mkPage (document st) (S (next_id st)) (events st))
    else (inl (invalid_element_name tag), st).

(** [element.setAttribute(name, value)] *)
Definition setAttribute (element : node) (name : string) (value : option string) : M node :=
  if accepts_attribute_name B name then ret (Dom.setAttribute element name value)
  else throw (invalid_attribute_name name).

(** [n.querySelectorAll(selector)] *)
Definition querySelectorAll (n : node) (selector : string) : M (list node) :=
  if Text.plain_name selector then ret (Dom.querySelectorAll n selector)
  else match other_selectors B selector n with
       | inl e => throw e
       | inr l => ret l
       end.

(** [document.querySelectorAll(`[${name}]`)] *)
Definition querySelectorAll_attr (name : string) : M (list node) :=
  d <- get_document ;;
  if Text.plain_name name then ret (Dom.querySelectorAll_attr d name)
  else match other_selectors B ("[" +:+ name +:+ "]") d with
       | inl e => throw e
       | inr l => ret l
       end.

(** What the parser makes of the serialization of [markup] in an element
    named [context]; no children serialize to the empty string, which
    parses to no node. *)
Definition reread (context : string) (markup : list html) : list html :=
  match markup with
  | [] => []
  | _ => reparse B context markup
  end.

(** The parser at work for an [innerHTML] setter or for
    [insertAdjacentHTML]: new nodes for the markup. *)
Definition parse_nodes (markup : list html) : M (list node) :=
  fun st =>
    let '(nodes, n) := Dom.build_all markup (next_id st) in
    (inr nodes, mkPage (document st) n (events st)).

(** [element.innerHTML = markup] on an element that is not in the
    document; the element with its new content is returned. *)
Definition set_innerHTML (element : node) (markup : list html) : M node :=
  nodes <- parse_nodes markup ;;
  ret (match element with
       | Text _ => element
       | Elem i m t a _ => Elem i m t a nodes
       end).

(** What [insertAdjacentHTML] throws on an element whose parent is the
    document itself. *)
Definition no_parent_element : exn :=
  DOMException "NoModificationAllowedError"
               "Failed to execute 'insertAdjacentHTML' on 'Element': The element has no parent.".

(** The element [i] is the document element, the child of the root. *)
Definition is_document_element (i : nat) (d : node) : bool :=
  existsb (Dom.is_node i) (Dom.children d).

(** The name of the element in which [insertAdjacentHTML] on [placeholder]
    parses its text: the parent of [placeholder]. *)
Definition context (placeholder : nat) (d : node) : string :=
  default EmptyString (Dom.parent_tag placeholder d).

(** [placeholder.insertAdjacentHTML('afterend', text)], where [text] is
    the serialization of [markup]. *)
Definition insertAdjacentHTML_afterend (placeholder : nat) (markup : list html) : M unit :=
  d <- get_document ;;
  if is_document_element placeholder d then throw no_parent_element
  else if bool_decide (placeholder ∈ Dom.ids d) then
    nodes <- parse_nodes (reread (context placeholder d) markup) ;;
    set_document (Dom.insert_after placeholder nodes d)
  else throw Detached.

(** [placeholder.nextElementSibling]; [None] is null. *)
Definition nextElementSibling (placeholder : nat) : M (option nat) :=
  d <- get_document ;;
  match Dom.siblings_after placeholder d with
  | Some l => ret (Dom.ident <$> Dom.first_element l)
  | None => throw Detached
  end.

(** What calling [prepend] on null throws. *)
Definition null_prepend : exn :=
  TypeError "Cannot read properties of null (reading 'prepend')".

(** [element.prepend(...nodes)] *)
Definition prepend (element : option nat) (nodes : list node) : M unit :=
  match element with
  | None => throw null_prepend
  | Some e =>
      d <- get_document ;;
      set_document (Dom.prepend e nodes d)
  end.

(** [placeholder.remove()] *)
Definition remove (placeholder : nat) : M unit :=
  d <- get_document ;;
  set_document (Dom.remove placeholder d).

(* ===================================================================== *)
(** ** The script *)
(* ===================================================================== *)

(** The [forEach] over the attribute names of [selected]: each one is set
    on [element] with the value it has on [selected]. *)
Fixpoint copy_each (selected : node) (names : list string) (element : node) : M node :=
  match names with
  | [] => ret element
  | attribute :: rest =>
      element <- setAttribute element attribute (Dom.getAttribute selected attribute) ;;
      copy_each selected rest element
  end.

(** The body of the loop up to [elements.push(element)]: a new element of
    the tag of [selected], its attributes copied one by one, its content
    set from the serialized content of [selected]. *)
Definition clone (selected : node) : M node :=
  element <- createElement (Dom.tagName selected) ;;
  element <- copy_each selected (Dom.getAttributeNames selected) element ;;
  set_innerHTML element (reread (Dom.tagName element) (Dom.innerHTML selected)).

(** The [forEach] over the static list of selected elements; [elements] is
    the array being filled, [container] the container as the removals so
    far have left it.  An element of the list is the subtree at the time
    of the query: the loop removes whole selected elements only, which
    leaves the content of the later ones as it was. *)
Fixpoint clone_each (selection : list node) (remove : bool)
                    (elements : list node) (container : node) : M (list node * node) :=
  match selection with
  | [] => ret (elements, container)
  | selected :: rest =>
      element <- clone selected ;;
      clone_each rest remove (elements ++ [element])
                 (if remove then Dom.remove (Dom.ident selected) container else container)
  end.

(** Returns the array of clones and the container after the loop. *)
Definition getClonedElements (container : node) (selector : string) (remove : bool)
  : M (list node * node) :=
  selection <- querySelectorAll container selector ;;
  clone_each selection remove [] container.

End Platform.

(** What a fetch comes back with. *)
Record response := mkResponse {
  status : N;
  statusText : string;
  text : exn + string          (* [response.text()]: rejected or the body *)
}.

(** [response.ok] *)
Definition ok (r : response) : bool := ((200 <=? status r) && (status r <=? 299))%N.

Inductive outcome :=
| Rejected (e : exn)            (* the request failed at the network level *)
| Fulfilled (r : response).

Section Script.
Context (B : Browser).

(** [const domain = document.currentScript.getAttribute('data-domain')
                    || window.location.hostname] *)
Definition domain : string :=
  default EmptyString (or_else (data_domain B) (Some (hostname (location B)))).

(** *** embedElement *)
Definition embedElement (placeholder : nat) (sourceHTML : string) : M unit :=
  temp <- createElement B "div" ;;
  temp <- set_innerHTML temp (parseHTML B sourceHTML) ;;
  scripts <- getClonedElements B temp "script" true ;;
  let '(scriptEls, temp) := scripts in
  links <- getClonedElements B temp "link" true ;;
  let '(linkEls, temp) := links in
  insertAdjacentHTML_afterend B placeholder (Dom.innerHTML temp) ;;
  element <- nextElementSibling placeholder ;;
  prepend element scriptEls ;;
  prepend element linkEls.
  (* [temp.remove()]: [temp] never was in the document *)

(** *** embedElements *)

Definition message_es : string :=
  "Esta p" +:+ String (ascii_of_N 225)
    "gina contiene conexiones no seguras. Pulse aceptar para ignorar.".

Definition message_en : string :=
  "This page cotains unsecure connections. Press accept to ignore.".

(** [(navigator.language || navigator.userLanguage).split('-')[0]] *)
Definition lang : M string :=
  match or_else (language B) (userLanguage B) with
  | Some l => ret (Text.split_first "-" l)
  | None => throw (TypeError "Cannot read properties of undefined (reading 'split')")
  end.

(** [new URL(url, domain)] *)
Definition construct_URL (url base : string) : M URL :=
  match new_URL B url base with
  | Some u => ret u
  | None => throw (TypeError "Failed to construct 'URL': Invalid URL")
  end.

(** The [try]/[catch] at the head of the loop body.  [false] stands for
    the two [return]s that leave the placeholder alone. *)
Definition check (url : string) : M bool :=
  try_catch
    (parsedURL <- construct_URL url domain ;;
     if negb (String.eqb (hostname parsedURL) domain) then ret false
     else
       lang <- lang ;;
       let message := if String.eqb lang "es" then message_es else message_en in
       (if String.eqb (protocol parsedURL) "http:" then alert message else ret tt) ;;
       ret true)
    (fun err =>
       console_log ("Invalid URL: " +:+ exn_string err) ;;
       ret false).

(** The loop body up to the call of [fetch]; what the promise does when
    it settles is [settle] below. *)
Definition visit (attributeName : string) (placeholder : node) : M unit :=
  let url := default "null" (Dom.getAttribute placeholder attributeName) in
  go <- check url ;;
  if go then fetch url (Dom.ident placeholder) else ret tt.

Definition embedElements (attributeName : string) : M unit :=
  placeholders <- querySelectorAll_attr B attributeName ;;
  forEach placeholders (visit attributeName).

(** The promise chain of one placeholder: the two [then] callbacks and
    the [catch], run when the request for [url] has come back as [o]. *)
Definition settle (placeholder : nat) (url : string) (o : outcome) : M unit :=
  try_catch
    (sourceHTML <-
       match o with
       | Rejected e => throw e
       | Fulfilled r =>
           if negb (ok r)
           then throw (Error ("{ URL : " +:+ url +:+ ", status : " +:+ pretty (status r)
                              +:+ ", text : " +:+ statusText r +:+ "}"))
           else match text r with
                | inl e => throw e
                | inr body => ret body
                end
       end ;;
     (if Text.truthy (Text.trim sourceHTML)
      then embedElement placeholder sourceHTML
      else ret tt) ;;
     remove placeholder)
    (fun err => console_log ("Error : " +:+ exn_string err)).

End Script.

(* ===================================================================== *)
(** ** The vocabulary of the statements *)
(* ===================================================================== *)

(** The state [st] with the events [evs] added. *)
Definition after_events (st : page) (evs : list event) : page :=
  mkPage (document st) (next_id st) (events st ++ evs).

Definition invalid_URL_log : event :=
  ConsoleLog "Invalid URL: TypeError: Failed to construct 'URL': Invalid URL".

Definition no_language_log : event :=
  ConsoleLog "Invalid URL: TypeError: Cannot read properties of undefined (reading 'split')".

Section Verdict.
Context (B : Browser).

(** The message the user is shown for the language tag [l]. *)
Definition warning (l : string) : string :=
  if String.eqb (Text.split_first "-" l) "es" then message_es else message_en.

(** Whether the check lets [url] through, and what it shows and logs. *)
Definition passes (url : string) : bool :=
  match new_URL B url (domain B) with
  | Some u =>
      String.eqb (hostname u) (domain B) &&
      bool_decide (is_Some (or_else (language B) (userLanguage B)))
  | None => false
  end.

Definition check_events (url : string) : list event :=
  match new_URL B url (domain B) with
  | None => [invalid_URL_log]
  | Some u =>
      if String.eqb (hostname u) (domain B) then
        match or_else (language B) (userLanguage B) with
        | None => [no_language_log]
        | Some l => if String.eqb (protocol u) "http:" then [Alert (warning l)] else []
        end
      else []
  end.

(** The events of one turn of the loop. *)
Definition visit_events (attributeName : string) (placeholder : node) : list event :=
  let url := default "null" (Dom.getAttribute placeholder attributeName) in
  check_events url ++
  (if passes url then [Fetch url (Dom.ident placeholder)] else []).

End Verdict.

(** The search of [Dom.siblings_after] along a list of siblings. *)
Definition scan (i : nat) : list node -> option (list node) :=
  fix scan (l : list node) : option (list node) :=
    match l with
    | [] => None
    | c :: l' =>
        if Dom.is_node i c then Some l'
        else match Dom.siblings_after i c with
             | Some r => Some r
             | None => scan l'
             end
    end.

(** One step of [Dom.edit] on a child. *)
Definition step (i : nat) (f : node -> list node) (c : node) : list node :=
  if Dom.is_node i c then f c else [Dom.edit i f c].

(** The identities in a list of siblings and below them. *)
Definition forest_ids (l : list node) : list nat :=
  flat_map (fun c => if Dom.is_element c then Dom.ident c :: Dom.ids c else []) l.

(** The copy loop over the attribute names, on the attribute map. *)
Definition copy_attributes (source : gmap string string) (names : list string)
                           (target : gmap string string) : gmap string string :=
  fold_left (fun a name => <[name := default "null" (source !! name)]> a) names target.

(** A clone: same tag, same attributes, newly constructed, and for content
    what the parser makes, in an element of that tag, of the serialized
    content of the element it is made from. *)
Definition is_clone_of (B : Browser) (selected element : node) : Prop :=
  Dom.tagName element = Dom.tagName selected /\
  Dom.attributes element = Dom.attributes selected /\
  Dom.innerHTML element = reread B (Dom.tagName selected) (Dom.innerHTML selected) /\
  Dom.made_by element = Some ByCreateElement.

(** [setAttribute] takes every attribute name of [selected]. *)
Definition names_accepted (B : Browser) (selected : node) : bool :=
  forallb (accepts_attribute_name B) (Dom.getAttributeNames selected).

(** [createElement] takes the tag name of [selected] and [setAttribute]
    its attribute names: the clone can be made. *)
Definition can_clone (B : Browser) (selected : node) : bool :=
  (Text.plain_name (Dom.tagName selected) || accepts_element_name B (Dom.tagName selected))
  && names_accepted B selected.

(** The same for an element of markup. *)
Definition accepted (B : Browser) (h : html) : bool :=
  match h with
  | HText _ => true
  | HElem _ a _ => forallb (accepts_attribute_name B) (map_to_list a).*1
  end.

(** The markup of the clone of an element with the markup [h]. *)
Definition recloned (B : Browser) (h : html) : html :=
  match h with
  | HText _ => h
  | HElem t a k => HElem t a (reread B t k)
  end.

(** The container after the removals of the loop. *)
Definition removals (remove : bool) (selection : list node) (container : node) : node :=
  if remove then fold_left (fun c selected => Dom.remove (Dom.ident selected) c) selection container
  else container.

(** The origin of a URL: scheme, host and port. *)
Definition origin (u : URL) : string * string * string :=
  (protocol u, hostname u, port u).

(** The trust rule in the words of the specification: the source address,
    resolved against the location of the document, has the origin of the
    document or the origin that a [data-domain] declaration names. *)
Definition trusted_by_origin (B : Browser) (url : string) : Prop :=
  exists u, new_URL B url (location_href B) = Some u /\
    (origin u = origin (location B) \/
     exists d o, data_domain B = Some d /\
                 new_URL B d (location_href B) = Some o /\ origin u = origin o).

(** The first four statements of [embedElement]: the temporary container
    and the two calls of the cloner. *)
Definition extract (B : Browser) (sourceHTML : string) : M (list node * list node * node) :=
  temp <- createElement B "div" ;;
  temp <- set_innerHTML temp (parseHTML B sourceHTML) ;;
  scripts <- getClonedElements B temp "script" true ;;
  let '(scriptEls, temp) := scripts in
  links <- getClonedElements B temp "link" true ;;
  let '(linkEls, temp) := links in
  ret (scriptEls, linkEls, temp).

(** The rest of [embedElement]. *)
Definition splice (B : Browser) (placeholder : nat) (r : list node * list node * node)
  : M unit :=
  let '(scriptEls, linkEls, temp) := r in
  insertAdjacentHTML_afterend B placeholder (Dom.innerHTML temp) ;;
  element <- nextElementSibling placeholder ;;
  prepend element scriptEls ;;
  prepend element linkEls.

(** A fetch that did not deliver: rejected, or answered outside 200-299. *)
Definition failed (o : outcome) : Prop :=
  match o with
  | Rejected _ => True
  | Fulfilled r => ok r = false
  end.

(** What the promise chain logs for a fetch that did not deliver. *)
Definition failure_log (url : string) (o : outcome) : event :=
  match o with
  | Rejected e => ConsoleLog ("Error : " +:+ exn_string e)
  | Fulfilled r =>
      ConsoleLog ("Error : Error: { URL : " +:+ url +:+ ", status : " +:+ pretty (status r)
                  +:+ ", text : " +:+ statusText r +:+ "}")
  end.

(* ===================================================================== *)
(** ** Pages to run the script on *)
(* ===================================================================== *)

Module Example.

(** An HTML parser given by its results on the texts in use; any other
    text is taken for character data. *)
Definition table_parser (table : list (string * list html)) (s : string) : list html :=
  match List.find (fun e => String.eqb (fst e) s) table with
  | Some e => snd e
  | None => if Text.truthy s then [HText s] else []
  end.

Definition snippets : list (string * list html) :=
  [ ("<p>hi</p><script>window.__x=1</script>",
     [HElem "p" ∅ [HText "hi"]; HElem "script" ∅ [HText "window.__x=1"]]);
    ("hi<p>x</p><script>s</script>",
     [HText "hi"; HElem "p" ∅ [HText "x"]; HElem "script" ∅ [HText "s"]]);
    ("<script>s</script>",
     [HElem "script" ∅ [HText "s"]]);
    ("<div>x</div><script>s</script><link rel=stylesheet href=a.css>",
     [HElem "div" ∅ [HText "x"]; HElem "script" ∅ [HText "s"];
      HElem "link" {["rel" := "stylesheet"; "href" := "a.css"]} []]);
    ("<script =x=1>s</script>",
     [HElem "script" {["=x" := "1"]} [HText "s"]]);
    ("<p>hi</p>",
     [HElem "p" ∅ [HText "hi"]]) ].

(** The rules of the DOM standard for the names [createElement] and
    [setAttribute] take. *)
Definition name_breaker (c : ascii) : bool :=
  match Text.code c with
  | 0 | 9 | 10 | 12 | 13 | 32 | 47 | 62 => true
  | _ => false
  end%N.

Definition name_unit (c : ascii) : bool :=
  Text.is_alpha c || Text.is_digit c || (128 <=? Text.code c)%N ||
  match Text.code c with
  | 45 | 46 | 58 | 95 => true
  | _ => false
  end%N.

Definition valid_element_name (name : string) : bool :=
  match name with
  | EmptyString => false
  | String c rest =>
      if Text.is_alpha c then Text.all (fun d => negb (name_breaker d)) name
      else (Ascii.eqb c ":" || Ascii.eqb c "_" || (128 <=? Text.code c)%N)
           && Text.all name_unit rest
  end.

Definition valid_attribute_name (name : string) : bool :=
  Text.truthy name && Text.all (fun d => negb (name_breaker d || Ascii.eqb d "=")) name.

(** A selector engine for pages that use plain selectors only. *)
Definition plain_selectors_only (selector : string) (_ : node) : exn + list node :=
  inl (syntax_error selector).

(** The snippets of the examples read back as they were written. *)
Definition same_markup (_ : string) (markup : list html) : list html := markup.

(** The page [https://site.ext/index.html] in a browser set to English,
    the script loaded with the given [data-domain]. *)
Definition site (declared : option string) : Browser := {|
  new_URL := Whatwg.construct;
  parseHTML := table_parser snippets;
  reparse := same_markup;
  accepts_element_name := valid_element_name;
  accepts_attribute_name := valid_attribute_name;
  other_selectors := plain_selectors_only;
  location := mkURL "https:" "site.ext" "";
  location_href := "https://site.ext/index.html";
  data_domain := declared;
  language := Some "en-US";
  userLanguage := None
|}.

(** The page [http://site.ext/index.html] in a browser set to Spanish. *)
Definition site_over_http (declared : option string) : Browser := {|
  new_URL := Whatwg.construct;
  parseHTML := table_parser snippets;
  reparse := same_markup;
  accepts_element_name := valid_element_name;
  accepts_attribute_name := valid_attribute_name;
  other_selectors := plain_selectors_only;
  location := mkURL "http:" "site.ext" "";
  location_href := "http://site.ext/index.html";
  data_domain := declared;
  language := Some "es-ES";
  userLanguage := None
|}.

(** A document with one placeholder (element 3) for [src]; [next] is what
    follows the placeholder in the body. *)
Definition doc (src : string) (next : list node) : node :=
  Elem 0 ByParser "#document" ∅
    [Elem 1 ByParser "html" ∅
      [Elem 2 ByParser "body" ∅
        (Elem 3 ByParser "div" {["data-embedsrc" := src]} [] :: next)]].

Definition footer : node := Elem 4 ByParser "footer" ∅ [Text "end"].

Definition start (src : string) (next : list node) : page := mkPage (doc src next) 5 [].

Definition ok_200 (body : string) : outcome := Fulfilled (mkResponse 200 "OK" (inr body)).
Definition not_found : outcome := Fulfilled (mkResponse 404 "Not Found" (inr "gone")).

End Example.

(** The temporary container of [embedElement] once the fetched text has
    been parsed into it. *)
Definition parsed_container (B : Browser) (sourceHTML : string) (st : page) : node :=
  Elem (next_id st) ByCreateElement "div" ∅
       (Dom.build_all (parseHTML B sourceHTML) (S (next_id st))).1.

(** A container after [getClonedElements(container, tag, true)]. *)
Definition without (tag : string) (container : node) : node :=
  removals true (Dom.querySelectorAll container tag) container.

(** [element] with [nodes] in front of its children. *)
Definition with_front (nodes : list node) (element : node) : list node :=
  match element with
  | Text _ => [element]
  | Elem j m t a k => [Elem j m t a (nodes ++ k)]
  end.

(** Every identity in the document has been handed out. *)
Definition well_formed (st : page) : Prop :=
  forall i, i ∈ Dom.ids (document st) -> i < next_id st.

(** [nodes] put in front of the children of the first element of [l]. *)
Fixpoint into_first (nodes : list node) (l : list node) : list node :=
  match l with
  | [] => []
  | c :: l' => if Dom.is_element c then with_front nodes c ++ l' else c :: into_first nodes l'
  end.

(** The identities that [Dom.build] hands out for [h] from [n] on: [n]
    for [h] itself when it is an element, larger ones, below the counter
    it returns, underneath. *)
Definition in_range (h : html) (n : nat) : Prop :=
  (forall i, i ∈ Dom.ids (Dom.build h n).1 -> n < i < (Dom.build h n).2) /\
  (Dom.is_element (Dom.build h n).1 = true ->
   Dom.ident (Dom.build h n).1 = n /\ n < (Dom.build h n).2).

(** The identity [e] does not occur after the first element of [l]. *)
Fixpoint lone_first (e : nat) (l : list node) : Prop :=
  match l with
  | [] => True
  | c :: l' => if Dom.is_element c then e ∉ forest_ids l' else lone_first e l'
  end.

(** [n] without the elements named [tag] below it. *)
Fixpoint strip (tag : string) (n : node) : node :=
  match n with
  | Text _ => n
  | Elem j m t a k =>
      Elem j m t a
        (flat_map (fun c => if Dom.is_element c && String.eqb (Dom.tagName c) tag
                            then [] else [strip tag c]) k)
  end.

(** [n] without the elements below it whose identity is in [ids]. *)
Fixpoint remove_all (ids : list nat) (n : node) : node :=
  match n with
  | Text _ => n
  | Elem j m t a k =>
      Elem j m t a
        (flat_map (fun c => if Dom.is_element c && bool_decide (Dom.ident c ∈ ids)
                            then [] else [remove_all ids c]) k)
  end.

(** The markup has an element at its top level. *)
Definition has_top_element (markup : list html) : bool :=
  existsb (fun h => match h with HText _ => false | HElem _ _ _ => true end) markup.

(** What [embedElement] inserts as markup: the fetched markup without its
    scripts and links. *)
Definition static_markup (B : Browser) (sourceHTML : string) : list html :=
  flat_map (Dom.cut "link") (flat_map (Dom.cut "script") (parseHTML B sourceHTML)).

(** What [insertAdjacentHTML] makes of it after [placeholder] in the
    document [d]. *)
Definition inserted_markup (B : Browser) (placeholder : nat) (d : node) (sourceHTML : string)
  : list html :=
  reread B (context placeholder d) (static_markup B sourceHTML).

(** The scripts of the fetched markup, and the links that are not inside
    a script, in document order. *)
Definition script_markup (B : Browser) (sourceHTML : string) : list html :=
  flat_map (Dom.named "script") (parseHTML B sourceHTML).

Definition link_markup (B : Browser) (sourceHTML : string) : list html :=
  flat_map (Dom.named "link") (flat_map (Dom.cut "script") (parseHTML B sourceHTML)).

(** [setAttribute] takes the attribute names of every script and of every
    link of the fetched markup. *)
Definition clonable (B : Browser) (sourceHTML : string) : bool :=
  forallb (accepted B) (script_markup B sourceHTML ++ link_markup B sourceHTML).

(** A clone of an element named [tag]. *)
Definition new_element (tag : string) (c : node) : Prop :=
  Dom.tagName c = tag /\ Dom.made_by c = Some ByCreateElement.

(** The order among the children of the receiving element in the words of
    the specification: every script stands before every link. *)
Definition scripts_before_links (kids : list node) : Prop :=
  forall i j s l,
    kids !! i = Some s -> kids !! j = Some l ->
    Dom.tagName s = "script" -> Dom.tagName l = "link" -> i < j.



(** No colon in [s]. *)
Definition colon_free (s : string) : bool :=
  Text.all (fun c => negb (Ascii.eqb c ":")) s.

(* ===================================================================== *)
(** ** Induction over trees *)
(* ===================================================================== *)

(** Induction on a node with the induction hypothesis for all the
    children, and the same for markup. *)
Section Induction.
Variable P : node -> Prop.
Hypothesis text_case : forall s, P (Text s).
Hypothesis elem_case : forall i m t a k, Forall P k -> P (Elem i m t a k).

Fixpoint node_tree_ind (n : node) : P n :=
  match n with
  | Text s => text_case s
  | Elem i m t a k =>
      elem_case i m t a k
        ((fix all (l : list node) : Forall P l :=
            match l with
            | [] => List.Forall_nil P
            | x :: l' => List.Forall_cons P x l' (node_tree_ind x) (all l')
            end) k)
  end.
End Induction.

Section MarkupInduction.
Variable P : html -> Prop.
Hypothesis text_case : forall s, P (HText s).
Hypothesis elem_case : forall t a k, Forall P k -> P (HElem t a k).

Fixpoint html_tree_ind (h : html) : P h :=
  match h with
  | HText s => text_case s
  | HElem t a k =>
      elem_case t a k
        ((fix all (l : list html) : Forall P l :=
            match l with
            | [] => List.Forall_nil P
            | x :: l' => List.Forall_cons P x l' (html_tree_ind x) (all l')
            end) k)
  end.
End MarkupInduction.


(* ===================================================================== *)
(** ** Further vocabulary: the embedder on the whole page *)
(* ===================================================================== *)

(** Nothing but text in a list of siblings. *)
Definition text_only (l : list node) : Prop :=
  Forall (fun c => Dom.is_element c = false) l.

(** Markup with neither a script nor a link in it. *)
Definition plain_markup (markup : list html) : Prop :=
  Forall (fun h => Dom.free_of "script" h = true) markup /\
  Forall (fun h => Dom.free_of "link" h = true) markup.


(** Three facts of the URL standard about the constructor.  The base is
    parsed first, on its own, as an absolute URL: it has a scheme, so it
    holds a colon, and the scheme starts with a letter, which is the first
    code unit of the base once leading controls and spaces are dropped.
    And a host is serialized without a colon, unless it is an IPv6
    address, which is written between brackets. *)
Definition standard_constructor (new_URL : string -> string -> option URL) : Prop :=
  forall url base u,
    new_URL url base = Some u ->
    colon_free base = false /\
    (exists c rest,
       Whatwg.strip_start Whatwg.is_c0_or_space base = String c rest /\
       Text.is_alpha c = true) /\
    (colon_free (hostname u) = true \/ exists rest, hostname u = String "[" rest).

(** A document whose document element is the placeholder. *)
Definition placeholder_root : page :=
  mkPage (Elem 0 ByParser "#document" ∅
            [Elem 1 ByParser "html" {["data-embedsrc" := "/frag.html"]} []]) 2 [].

(* ===================================================================== *)
(** ** JavaScript values, for [flatten], [reduce_property] and [select] *)
(* ===================================================================== *)

(** The values the two libraries work on: the primitives, functions (given
    by their source text, which is what a function turns into as a
    property key) and plain objects (given by their own enumerable
    properties in the order of [Object.entries]).  Numbers are the
    non-negative integers that print in decimal digits. *)
Module Js.

Inductive value :=
| Undefined
| Null
| Bool (b : bool)
| Num (n : N)
| Str (s : string)
| Fn (source : string)
| Obj (props : list (string * value)).

(** The class of a thrown exception. *)
Inductive abrupt := TypeError | RangeError.

Definition completion (A : Type) : Type := abrupt + A.

Definition and_then {A B : Type} (c : completion A) (k : A -> completion B) : completion B :=
  match c with
  | inl e => inl e
  | inr x => k x
  end.

(** [v == null] *)
Definition nullish (v : value) : bool :=
  match v with
  | Undefined | Null => true
  | _ => false
  end.

(** [v ?? w] *)
Definition coalesce (v w : value) : value := if nullish v then w else v.

(** A string as the list of its one-unit strings. *)
Definition units (s : string) : list string :=
  map (fun c => String c EmptyString) (list_ascii_of_string s).

(** [ToPropertyKey] *)
Definition property_key (v : value) : string :=
  match v with
  | Undefined => "undefined"
  | Null => "null"
  | Bool true => "true"
  | Bool false => "false"
  | Num n => pretty n
  | Str s => s
  | Fn source => source
  | Obj _ => "[object Object]"
  end.

(** [Object.entries(v)]: the own enumerable string-keyed properties; a
    string has its units under their indices, the other primitives and
    functions have none, and there is no object to take them from for
    [null] and [undefined]. *)
Definition entries (v : value) : completion (list (string * value)) :=
  match v with
  | Undefined | Null => inl TypeError
  | Obj props => inr props
  | Str s => inr (imap (fun i u => (pretty i, Str u)) (units s))
  | Bool _ | Num _ | Fn _ => inr []
  end.

(** [v] is the entry [k] of [obj], or of an entry of [obj], at any depth. *)
Inductive member : value -> string -> value -> Prop :=
| member_here obj l k v :
    entries obj = inr l -> (k, v) ∈ l -> member obj k v
| member_below obj l k' c k v :
    entries obj = inr l -> (k', c) ∈ l -> member c k v -> member obj k v.

(** [Object.keys(v)] *)
Definition keys (v : value) : completion (list string) :=
  and_then (entries v) (fun l => inr (map fst l)).

(** The own property [k] of an object with the properties [props]. *)
Definition own (props : list (string * value)) (k : string) : option value :=
  snd <$> List.find (fun kv => String.eqb (fst kv) k) props.

Section Realm.

(** What the prototype chain of a value gives for a name the value has no
    own property of ([undefined] where it gives nothing); for a function it
    also stands for [name] and [length]. *)
Variable inherited : value -> string -> value.

(** [v[k]] for a property key [k] *)
Definition get (v : value) (k : string) : completion value :=
  match v with
  | Undefined | Null => inl TypeError
  | Obj props => inr (default (inherited v k) (own props k))
  | Str s =>
      inr (if String.eqb k "length" then Num (N.of_nat (String.length s))
           else default (inherited v k) (own (imap (fun i u => (pretty i, Str u)) (units s)) k))
  | Bool _ | Num _ | Fn _ => inr (inherited v k)
  end.

End Realm.

(** [s.split(separator)] for a string separator and no limit. *)
Fixpoint split_go (separator : string) (skip : nat) (part s : string) : list string :=
  match s with
  | EmptyString => [part]
  | String c s' =>
      match skip with
      | S skip' => split_go separator skip' part s'
      | O =>
          if String.prefix separator s
          then part :: split_go separator (String.length separator - 1) EmptyString s'
          else split_go separator 0 (part +:+ String c EmptyString) s'
      end
  end.

Definition split (s separator : string) : list string :=
  match separator with
  | EmptyString => units s
  | _ => split_go separator 0 EmptyString s
  end.

(** [parts.includes(key)]: an array of strings holds [key] when [key] is
    one of those strings. *)
Definition includes (parts : list string) (key : value) : bool :=
  match key with
  | Str k => existsb (String.eqb k) parts
  | _ => false
  end.

(** A realm in which nothing is inherited under the names in use. *)
Definition bare (_ : value) (_ : string) : value := Undefined.

End Js.

(* ===================================================================== *)
(** ** EasyForm: [flatten], [reduce_property] and the test for a field *)
(* ===================================================================== *)

Module EasyForm.
Import Js.

Section Flatten.

Variable max_depth_condition : value -> completion bool.

(** The callback of the [reduce] in [flatten], over the recursive call. *)
Definition merge (flatten : value -> completion (gmap string value))
    (result : completion (gmap string value)) (entry : string * value)
  : completion (gmap string value) :=
  and_then result (fun result =>
  and_then (max_depth_condition (snd entry)) (fun leaf =>
    if leaf then inr (<[fst entry := snd entry]> result)
    else and_then (flatten (snd entry)) (fun sub => inr (sub ∪ result)))).

(** [flatten(obj, max_depth_condition)], with [stack] calls of [flatten]
    left on the call stack; the call that does not fit throws a
    [RangeError]. *)
Fixpoint flatten (stack : nat) (obj : value) : completion (gmap string value) :=
  match stack with
  | O => inl RangeError
  | S stack' =>
      and_then (entries obj) (fun l => fold_left (merge (flatten stack')) l (inr ∅))
  end.

(** The leaves of an object in the order [flatten] meets them. *)
Fixpoint leaves (obj : value) : list (string * value) :=
  match obj with
  | Obj props =>
      (fix over (l : list (string * value)) : list (string * value) :=
         match l with
         | [] => []
         | (key, v) :: l' =>
             match max_depth_condition v with
             | inr true => [(key, v)]
             | _ => leaves v
             end ++ over l'
         end) props
  | _ => []
  end.

(** An object made of leaves and of groups that are such objects, no
    deeper than [stack] calls reach. *)
Fixpoint field_tree (stack : nat) (obj : value) : bool :=
  match stack, obj with
  | S stack', Obj props =>
      forallb (fun entry =>
                 match max_depth_condition (snd entry) with
                 | inr true => true
                 | inr false => field_tree stack' (snd entry)
                 | inl _ => false
                 end) props
  | _, _ => false
  end.

End Flatten.

Section Fields.

Variable inherited : value -> string -> value.

(** [(component) => component.type != null] *)
Definition is_field (component : value) : completion bool :=
  and_then (get inherited component "type") (fun type => inr (negb (nullish type))).

(** [reduce_property(fields, property)] *)
Definition reduce_property (fields : value) (property : string)
  : completion (gmap string value) :=
  and_then (keys fields) (fun ks =>
    fold_left (fun result key =>
                 and_then result (fun result =>
                 and_then (get inherited fields key) (fun field =>
                 and_then (get inherited field property) (fun x =>
                   inr (<[key := x]> result)))))
              ks (inr ∅)).

(** What [field[property]] gives on a field that can be read. *)
Definition read (property : string) (field : value) : value :=
  match get inherited field property with
  | inr x => x
  | inl _ => Undefined
  end.

End Fields.

(** The object [flatten] returned, as a value: its properties in some
    order, each once. *)
Definition object_of (m : gmap string value) (props : list (string * value)) : Prop :=
  NoDup (map fst props) /\ list_to_map props = m.

(** The fields of a form: one field, and a group of two. *)
Definition user : value := Obj [("type", Str "text"); ("initial", Str "guest")].
Definition password : value := Obj [("type", Str "password"); ("initial", Str "")].
Definition remember : value := Obj [("type", Str "checkbox")].

Definition login : value :=
  Obj [("user", user); ("_secret", Obj [("password", password); ("remember", remember)])].

(** The same with a second field named [user] inside the group. *)
Definition login_twice : value :=
  Obj [("user", user); ("_secret", Obj [("password", password); ("user", remember)])].

End EasyForm.

(* ===================================================================== *)
(** ** wrappedjs: [select] *)
(* ===================================================================== *)

Module Wrapped.
Import Js.

Section Select.

Variable inherited : value -> string -> value.

(** [switcher[k]] on a switcher with the given properties. *)
Definition case (switcher : list (string * value)) (k : string) : value :=
  default (inherited (Obj switcher) k) (own switcher k).

(** The first key of the switcher that lists [key] among its parts: the
    [find] over [Object.keys(switcher)], whose elements are all strings. *)
Definition find_key (key : value) (switcher : list (string * value)) (separator : string)
  : value :=
  match List.find (fun switcher_key => includes (split switcher_key separator) key)
                  (map fst switcher) with
  | Some switcher_key => Str switcher_key
  | None => Undefined
  end.

(** [select] past its first test: the switcher is there. *)
Definition select_from (key : value) (switcher : list (string * value))
    (separator : option string) : value :=
  match separator with
  | None | Some EmptyString =>
      coalesce (case switcher (property_key key)) (case switcher "default")
  | Some separator =>
      let found_key :=
        coalesce (case switcher (property_key key)) (find_key key switcher separator) in
      case switcher (property_key (coalesce found_key (Str "default")))
  end.

(** What [select] returns: the object with [from], or the selected value. *)
Inductive selection :=
| From (from : list (string * value) -> option string -> value)
| Selected (v : value).

Definition select (key : value) (switcher : option (list (string * value)))
    (separator : option string) : selection :=
  match switcher with
  | None => From (select_from key)
  | Some switcher => Selected (select_from key switcher separator)
  end.

End Select.

(** The switcher of the first example of the package's README, and one
    with numbers for cases. *)
Definition readme_switcher : list (string * value) :=
  [("case1:case2", Str "value1"); ("case3", Str "value2")].

Definition numbered : list (string * value) :=
  [("1:2", Str "low"); ("default", Str "other")].

End Wrapped.
(* ===================================================================== *)
(** ** Lemmas: text *)
(* ===================================================================== *)

Lemma trimStart_blank (s : string) : Text.blank s = true -> Text.trimStart s = EmptyString.
Proof.
  induction s as [|c s IH]; simpl; [reflexivity|].
  intros [Hc Hs]%andb_prop. rewrite Hc. exact (IH Hs).
Qed.

Lemma trim_blank (s : string) : Text.blank s = true -> Text.trim s = EmptyString.
Proof. intros H. unfold Text.trim. rewrite (trimStart_blank s H). reflexivity. Qed.

Lemma trimEnd_empty (s : string) : Text.trimEnd s = EmptyString -> Text.blank s = true.
Proof.
  induction s as [|c s IH]; simpl; [reflexivity|].
  destruct (Text.trimEnd s) eqn:E; [|discriminate].
  destruct (Text.is_space c); [|discriminate].
  intros _. simpl. apply IH. reflexivity.
Qed.

Lemma trimStart_empty (s : string) : Text.trimStart s = EmptyString -> Text.blank s = true.
Proof.
  induction s as [|c s IH]; simpl; [reflexivity|].
  destruct (Text.is_space c); [|discriminate]. exact IH.
Qed.

Lemma blank_trimStart (s : string) :
  Text.blank (Text.trimStart s) = true -> Text.blank s = true.
Proof.
  induction s as [|c s IH]; simpl; [reflexivity|].
  destruct (Text.is_space c) eqn:E; simpl; [exact IH|].
  rewrite E. discriminate.
Qed.

(** [s.trim()] is falsy exactly for the empty and the white-space-only
    strings. *)
Lemma trim_falsy (s : string) :
  Text.truthy (Text.trim s) = false <-> Text.blank s = true.
Proof.
  split.
  - unfold Text.trim. intros H.
    destruct (Text.trimEnd (Text.trimStart s)) eqn:E; [|discriminate].
    apply blank_trimStart, trimEnd_empty, E.
  - intros H. rewrite (trim_blank s H). reflexivity.
Qed.

(* ===================================================================== *)
(** ** Lemmas: the check of the source address *)
(* ===================================================================== *)

Section Check.
Context (B : Browser).

Lemma check_invalid url st :
  new_URL B url (domain B) = None ->
  check B url st = (inr false, after_events st [invalid_URL_log]).
Proof.
  intros H. unfold check, try_catch, bind, construct_URL. rewrite H. reflexivity.
Qed.

Lemma check_other_host url u st :
  new_URL B url (domain B) = Some u ->
  hostname u <> domain B ->
  check B url st = (inr false, st).
Proof.
  intros H Hne. unfold check, try_catch, bind, construct_URL. rewrite H. simpl.
  destruct (String.eqb_spec (hostname u) (domain B)); [contradiction|reflexivity].
Qed.

Lemma check_no_language url u st :
  new_URL B url (domain B) = Some u ->
  hostname u = domain B ->
  or_else (language B) (userLanguage B) = None ->
  check B url st = (inr false, after_events st [no_language_log]).
Proof.
  intros H He Hl. unfold check, try_catch, bind, construct_URL. rewrite H. cbn.
  rewrite He, String.eqb_refl. cbn. unfold lang. rewrite Hl. reflexivity.
Qed.

Lemma check_http url u l st :
  new_URL B url (domain B) = Some u ->
  hostname u = domain B ->
  or_else (language B) (userLanguage B) = Some l ->
  protocol u = "http:" ->
  check B url st = (inr true, after_events st [Alert (warning l)]).
Proof.
  intros H He Hl Hp. unfold check, try_catch, bind, construct_URL. rewrite H. cbn.
  rewrite He, String.eqb_refl. cbn. unfold lang. rewrite Hl. cbn.
  rewrite Hp. reflexivity.
Qed.

Lemma check_quiet url u l st :
  new_URL B url (domain B) = Some u ->
  hostname u = domain B ->
  or_else (language B) (userLanguage B) = Some l ->
  protocol u <> "http:" ->
  check B url st = (inr true, st).
Proof.
  intros H He Hl Hp. unfold check, try_catch, bind, construct_URL. rewrite H. cbn.
  rewrite He, String.eqb_refl. cbn. unfold lang. rewrite Hl. cbn.
  destruct (String.eqb_spec (protocol u) "http:"); [contradiction|reflexivity].
Qed.

(** The check returns, and it leaves the document as it is. *)
Lemma check_returns url st :
  exists b st', check B url st = (inr b, st') /\
                document st' = document st /\ next_id st' = next_id st.
Proof.
  destruct (new_URL B url (domain B)) as [u|] eqn:H.
  - destruct (decide (hostname u = domain B)) as [He|Hne].
    + destruct (or_else (language B) (userLanguage B)) as [l|] eqn:Hl.
      * destruct (decide (protocol u = "http:")) as [Hp|Hp].
        -- rewrite (check_http url u l st H He Hl Hp). eauto.
        -- rewrite (check_quiet url u l st H He Hl Hp). eauto.
      * rewrite (check_no_language url u st H He Hl). eauto.
    + rewrite (check_other_host url u st H Hne). eauto.
  - rewrite (check_invalid url st H). eauto.
Qed.


End Check.

(* ===================================================================== *)
(** ** Lemmas: the loop over the placeholders *)
(* ===================================================================== *)

Section Loop.
Context (B : Browser).

Lemma check_spec url st :
  exists st', check B url st = (inr (passes B url), st') /\
              document st' = document st /\ next_id st' = next_id st /\
              events st' = events st ++ check_events B url.
Proof.
  unfold passes, check_events.
  destruct (new_URL B url (domain B)) as [u|] eqn:H.
  - destruct (String.eqb_spec (hostname u) (domain B)) as [He|Hne].
    + destruct (or_else (language B) (userLanguage B)) as [l|] eqn:Hl.
      * destruct (String.eqb_spec (protocol u) "http:") as [Hp|Hp].
        -- rewrite (check_http B url u l st H He Hl Hp). eexists. split; [reflexivity|].
           simpl. auto.
        -- rewrite (check_quiet B url u l st H He Hl Hp). exists st.
           rewrite app_nil_r. auto.
      * rewrite (check_no_language B url u st H He Hl). eexists. split; [reflexivity|].
        simpl. auto.
    + rewrite (check_other_host B url u st H Hne). exists st. rewrite app_nil_r. auto.
  - rewrite (check_invalid B url st H). eexists. split; [reflexivity|]. simpl. auto.
Qed.

Lemma visit_spec attributeName placeholder st :
  exists st', visit B attributeName placeholder st = (inr tt, st') /\
              document st' = document st /\ next_id st' = next_id st /\
              events st' = events st ++ visit_events B attributeName placeholder.
Proof.
  unfold visit, visit_events, bind.
  set (url := default "null" (Dom.getAttribute placeholder attributeName)).
  destruct (check_spec url st) as (st1 & -> & Hd & Hn & He).
  destruct (passes B url).
  - eexists. split; [reflexivity|]. simpl. rewrite He, app_assoc. auto.
  - exists st1. rewrite app_nil_r. auto.
Qed.

Lemma forEach_visit_spec attributeName placeholders st :
  exists st', forEach placeholders (visit B attributeName) st = (inr tt, st') /\
              document st' = document st /\ next_id st' = next_id st /\
              events st' = events st ++ flat_map (visit_events B attributeName) placeholders.
Proof.
  revert st. induction placeholders as [|p l IH]; intros st; simpl.
  - exists st. rewrite app_nil_r. auto.
  - unfold bind. destruct (visit_spec attributeName p st) as (st1 & -> & Hd & Hn & He).
    destruct (IH st1) as (st2 & -> & Hd2 & Hn2 & He2).
    exists st2. split; [reflexivity|].
    rewrite Hd2, Hn2, He2, He, app_assoc. auto.
Qed.

(** The synchronous pass returns; it leaves the document as it is, and
    every placeholder contributes its own events, whatever became of the
    others. *)
Lemma embedElements_spec attributeName st :
  Text.plain_name attributeName = true ->
  exists st', embedElements B attributeName st = (inr tt, st') /\
              document st' = document st /\ next_id st' = next_id st /\
              events st' = events st ++
                flat_map (visit_events B attributeName)
                         (Dom.querySelectorAll_attr (document st) attributeName).
Proof.
  intros Hname. unfold embedElements, querySelectorAll_attr, bind, get_document.
  rewrite Hname. apply forEach_visit_spec.
Qed.

End Loop.

(* ===================================================================== *)
(** ** Lemmas: trees *)
(* ===================================================================== *)

Lemma edit_Elem i f j m t a k :
  Dom.edit i f (Elem j m t a k) = Elem j m t a (flat_map (step i f) k).
Proof. reflexivity. Qed.

Lemma ids_Elem j m t a k : Dom.ids (Elem j m t a k) = forest_ids k.
Proof.
  unfold Dom.ids, forest_ids. simpl.
  induction k as [|c k IH]; simpl; [reflexivity|].
  rewrite map_app, IH. destruct (Dom.is_element c); reflexivity.
Qed.

Lemma forest_ids_app l1 l2 : forest_ids (l1 ++ l2) = forest_ids l1 ++ forest_ids l2.
Proof. unfold forest_ids. apply flat_map_app. Qed.

Lemma forest_ids_cons c l :
  forest_ids (c :: l) =
  (if Dom.is_element c then Dom.ident c :: Dom.ids c else []) ++ forest_ids l.
Proof. reflexivity. Qed.

Lemma ident_edit i f n : Dom.ident (Dom.edit i f n) = Dom.ident n.
Proof. destruct n; reflexivity. Qed.

Lemma is_element_edit i f n : Dom.is_element (Dom.edit i f n) = Dom.is_element n.
Proof. destruct n; reflexivity. Qed.

Lemma is_node_edit i j f n : Dom.is_node j (Dom.edit i f n) = Dom.is_node j n.
Proof. destruct n; reflexivity. Qed.

Lemma is_node_true i n : Dom.is_node i n = true -> Dom.is_element n = true /\ Dom.ident n = i.
Proof.
  destruct n as [s|j m t a k]; simpl; [discriminate|].
  intros H%Nat.eqb_eq. auto.
Qed.

Lemma is_node_false i n :
  Dom.is_node i n = false -> Dom.is_element n = true -> Dom.ident n <> i.
Proof.
  destruct n as [s|j m t a k]; simpl; [discriminate|].
  intros H%Nat.eqb_neq _. exact H.
Qed.

(** A removed element is gone, and a removal brings nothing in. *)
Lemma remove_gone i n : i ∉ Dom.ids (Dom.remove i n).
Proof.
  induction n as [s|j m t a k IH] using node_tree_ind.
  - simpl. apply not_elem_of_nil.
  - unfold Dom.remove. rewrite edit_Elem, ids_Elem.
    induction IH as [|c k Hc _ IHk]; simpl; [apply not_elem_of_nil|].
    rewrite forest_ids_app. unfold step at 1.
    destruct (Dom.is_node i c) eqn:E; simpl; [exact IHk|].
    rewrite app_nil_r, is_element_edit, ident_edit.
    destruct (Dom.is_element c) eqn:Ec; simpl; [|exact IHk].
    intros [H|[H|H]%elem_of_app]%elem_of_cons.
    + symmetry in H. exact (is_node_false i c E Ec H).
    + exact (Hc H).
    + exact (IHk H).
Qed.

Lemma remove_ids i n x : x ∈ Dom.ids (Dom.remove i n) -> x ∈ Dom.ids n.
Proof.
  induction n as [s|j m t a k IH] using node_tree_ind.
  - simpl. auto.
  - unfold Dom.remove. rewrite edit_Elem, !ids_Elem.
    induction IH as [|c k Hc _ IHk]; simpl; [auto|].
    rewrite forest_ids_app. unfold step at 1.
    destruct (Dom.is_node i c) eqn:E; simpl.
    + intros H. apply elem_of_app. right. exact (IHk H).
    + rewrite app_nil_r, is_element_edit, ident_edit.
      destruct (Dom.is_element c) eqn:Ec; simpl; [|exact IHk].
      intros [H|[H|H]%elem_of_app]%elem_of_cons.
      * subst. apply elem_of_cons. auto.
      * apply elem_of_cons. right. apply elem_of_app. left. exact (Hc H).
      * apply elem_of_cons. right. apply elem_of_app. right. exact (IHk H).
Qed.

(** The serializer undoes the parser's construction of nodes. *)
Lemma outerHTML_build h : forall n, Dom.outerHTML (Dom.build h n).1 = h.
Proof.
  induction h as [s|t a k IH] using html_tree_ind; intros n; simpl; [reflexivity|].
  destruct (Dom.thread Dom.build k (S n)) as [k' n'] eqn:E. simpl. f_equal.
  revert k' n' E. generalize (S n) as n0.
  induction IH as [|h k Hh _ IHk]; intros n0 k' n' E; simpl in E.
  - injection E as <- <-. reflexivity.
  - destruct (Dom.build h n0) as [x n1] eqn:Ex.
    destruct (Dom.thread Dom.build k n1) as [xs n2] eqn:Exs.
    injection E as <- <-. simpl. f_equal.
    + specialize (Hh n0). rewrite Ex in Hh. exact Hh.
    + exact (IHk n1 xs n2 Exs).
Qed.

Lemma outerHTML_build_all l : forall n, map Dom.outerHTML (Dom.build_all l n).1 = l.
Proof.
  unfold Dom.build_all. induction l as [|h l IH]; intros n; simpl; [reflexivity|].
  destruct (Dom.build h n) as [x n1] eqn:Ex.
  destruct (Dom.thread Dom.build l n1) as [xs n2] eqn:Exs. simpl. f_equal.
  - pose proof (outerHTML_build h n) as H. rewrite Ex in H. exact H.
  - specialize (IH n1). rewrite Exs in IH. exact IH.
Qed.

(* ===================================================================== *)
(** ** Lemmas: the cloner *)
(* ===================================================================== *)

Lemma copy_attributes_lookup source names : forall target name,
  copy_attributes source names target !! name =
  if bool_decide (name ∈ names) then Some (default "null" (source !! name))
  else target !! name.
Proof.
  induction names as [|k names IH]; intros target name; simpl.
  - reflexivity.
  - unfold copy_attributes in *. simpl. rewrite IH.
    destruct (decide (name ∈ names)) as [Hin|Hin].
    + rewrite !bool_decide_eq_true_2; [reflexivity| |exact Hin].
      apply elem_of_cons. auto.
    + rewrite (bool_decide_eq_false_2 _ Hin).
      destruct (decide (name = k)) as [->|Hne].
      * rewrite lookup_insert_eq, bool_decide_eq_true_2; [reflexivity|].
        apply elem_of_cons. auto.
      * rewrite lookup_insert_ne by congruence.
        rewrite bool_decide_eq_false_2; [reflexivity|].
        intros [?|?]%elem_of_cons; contradiction.
Qed.

Lemma copy_attributes_all (source : gmap string string) :
  copy_attributes source (map_to_list source).*1 ∅ = source.
Proof.
  apply map_eq. intros name. rewrite copy_attributes_lookup.
  destruct (source !! name) as [v|] eqn:E.
  - rewrite bool_decide_eq_true_2; [reflexivity|].
    apply list_elem_of_fmap. exists (name, v). split; [reflexivity|].
    apply elem_of_map_to_list. exact E.
  - rewrite bool_decide_eq_false_2; [apply lookup_empty|].
    intros [[k v] [-> H%elem_of_map_to_list]]%list_elem_of_fmap.
    simpl in E. congruence.
Qed.

Lemma setAttribute_loop (selected : node) names i m t a k :
  fold_left (fun el attribute =>
               Dom.setAttribute el attribute (Dom.getAttribute selected attribute))
            names (Elem i m t a k)
  = Elem i m t (copy_attributes (Dom.attributes selected) names a) k.
Proof.
  revert a. induction names as [|name names IH]; intros a; simpl; [reflexivity|].
  rewrite IH. reflexivity.
Qed.

(** The counter of identities only grows. *)
Lemma build_grows h : forall n, n <= (Dom.build h n).2.
Proof.
  induction h as [s|t a k IH] using html_tree_ind; intros n; simpl; [lia|].
  destruct (Dom.thread Dom.build k (S n)) as [k' n'] eqn:E. simpl.
  enough (S n <= n') by lia.
  revert k' n' E. generalize (S n) as n0.
  induction IH as [|h k Hh _ IHk]; intros n0 k' n' E; simpl in E.
  - injection E as <- <-. lia.
  - destruct (Dom.build h n0) as [x n1] eqn:Ex.
    destruct (Dom.thread Dom.build k n1) as [xs n2] eqn:Exs.
    injection E as <- <-.
    specialize (Hh n0). rewrite Ex in Hh. simpl in Hh.
    specialize (IHk n1 xs n2 Exs). lia.
Qed.

Lemma build_all_grows l : forall n, n <= (Dom.build_all l n).2.
Proof.
  unfold Dom.build_all. induction l as [|h l IH]; intros n; simpl; [lia|].
  destruct (Dom.build h n) as [x n1] eqn:Ex.
  destruct (Dom.thread Dom.build l n1) as [xs n2] eqn:Exs. simpl.
  pose proof (build_grows h n) as H1. rewrite Ex in H1.
  specialize (IH n1). rewrite Exs in IH. simpl in *. lia.
Qed.

Lemma parse_nodes_spec markup st :
  exists nodes st', parse_nodes markup st = (inr nodes, st') /\
    (nodes, next_id st') = Dom.build_all markup (next_id st) /\
    document st' = document st /\ events st' = events st /\
    next_id st <= next_id st'.
Proof.
  unfold parse_nodes. pose proof (build_all_grows markup (next_id st)) as Hg.
  destruct (Dom.build_all markup (next_id st)) as [nodes n]. eauto 10.
Qed.

Lemma createElement_plain B tag st :
  Text.plain_name tag = true ->
  createElement B tag st
  = (inr (Elem (next_id st) ByCreateElement tag ∅ []),
     mkPage (document st) (S (next_id st)) (events st)).
Proof. intros H. unfold createElement. rewrite H. reflexivity. Qed.

Lemma createElement_plain_or B tag st :
  Text.plain_name tag || accepts_element_name B tag = true ->
  createElement B tag st
  = (inr (Elem (next_id st) ByCreateElement tag ∅ []),
     mkPage (document st) (S (next_id st)) (events st)).
Proof. intros H. unfold createElement. rewrite H. reflexivity. Qed.

Lemma copy_each_spec B selected names : forall element st,
  forallb (accepts_attribute_name B) names = true ->
  copy_each B selected names element st
  = (inr (fold_left (fun el attribute =>
                       Dom.setAttribute el attribute (Dom.getAttribute selected attribute))
                    names element), st).
Proof.
  induction names as [|name names IH]; intros element st Hn; [reflexivity|].
  cbn [forallb] in Hn. apply andb_prop in Hn as [H1 H2].
  cbn [copy_each fold_left]. unfold bind, setAttribute. rewrite H1. unfold ret.
  apply IH, H2.
Qed.

Lemma clone_spec B selected st :
  can_clone B selected = true ->
  exists element st',
    clone B selected st = (inr element, st') /\
    is_clone_of B selected element /\
    Dom.ident element = next_id st /\
    document st' = document st /\ events st' = events st /\
    next_id st < next_id st'.
Proof.
  intros [Htag Hnames]%andb_prop.
  unfold clone, bind, createElement. rewrite Htag.
  set (st1 := mkPage (document st) (S (next_id st)) (events st)).
  rewrite (copy_each_spec B selected _ _ st1 Hnames), setAttribute_loop.
  unfold set_innerHTML, bind. cbn [Dom.tagName].
  destruct (parse_nodes_spec (reread B (Dom.tagName selected) (Dom.innerHTML selected)) st1)
    as (nodes & st2 & -> & Hb & Hd & He & Hn).
  simpl. eexists _, st2. split; [reflexivity|].
  repeat split; simpl; auto.
  - apply copy_attributes_all.
  - unfold Dom.innerHTML at 1. simpl.
    pose proof (outerHTML_build_all
                  (reread B (Dom.tagName selected) (Dom.innerHTML selected)) (next_id st1)) as H.
    rewrite <- Hb in H. exact H.
Qed.

Lemma clone_each_spec B selection remove : forall elements container st,
  forallb (can_clone B) selection = true ->
  exists clones st',
    clone_each B selection remove elements container st
      = (inr (elements ++ clones, removals remove selection container), st') /\
    Forall2 (is_clone_of B) selection clones /\
    document st' = document st /\ events st' = events st /\
    next_id st <= next_id st'.
Proof.
  induction selection as [|selected rest IH]; intros elements container st Hall; simpl.
  - exists [], st. rewrite app_nil_r. destruct remove; simpl; auto.
  - cbn [forallb] in Hall. apply andb_prop in Hall as [Hsel Hrest].
    unfold bind.
    destruct (clone_spec B selected st Hsel) as (element & st1 & -> & Hc & _ & Hd & He & Hn).
    destruct (IH (elements ++ [element])
                 (if remove then Dom.remove (Dom.ident selected) container else container) st1
                 Hrest)
      as (clones & st2 & -> & Hcs & Hd2 & He2 & Hn2).
    exists (element :: clones), st2. split.
    + rewrite <- app_assoc. simpl. destruct remove; reflexivity.
    + split; [constructor; assumption|]. repeat split; [congruence|congruence|lia].
Qed.

(** The elements a type selector selects can be cloned as soon as their
    attribute names are taken. *)
Lemma selected_can_clone B container selector :
  Text.plain_name selector = true ->
  forallb (names_accepted B) (Dom.querySelectorAll container selector) = true ->
  forallb (can_clone B) (Dom.querySelectorAll container selector) = true.
Proof.
  intros Hsel Hnames. apply forallb_forall. intros c Hc.
  rewrite forallb_forall in Hnames. unfold can_clone. rewrite (Hnames c Hc), andb_true_r.
  unfold Dom.querySelectorAll in Hc. apply filter_In in Hc as [_ Ht].
  apply String.eqb_eq in Ht. rewrite Ht, Hsel. reflexivity.
Qed.



(** What [getClonedElements] returns for a type selector, when the
    attribute names of the selected elements are taken. *)
Lemma getClonedElements_spec B container selector remove st :
  Text.plain_name selector = true ->
  forallb (names_accepted B) (Dom.querySelectorAll container selector) = true ->
  exists clones st',
    getClonedElements B container selector remove st
      = (inr (clones, removals remove (Dom.querySelectorAll container selector) container), st') /\
    Forall2 (is_clone_of B) (Dom.querySelectorAll container selector) clones /\
    document st' = document st /\ events st' = events st /\
    next_id st <= next_id st'.
Proof.
  intros Hsel Hnames.
  unfold getClonedElements, querySelectorAll, bind. rewrite Hsel. unfold ret.
  destruct (clone_each_spec B (Dom.querySelectorAll container selector) remove [] container st
              (selected_can_clone B container selector Hsel Hnames))
    as (clones & st' & H & Hrest).
  exists clones, st'. split; [exact H|exact Hrest].
Qed.

(* ===================================================================== *)
(** ** Lemmas: the promise chain *)
(* ===================================================================== *)

(** Whatever the fetch comes back with, the chain ends in a fulfilled
    promise: the [catch] takes every throw. *)
Lemma settle_returns B placeholder url o st :
  exists st', settle B placeholder url o st = (inr tt, st').
Proof.
  unfold settle, try_catch.
  match goal with |- context [ let (_, _) := ?c st in _ ] => destruct (c st) as [[e|[]] st1] end.
  - unfold bind, console_log, emit. eauto.
  - eauto.
Qed.

Lemma settle_failed B placeholder url o st :
  failed o ->
  settle B placeholder url o st = (inr tt, after_events st [failure_log url o]).
Proof.
  destruct o as [e|r]; simpl; intros H.
  - reflexivity.
  - unfold settle, try_catch, bind. rewrite H. reflexivity.
Qed.

Lemma settle_blank B placeholder url r body st :
  ok r = true -> text r = inr body -> Text.blank body = true ->
  settle B placeholder url (Fulfilled r) st
  = (inr tt, mkPage (Dom.remove placeholder (document st)) (next_id st) (events st)).
Proof.
  intros Hok Ht Hb. unfold settle, try_catch, bind.
  rewrite Hok, Ht. simpl.
  rewrite (proj2 (trim_falsy body) Hb). reflexivity.
Qed.

(* ===================================================================== *)
(** ** Lemmas: the embedder *)
(* ===================================================================== *)

Lemma embedElement_stages B placeholder sourceHTML st :
  embedElement B placeholder sourceHTML st
  = bind (extract B sourceHTML) (splice B placeholder) st.
Proof.
  unfold embedElement, extract, splice, bind.
  destruct (createElement B "div" st) as [[e|temp] st1]; [reflexivity|].
  destruct (set_innerHTML temp (parseHTML B sourceHTML) st1) as [[e|temp1] st2]; [reflexivity|].
  destruct (getClonedElements B temp1 "script" true st2) as [[e|[scriptEls temp2]] st3];
    [reflexivity|].
  destruct (getClonedElements B temp2 "link" true st3) as [[e|[linkEls temp3]] st4];
    reflexivity.
Qed.

(** The first stage returns the clones of the scripts of the fetched
    markup, the clones of the links that are left once the scripts are
    out, and the container without either. *)
Lemma extract_spec B sourceHTML st :
  forallb (names_accepted B)
          (Dom.querySelectorAll (parsed_container B sourceHTML st) "script") = true ->
  forallb (names_accepted B)
          (Dom.querySelectorAll (without "script" (parsed_container B sourceHTML st)) "link")
    = true ->
  exists scriptEls linkEls st',
    extract B sourceHTML st
      = (inr (scriptEls, linkEls,
              without "link" (without "script" (parsed_container B sourceHTML st))), st') /\
    Forall2 (is_clone_of B)
            (Dom.querySelectorAll (parsed_container B sourceHTML st) "script") scriptEls /\
    Forall2 (is_clone_of B)
            (Dom.querySelectorAll (without "script" (parsed_container B sourceHTML st)) "link")
            linkEls /\
    document st' = document st /\ events st' = events st /\
    next_id st < next_id st'.
Proof.
  intros Hscripts Hlinks.
  unfold extract, bind. rewrite (createElement_plain B "div" st eq_refl).
  unfold set_innerHTML, bind.
  set (st1 := mkPage (document st) (S (next_id st)) (events st)).
  destruct (parse_nodes_spec (parseHTML B sourceHTML) st1)
    as (nodes & st2 & -> & Hb & Hd2 & He2 & Hn2).
  simpl.
  assert (Ht : Elem (next_id st) ByCreateElement "div" ∅ nodes = parsed_container B sourceHTML st).
  { unfold parsed_container. simpl in Hb. rewrite <- Hb. reflexivity. }
  rewrite Ht.
  destruct (getClonedElements_spec B (parsed_container B sourceHTML st) "script" true st2
              eq_refl Hscripts)
    as (scriptEls & st3 & -> & Hs & Hd3 & He3 & Hn3).
  fold (without "script" (parsed_container B sourceHTML st)).
  destruct (getClonedElements_spec B (without "script" (parsed_container B sourceHTML st))
                                   "link" true st3 eq_refl Hlinks)
    as (linkEls & st4 & -> & Hl & Hd4 & He4 & Hn4).
  exists scriptEls, linkEls, st4. split; [reflexivity|].
  simpl in *. repeat split; try assumption; try congruence; lia.
Qed.

(** Rewriting an element into itself changes nothing; this is the
    insertion of no nodes. *)
Lemma edit_same i n : Dom.edit i (fun p => [p]) n = n.
Proof.
  induction n as [s|j m t a k IH] using node_tree_ind; [reflexivity|].
  rewrite edit_Elem. f_equal.
  induction IH as [|c k Hc _ IHk]; simpl; [reflexivity|].
  rewrite IHk. unfold step. destruct (Dom.is_node i c); simpl; [reflexivity|].
  rewrite Hc. reflexivity.
Qed.

Lemma insert_nothing i n : Dom.insert_after i [] n = n.
Proof. apply edit_same. Qed.

(** An element that has siblings after it below [n] is below [n]. *)
Lemma siblings_after_attached i n l : Dom.siblings_after i n = Some l -> i ∈ Dom.ids n.
Proof.
  revert l. induction n as [s|j m t a k IH] using node_tree_ind; intros l; simpl; [discriminate|].
  rewrite ids_Elem.
  induction IH as [|c k Hc _ IHk]; [discriminate|].
  rewrite forest_ids_cons.
  destruct (Dom.is_node i c) eqn:E.
  - intros _. destruct (is_node_true i c E) as [-> <-].
    apply elem_of_app. left. apply elem_of_cons. auto.
  - destruct (Dom.siblings_after i c) as [r|] eqn:Er.
    + intros _. apply elem_of_app. left.
      destruct c as [s|j' m' t' a' k']; [discriminate Er|]. simpl.
      apply elem_of_cons. right. exact (Hc r eq_refl).
    + intros H. apply elem_of_app. right. exact (IHk H).
Qed.

(** The second stage when the container has nothing left in it. *)
Lemma splice_nothing B placeholder scriptEls linkEls temp st l :
  Dom.children temp = [] ->
  is_document_element placeholder (document st) = false ->
  Dom.siblings_after placeholder (document st) = Some l ->
  splice B placeholder (scriptEls, linkEls, temp) st =
  match Dom.first_element l with
  | Some next =>
      (inr tt,
       mkPage (Dom.prepend (Dom.ident next) linkEls
                 (Dom.prepend (Dom.ident next) scriptEls (document st)))
              (next_id st) (events st))
  | None => (inl null_prepend, mkPage (document st) (next_id st) (events st))
  end.
Proof.
  intros Hk Hroot Hl. unfold splice, bind, insertAdjacentHTML_afterend, bind, get_document.
  rewrite Hroot.
  rewrite bool_decide_eq_true_2 by exact (siblings_after_attached _ _ _ Hl).
  unfold Dom.innerHTML. rewrite Hk. simpl.
  unfold nextElementSibling, bind, get_document, set_document. simpl.
  rewrite insert_nothing, Hl. simpl.
  destruct (Dom.first_element l) as [next|]; reflexivity.
Qed.

(** The chain for a fetch that delivered a text with something in it. *)
Lemma settle_delivered B placeholder url r body st :
  ok r = true -> text r = inr body -> Text.truthy (Text.trim body) = true ->
  settle B placeholder url (Fulfilled r) st =
  match embedElement B placeholder body st with
  | (inr _, st') => (inr tt, mkPage (Dom.remove placeholder (document st')) (next_id st') (events st'))
  | (inl e, st') => (inr tt, after_events st' [ConsoleLog ("Error : " +:+ exn_string e)])
  end.
Proof.
  intros Hok Ht Hb. unfold settle, try_catch, bind. rewrite Hok, Ht. simpl. rewrite Hb.
  destruct (embedElement B placeholder body st) as [[e|[]] st']; reflexivity.
Qed.

Lemma step_hit i f c : Dom.is_node i c = true -> step i f c = f c.
Proof. intros H. unfold step. rewrite H. reflexivity. Qed.

Lemma step_miss i f c : Dom.is_node i c = false -> step i f c = [Dom.edit i f c].
Proof. intros H. unfold step. rewrite H. reflexivity. Qed.

(** An identity that is neither a child's nor below it. *)
Lemma absent_child e c :
  e ∉ (if Dom.is_element c then Dom.ident c :: Dom.ids c else []) ->
  Dom.is_node e c = false /\ e ∉ Dom.ids c.
Proof.
  destruct c as [s|j m t a k]; simpl.
  - intros _. split; [reflexivity|apply not_elem_of_nil].
  - intros [Hne Hin]%not_elem_of_cons. split; [|exact Hin].
    apply Nat.eqb_neq. congruence.
Qed.

(** An edit at an identity that does not occur changes nothing. *)
Lemma edit_absent i f n : i ∉ Dom.ids n -> Dom.edit i f n = n.
Proof.
  induction n as [s|j m t a k IH] using node_tree_ind; [reflexivity|].
  rewrite ids_Elem, edit_Elem. intros Hni. f_equal.
  induction IH as [|c k Hc _ IHk]; [reflexivity|].
  rewrite forest_ids_cons in Hni. apply not_elem_of_app in Hni as [Hc' Hk'].
  destruct (absent_child i c Hc') as [E Hin].
  simpl. rewrite (IHk Hk'). unfold step. rewrite E, (Hc Hin). reflexivity.
Qed.

Lemma edit_forest_absent i f k : i ∉ forest_ids k -> flat_map (step i f) k = k.
Proof.
  intros H.
  pose proof (edit_absent i f (Elem 0 ByParser EmptyString ∅ k)) as E.
  rewrite ids_Elem, edit_Elem in E. specialize (E H). congruence.
Qed.

(** An edit at a new identity [e] after an insertion at [i] works on the
    inserted nodes alone. *)
Lemma edit_after_insert e f i new n :
  e ∉ Dom.ids n ->
  Dom.edit e f (Dom.insert_after i new n) = Dom.insert_after i (flat_map (step e f) new) n.
Proof.
  unfold Dom.insert_after.
  induction n as [s|j m t a k IH] using node_tree_ind; [reflexivity|].
  rewrite ids_Elem, !edit_Elem. intros Hni. f_equal.
  induction IH as [|c k Hc _ IHk]; [reflexivity|].
  rewrite forest_ids_cons in Hni. apply not_elem_of_app in Hni as [Hc' Hk'].
  destruct (absent_child e c Hc') as [E Hin].
  simpl. rewrite flat_map_app, (IHk Hk'). f_equal.
  destruct (Dom.is_node i c) eqn:Ei.
  - rewrite !(step_hit i _ c Ei). simpl. f_equal.
    rewrite (step_miss e f c E), (edit_absent e f c Hin). reflexivity.
  - rewrite !(step_miss i _ c Ei). simpl. rewrite app_nil_r.
    rewrite step_miss by (rewrite is_node_edit; exact E).
    rewrite (Hc Hin). reflexivity.
Qed.

(** A removal at [i] after an insertion at [i] of nodes that do not carry
    [i] puts the inserted nodes in the place of [i]. *)
Lemma remove_after_insert i new n :
  i ∉ forest_ids new ->
  Dom.remove i (Dom.insert_after i new n) = Dom.edit i (fun _ => new) n.
Proof.
  unfold Dom.remove, Dom.insert_after. intros Hnew.
  induction n as [s|j m t a k IH] using node_tree_ind; [reflexivity|].
  rewrite !edit_Elem. f_equal.
  induction IH as [|c k Hc _ IHk]; [reflexivity|].
  simpl. rewrite flat_map_app, IHk. f_equal.
  destruct (Dom.is_node i c) eqn:E.
  - rewrite !(step_hit i _ c E). simpl. rewrite (step_hit i _ c E). simpl.
    apply edit_forest_absent, Hnew.
  - rewrite !(step_miss i _ c E). simpl. rewrite app_nil_r.
    rewrite step_miss by (rewrite is_node_edit; exact E).
    rewrite Hc. reflexivity.
Qed.

Lemma siblings_after_None i n : Dom.siblings_after i n = None -> i ∉ Dom.ids n.
Proof.
  induction n as [s|j m t a k IH] using node_tree_ind; simpl; [intros _; apply not_elem_of_nil|].
  rewrite ids_Elem.
  induction IH as [|c k Hc _ IHk]; [intros _; apply not_elem_of_nil|].
  rewrite forest_ids_cons.
  destruct (Dom.is_node i c) eqn:E; [discriminate|].
  destruct (Dom.siblings_after i c) as [r|] eqn:Er; [discriminate|].
  intros H. apply not_elem_of_app. split; [|exact (IHk H)].
  destruct (Dom.is_element c) eqn:Ec; [|apply not_elem_of_nil].
  apply not_elem_of_cons. split; [|exact (Hc eq_refl)].
  intros Heq. exact (is_node_false i c E Ec (eq_sym Heq)).
Qed.

(** After the insertion, the inserted nodes are the first siblings after
    the placeholder. *)
Lemma siblings_after_Elem i j m t a k :
  Dom.siblings_after i (Elem j m t a k) = scan i k.
Proof. reflexivity. Qed.

Lemma scan_cons i c l :
  scan i (c :: l) =
  if Dom.is_node i c then Some l
  else match Dom.siblings_after i c with
       | Some r => Some r
       | None => scan i l
       end.
Proof. reflexivity. Qed.

Lemma siblings_after_insert i new n l :
  Dom.siblings_after i n = Some l ->
  exists l', Dom.siblings_after i (Dom.insert_after i new n) = Some (new ++ l').
Proof.
  unfold Dom.insert_after. revert l.
  induction n as [s|j m t a k IH] using node_tree_ind; intros l; [discriminate|].
  rewrite edit_Elem, !siblings_after_Elem.
  induction IH as [|c k Hc _ IHk]; [discriminate|].
  rewrite scan_cons. cbn [flat_map].
  destruct (Dom.is_node i c) eqn:E.
  - intros _. rewrite (step_hit i _ c E). cbn [app]. rewrite scan_cons, E. eauto.
  - rewrite (step_miss i _ c E). cbn [app]. rewrite scan_cons, is_node_edit, E.
    destruct (Dom.siblings_after i c) as [r|] eqn:Er.
    + intros _. destruct (Hc r eq_refl) as [l' ->]. eauto.
    + intros H. rewrite (edit_absent i _ c (siblings_after_None i c Er)), Er.
      exact (IHk H).
Qed.

(* ===================================================================== *)
(** ** Lemmas: the identities of parsed nodes *)
(* ===================================================================== *)

Lemma thread_cons h l n :
  Dom.thread Dom.build (h :: l) n =
  ((Dom.build h n).1 :: (Dom.thread Dom.build l (Dom.build h n).2).1,
   (Dom.thread Dom.build l (Dom.build h n).2).2).
Proof.
  simpl. destruct (Dom.build h n) as [x n1]. simpl.
  destruct (Dom.thread Dom.build l n1) as [xs n2]. reflexivity.
Qed.

Lemma build_Elem t a k n :
  Dom.build (HElem t a k) n =
  (Elem n ByParser t a (Dom.thread Dom.build k (S n)).1, (Dom.thread Dom.build k (S n)).2).
Proof. simpl. destruct (Dom.thread Dom.build k (S n)) as [k' n']. reflexivity. Qed.

Lemma thread_range k :
  Forall (fun h => forall n, in_range h n) k ->
  forall n i, i ∈ forest_ids (Dom.thread Dom.build k n).1 ->
              n <= i < (Dom.thread Dom.build k n).2.
Proof.
  induction 1 as [|h k Hh _ IHk]; intros n i.
  - simpl. intros []%elem_of_nil.
  - rewrite thread_cons. cbn [fst snd]. rewrite forest_ids_cons.
    destruct (Hh n) as [Hbelow Hself].
    pose proof (build_grows h n) as G1.
    pose proof (build_all_grows k (Dom.build h n).2) as G2. unfold Dom.build_all in G2.
    intros [Hi|Hi]%elem_of_app.
    + destruct (Dom.is_element (Dom.build h n).1) eqn:E; [|apply elem_of_nil in Hi; contradiction].
      destruct (Hself eq_refl) as [Hid Hlt].
      apply elem_of_cons in Hi as [->|Hi]; [lia|].
      specialize (Hbelow i Hi). lia.
    + specialize (IHk _ _ Hi). lia.
Qed.

Lemma build_in_range h : forall n, in_range h n.
Proof.
  induction h as [s|t a k IH] using html_tree_ind; intros n; unfold in_range.
  - simpl. split; [intros i []%elem_of_nil|discriminate].
  - rewrite build_Elem. cbn [fst snd]. rewrite ids_Elem.
    pose proof (build_all_grows k (S n)) as G. unfold Dom.build_all in G.
    split.
    + intros i Hi. pose proof (thread_range k IH (S n) i Hi). lia.
    + intros _. simpl. split; [reflexivity|lia].
Qed.

Lemma build_all_range l n i :
  i ∈ forest_ids (Dom.build_all l n).1 -> n <= i < (Dom.build_all l n).2.
Proof.
  apply thread_range. apply Forall_forall. intros h _. apply build_in_range.
Qed.

(** Putting nodes in front of the children of the first element. *)
Lemma into_first_twice xs ys l :
  into_first ys (into_first xs l) = into_first (ys ++ xs) l.
Proof.
  induction l as [|c l IH]; [reflexivity|].
  destruct c as [s|j m t a k]; simpl.
  - rewrite IH. reflexivity.
  - rewrite app_assoc. reflexivity.
Qed.

Lemma first_element_into_first xs l :
  Dom.ident <$> Dom.first_element (into_first xs l) = Dom.ident <$> Dom.first_element l.
Proof.
  induction l as [|c l IH]; [reflexivity|].
  destruct c as [s|j m t a k]; simpl; [exact IH|reflexivity].
Qed.

Lemma first_element_app l l' x :
  Dom.first_element l = Some x -> Dom.first_element (l ++ l') = Some x.
Proof.
  unfold Dom.first_element. induction l as [|c l IH]; simpl; [discriminate|].
  destruct (Dom.is_element c); auto.
Qed.

(** [prepend] on the first element of [l], when its identity occurs
    nowhere after it, is [into_first]. *)
Lemma prepend_first xs e l :
  Dom.ident <$> Dom.first_element l = Some e ->
  lone_first e l ->
  flat_map (step e (with_front xs)) l = into_first xs l.
Proof.
  induction l as [|c l IH]; [discriminate|].
  destruct c as [s|j m t a k]; simpl.
  - intros H1 H2. rewrite (IH H1 H2). reflexivity.
  - intros [= ->] H2. rewrite (edit_forest_absent e _ l H2).
    unfold step. simpl. rewrite Nat.eqb_refl. reflexivity.
Qed.

Lemma lone_first_into_first xs e l : lone_first e l -> lone_first e (into_first xs l).
Proof.
  induction l as [|c l IH]; [auto|].
  destruct c as [s|j m t a k]; simpl; auto.
Qed.

Lemma lone_first_built markup : forall n e,
  Dom.ident <$> Dom.first_element (Dom.build_all markup n).1 = Some e ->
  lone_first e (Dom.build_all markup n).1 /\ n <= e.
Proof.
  unfold Dom.build_all.
  induction markup as [|h l IH]; intros n e; [discriminate|].
  rewrite thread_cons. cbn [fst].
  destruct h as [s|t a k].
  - simpl. exact (IH n e).
  - rewrite build_Elem. cbn [fst snd]. simpl. intros [= <-]. split; [|lia].
    intros Hin. apply (build_all_range l) in Hin.
    pose proof (build_all_grows k (S n)) as G. unfold Dom.build_all in *. lia.
Qed.

Lemma prepend_edit e nodes d : Dom.prepend e nodes d = Dom.edit e (with_front nodes) d.
Proof. reflexivity. Qed.

(** The second stage when the container has an element left at its top:
    the remaining markup goes in after the placeholder, and its first
    element gets the link clones and the script clones, in this order, in
    front of its children. *)
Lemma splice_element B placeholder scriptEls linkEls temp st l e :
  well_formed st ->
  is_document_element placeholder (document st) = false ->
  Dom.siblings_after placeholder (document st) = Some l ->
  Dom.ident <$> Dom.first_element
    (Dom.build_all (reread B (context placeholder (document st)) (Dom.innerHTML temp))
                   (next_id st)).1 = Some e ->
  splice B placeholder (scriptEls, linkEls, temp) st =
  (inr tt,
   mkPage (Dom.insert_after placeholder
             (into_first (linkEls ++ scriptEls)
                (Dom.build_all (reread B (context placeholder (document st))
                                       (Dom.innerHTML temp)) (next_id st)).1)
             (document st))
          (Dom.build_all (reread B (context placeholder (document st)) (Dom.innerHTML temp))
                         (next_id st)).2
          (events st)).
Proof.
  intros Hwf Hroot Hl He.
  destruct (lone_first_built _ _ _ He) as [Hlone Hge].
  assert (Hfresh : e ∉ Dom.ids (document st)).
  { intros Hin. specialize (Hwf e Hin). lia. }
  unfold splice, bind, insertAdjacentHTML_afterend, bind, get_document.
  rewrite Hroot.
  rewrite bool_decide_eq_true_2 by exact (siblings_after_attached _ _ _ Hl).
  unfold parse_nodes.
  destruct (Dom.build_all (reread B (context placeholder (document st)) (Dom.innerHTML temp))
                          (next_id st)) as [new n'] eqn:Eb.
  cbn [fst snd] in *.
  unfold set_document, nextElementSibling, bind, get_document. cbn [document next_id events].
  destruct (siblings_after_insert placeholder new (document st) l Hl) as [l' ->].
  assert (Hfirst : Dom.ident <$> Dom.first_element (new ++ l') = Some e).
  { destruct (Dom.first_element new) as [x|] eqn:Ex; [|discriminate].
    rewrite (first_element_app new l' x Ex). exact He. }
  unfold ret. rewrite Hfirst.
  unfold prepend, bind, get_document, set_document. cbn [document next_id events].
  rewrite !prepend_edit.
  rewrite (edit_after_insert e _ placeholder new (document st) Hfresh).
  rewrite (prepend_first scriptEls e new He Hlone).
  rewrite (edit_after_insert e _ placeholder _ (document st) Hfresh).
  rewrite (prepend_first linkEls e (into_first scriptEls new)).
  - rewrite into_first_twice. reflexivity.
  - rewrite first_element_into_first. exact He.
  - apply lone_first_into_first, Hlone.
Qed.

(* ===================================================================== *)
(** ** Lemmas: the markup that is left and the markup that is cloned *)
(* ===================================================================== *)

Lemma descendants_Elem j m t a k :
  Dom.descendants (Elem j m t a k) =
  flat_map (fun c => if Dom.is_element c then c :: Dom.descendants c else []) k.
Proof. reflexivity. Qed.

Lemma descendants_elements n : Forall (fun c => Dom.is_element c = true) (Dom.descendants n).
Proof.
  induction n as [s|j m t a k IH] using node_tree_ind; [constructor|].
  rewrite descendants_Elem.
  induction IH as [|c k Hc _ IHk]; [constructor|].
  simpl. apply Forall_app. split; [|exact IHk].
  destruct (Dom.is_element c) eqn:E; [|constructor].
  constructor; assumption.
Qed.

(** The removals of the loop, one identity at a time, come to one removal
    of all the identities. *)
Lemma remove_all_nil n : remove_all [] n = n.
Proof.
  induction n as [s|j m t a k IH] using node_tree_ind; [reflexivity|].
  simpl. f_equal.
  induction IH as [|c k Hc _ IHk]; [reflexivity|].
  simpl in *. rewrite IHk, Hc, andb_false_r. reflexivity.
Qed.

Lemma remove_all_remove ids i n :
  remove_all ids (Dom.remove i n) = remove_all (i :: ids) n.
Proof.
  unfold Dom.remove.
  induction n as [s|j m t a k IH] using node_tree_ind; [reflexivity|].
  rewrite edit_Elem. simpl. f_equal.
  induction IH as [|c k Hc _ IHk]; [reflexivity|].
  simpl. rewrite flat_map_app, IHk. f_equal.
  destruct (Dom.is_node i c) eqn:E.
  - rewrite (step_hit i _ c E). simpl.
    destruct (is_node_true i c E) as [-> <-].
    rewrite bool_decide_eq_true_2 by (apply elem_of_cons; auto). reflexivity.
  - rewrite (step_miss i _ c E). simpl. rewrite app_nil_r.
    rewrite is_element_edit, ident_edit, Hc.
    destruct (Dom.is_element c) eqn:Ec; [|reflexivity]. simpl.
    pose proof (is_node_false i c E Ec) as Hne.
    destruct (decide (Dom.ident c ∈ ids)) as [Hin|Hin].
    + rewrite !bool_decide_eq_true_2; [reflexivity| |exact Hin].
      apply elem_of_cons. auto.
    + rewrite !bool_decide_eq_false_2; [reflexivity| |exact Hin].
      intros [?|?]%elem_of_cons; contradiction.
Qed.

Lemma removals_remove_all selection : forall n,
  removals true selection n = remove_all (map Dom.ident selection) n.
Proof.
  induction selection as [|s rest IH]; intros n; simpl.
  - symmetry. apply remove_all_nil.
  - unfold removals in IH. rewrite IH. apply remove_all_remove.
Qed.

(** A removal by identities that are those of the elements named [tag] is
    the removal of the elements named [tag]. *)
Lemma remove_all_strip ids tag n :
  (forall c, c ∈ Dom.descendants n ->
     (Dom.ident c ∈ ids <-> Dom.tagName c = tag)) ->
  remove_all ids n = strip tag n.
Proof.
  induction n as [s|j m t a k IH] using node_tree_ind; [reflexivity|].
  rewrite descendants_Elem. intros H. simpl. f_equal.
  induction IH as [|c k Hc _ IHk]; [reflexivity|].
  simpl in H. simpl. rewrite IHk.
  2:{ intros x Hx. apply H. apply elem_of_app. auto. }
  f_equal.
  destruct (Dom.is_element c) eqn:Ec; simpl.
  - assert (Hself : Dom.ident c ∈ ids <-> Dom.tagName c = tag).
    { apply H. apply elem_of_app. left. apply elem_of_cons. auto. }
    rewrite Hc.
    2:{ intros x Hx. apply H. apply elem_of_app. left. apply elem_of_cons. auto. }
    destruct (String.eqb_spec (Dom.tagName c) tag) as [Ht|Ht].
    + rewrite bool_decide_eq_true_2 by (apply Hself; exact Ht). reflexivity.
    + rewrite bool_decide_eq_false_2; [reflexivity|].
      intros Hin. apply Ht, Hself, Hin.
  - destruct c; [reflexivity|discriminate].
Qed.

Lemma NoDup_map_same {A B} (f : A -> B) (l : list A) x y :
  NoDup (map f l) -> x ∈ l -> y ∈ l -> f x = f y -> x = y.
Proof.
  induction l as [|z l IH]; simpl; [intros _ []%elem_of_nil|].
  intros [Hz Hl]%NoDup_cons [->|Hx]%elem_of_cons [->|Hy]%elem_of_cons Hf; auto.
  - exfalso. apply Hz. rewrite Hf. apply list_elem_of_fmap. eauto.
  - exfalso. apply Hz. rewrite <- Hf. apply list_elem_of_fmap. eauto.
Qed.

(** With identities that are all different, [getClonedElements] with
    removal leaves the container without the elements of that name. *)
Lemma without_strip tag n : NoDup (Dom.ids n) -> without tag n = strip tag n.
Proof.
  intros Hnd. unfold without. rewrite removals_remove_all.
  apply remove_all_strip. intros c Hc. unfold Dom.querySelectorAll. split.
  - intros [c' [Hid Hc']]%list_elem_of_fmap.
    apply list_elem_of_In, filter_In in Hc' as [Hin Ht].
    apply list_elem_of_In in Hin.
    rewrite (NoDup_map_same Dom.ident (Dom.descendants n) c c' Hnd Hc Hin Hid).
    apply String.eqb_eq, Ht.
  - intros Ht. apply list_elem_of_fmap. exists c. split; [reflexivity|].
    apply list_elem_of_In, filter_In. split; [apply list_elem_of_In, Hc|].
    apply String.eqb_eq, Ht.
Qed.

Lemma innerHTML_strip tag n :
  Dom.innerHTML (strip tag n) = flat_map (Dom.cut tag) (Dom.innerHTML n).
Proof.
  induction n as [s|j m t a k IH] using node_tree_ind; [reflexivity|].
  unfold Dom.innerHTML. simpl.
  induction IH as [|c k Hc _ IHk]; [reflexivity|].
  simpl. rewrite map_app, IHk. f_equal.
  destruct c as [s|j' m' t' a' k']; [reflexivity|].
  simpl. destruct (String.eqb t' tag); [reflexivity|].
  simpl. unfold Dom.innerHTML in Hc. simpl in Hc. rewrite Hc. reflexivity.
Qed.

Lemma ids_strip_sublist tag n : Dom.ids (strip tag n) `sublist_of` Dom.ids n.
Proof.
  induction n as [s|j m t a k IH] using node_tree_ind; [reflexivity|].
  simpl strip. rewrite !ids_Elem.
  induction IH as [|c k Hc _ IHk]; [reflexivity|].
  cbn [flat_map]. rewrite forest_ids_app, forest_ids_cons. apply sublist_app; [|exact IHk].
  destruct c as [s|j' m' t' a' k']; [reflexivity|].
  cbn [Dom.is_element Dom.tagName andb Dom.ident].
  destruct (String.eqb t' tag).
  - apply sublist_nil_l.
  - rewrite forest_ids_cons. cbn [forest_ids flat_map]. rewrite app_nil_r.
    cbn [strip Dom.is_element Dom.ident]. apply sublist_skip, Hc.
Qed.

Lemma strip_NoDup tag n : NoDup (Dom.ids n) -> NoDup (Dom.ids (strip tag n)).
Proof. intros H. eapply sublist_NoDup; [exact H|apply ids_strip_sublist]. Qed.

(** The parser hands out identities that are all different. *)
Lemma thread_NoDup k :
  Forall (fun h => forall n, NoDup (Dom.ids (Dom.build h n).1)) k ->
  forall n, NoDup (forest_ids (Dom.thread Dom.build k n).1).
Proof.
  induction 1 as [|h k Hh _ IHk]; intros n; [constructor|].
  rewrite thread_cons. cbn [fst]. rewrite forest_ids_cons.
  pose proof (build_in_range h n) as [Hbelow Hself].
  pose proof (build_grows h n) as G.
  assert (Hlater : forall i, i ∈ forest_ids (Dom.thread Dom.build k (Dom.build h n).2).1 ->
                             (Dom.build h n).2 <= i).
  { intros i Hi. apply (build_all_range k) in Hi. lia. }
  apply NoDup_app. split; [|split; [|apply IHk]].
  - destruct (Dom.is_element (Dom.build h n).1) eqn:E; [|constructor].
    destruct (Hself eq_refl) as [Hid Hlt].
    apply NoDup_cons. split; [|apply Hh].
    intros Hin. specialize (Hbelow _ Hin). lia.
  - intros i Hi Hi'. specialize (Hlater i Hi').
    destruct (Dom.is_element (Dom.build h n).1) eqn:E; [|apply elem_of_nil in Hi; contradiction].
    destruct (Hself eq_refl) as [Hid Hlt].
    apply elem_of_cons in Hi as [->|Hi]; [lia|].
    specialize (Hbelow _ Hi). lia.
Qed.

Lemma build_NoDup h : forall n, NoDup (Dom.ids (Dom.build h n).1).
Proof.
  induction h as [s|t a k IH] using html_tree_ind; intros n; [constructor|].
  rewrite build_Elem. cbn [fst]. rewrite ids_Elem. apply thread_NoDup, IH.
Qed.

Lemma parsed_container_NoDup B sourceHTML st :
  NoDup (Dom.ids (parsed_container B sourceHTML st)).
Proof.
  unfold parsed_container. rewrite ids_Elem. apply thread_NoDup.
  apply Forall_forall. intros h _. apply build_NoDup.
Qed.

(** The markup of the selected elements. *)
Lemma querySelectorAll_markup tag n :
  map Dom.outerHTML (Dom.querySelectorAll n tag) = flat_map (Dom.named tag) (Dom.innerHTML n).
Proof.
  unfold Dom.querySelectorAll, Dom.innerHTML.
  induction n as [s|j m t a k IH] using node_tree_ind; [reflexivity|].
  rewrite descendants_Elem. simpl.
  induction IH as [|c k Hc _ IHk]; [reflexivity|].
  simpl. rewrite List.filter_app, map_app, IHk. f_equal.
  destruct c as [s|j' m' t' a' k']; [reflexivity|].
  simpl in Hc. simpl. rewrite <- Hc.
  destruct (String.eqb t' tag); reflexivity.
Qed.

Lemma clone_markup B selected element :
  Dom.is_element selected = true -> is_clone_of B selected element ->
  Dom.outerHTML element = recloned B (Dom.outerHTML selected).
Proof.
  intros Hs (Ht & Ha & Hk & Hm).
  destruct selected as [s|j m t a k]; [discriminate|].
  destruct element as [s'|j' m' t' a' k']; [discriminate|].
  unfold Dom.innerHTML in Hk. simpl in *. congruence.
Qed.

Lemma clones_markup B selection clones :
  Forall (fun c => Dom.is_element c = true) selection ->
  Forall2 (is_clone_of B) selection clones ->
  map Dom.outerHTML clones = map (recloned B) (map Dom.outerHTML selection).
Proof.
  intros Hel H. induction H as [|s c selection clones Hc _ IH]; [reflexivity|].
  apply Forall_cons in Hel as [Hs Hrest].
  simpl. rewrite (clone_markup B s c Hs Hc), (IH Hrest). reflexivity.
Qed.

Lemma accepted_outerHTML B c : accepted B (Dom.outerHTML c) = names_accepted B c.
Proof. destruct c as [s|j m t a k]; reflexivity. Qed.

Lemma names_accepted_markup B l :
  forallb (names_accepted B) l = forallb (accepted B) (map Dom.outerHTML l).
Proof.
  induction l as [|c l IH]; [reflexivity|].
  simpl. rewrite accepted_outerHTML, IH. reflexivity.
Qed.

Lemma querySelectorAll_elements n tag :
  Forall (fun c => Dom.is_element c = true) (Dom.querySelectorAll n tag).
Proof.
  unfold Dom.querySelectorAll. apply Forall_forall. intros c Hc.
  apply list_elem_of_In, filter_In in Hc as [Hin _].
  pose proof (descendants_elements n) as H. rewrite Forall_forall in H.
  apply H, list_elem_of_In, Hin.
Qed.

Lemma innerHTML_parsed_container B sourceHTML st :
  Dom.innerHTML (parsed_container B sourceHTML st) = parseHTML B sourceHTML.
Proof. unfold parsed_container, Dom.innerHTML. simpl. apply outerHTML_build_all. Qed.





(** When the attribute names of the scripts and links of the fetched
    markup are taken, so are those of the elements the two calls of the
    cloner select. *)
Lemma clonable_nodes B sourceHTML st :
  clonable B sourceHTML = true ->
  forallb (names_accepted B)
          (Dom.querySelectorAll (parsed_container B sourceHTML st) "script") = true /\
  forallb (names_accepted B)
          (Dom.querySelectorAll (without "script" (parsed_container B sourceHTML st)) "link")
    = true.
Proof.
  unfold clonable, script_markup, link_markup. rewrite forallb_app.
  intros [Hs Hl]%andb_prop.
  pose proof (parsed_container_NoDup B sourceHTML st) as Hnd.
  rewrite (without_strip "script" _ Hnd).
  rewrite !names_accepted_markup, !querySelectorAll_markup.
  rewrite innerHTML_strip, innerHTML_parsed_container. auto.
Qed.

(** The first stage, in terms of the fetched markup. *)
Lemma extract_markup B sourceHTML st :
  clonable B sourceHTML = true ->
  exists scriptEls linkEls temp st1,
    extract B sourceHTML st = (inr (scriptEls, linkEls, temp), st1) /\
    Dom.innerHTML temp = static_markup B sourceHTML /\
    map Dom.outerHTML scriptEls = map (recloned B) (script_markup B sourceHTML) /\
    map Dom.outerHTML linkEls = map (recloned B) (link_markup B sourceHTML) /\
    Forall (fun c => Dom.made_by c = Some ByCreateElement) (linkEls ++ scriptEls) /\
    document st1 = document st /\ events st1 = events st /\ next_id st < next_id st1.
Proof.
  intros Hc. destruct (clonable_nodes B sourceHTML st Hc) as [Hcs Hcl].
  destruct (extract_spec B sourceHTML st Hcs Hcl)
    as (scriptEls & linkEls & st1 & Hx & Hs & Hl & Hd & He & Hn).
  eexists scriptEls, linkEls, _, st1. split; [exact Hx|].
  unfold static_markup, script_markup, link_markup.
  pose proof (parsed_container_NoDup B sourceHTML st) as Hnd.
  rewrite (without_strip "script" _ Hnd) in *.
  rewrite (without_strip "link" _ (strip_NoDup "script" _ Hnd)).
  rewrite !innerHTML_strip, innerHTML_parsed_container.
  split; [reflexivity|]. split; [|split; [|split]].
  - rewrite (clones_markup B _ _ (querySelectorAll_elements _ _) Hs).
    rewrite querySelectorAll_markup, innerHTML_parsed_container. reflexivity.
  - rewrite (clones_markup B _ _ (querySelectorAll_elements _ _) Hl).
    rewrite querySelectorAll_markup, innerHTML_strip, innerHTML_parsed_container.
    reflexivity.
  - apply Forall_app. split.
    + clear -Hl. induction Hl as [|? ? ? ? (_ & _ & _ & Hm)]; constructor; auto.
    + clear -Hs. induction Hs as [|? ? ? ? (_ & _ & _ & Hm)]; constructor; auto.
  - auto.
Qed.

Lemma built_first_element markup : forall n,
  has_top_element markup = true ->
  exists e, Dom.ident <$> Dom.first_element (Dom.build_all markup n).1 = Some e.
Proof.
  unfold Dom.build_all.
  induction markup as [|h l IH]; intros n; simpl has_top_element; [discriminate|].
  rewrite thread_cons. cbn [fst].
  destruct h as [s|t a k].
  - simpl. intros H. exact (IH n H).
  - intros _. rewrite build_Elem. simpl. eauto.
Qed.

Lemma named_tag tag h x : x ∈ Dom.named tag h -> exists a k, x = HElem tag a k.
Proof.
  induction h as [s|t a k IH] using html_tree_ind; simpl.
  - intros []%elem_of_nil.
  - intros [Hx|Hx]%elem_of_app.
    + destruct (String.eqb_spec t tag) as [->|_]; [|apply elem_of_nil in Hx; contradiction].
      apply list_elem_of_singleton in Hx as ->. eauto.
    + apply list_elem_of_In, in_flat_map in Hx as [y [Hy Hx]].
      rewrite Forall_forall in IH.
      exact (IH y (proj2 (list_elem_of_In _ _) Hy) (proj2 (list_elem_of_In _ _) Hx)).
Qed.

Lemma clones_named B tag markup clones :
  map Dom.outerHTML clones = map (recloned B) (flat_map (Dom.named tag) markup) ->
  Forall (fun c => Dom.made_by c = Some ByCreateElement) clones ->
  Forall (new_element tag) clones.
Proof.
  intros Hm Hb. apply Forall_forall. intros c Hc.
  rewrite Forall_forall in Hb. specialize (Hb c Hc). split; [|exact Hb].
  assert (Hx : Dom.outerHTML c ∈ map (recloned B) (flat_map (Dom.named tag) markup)).
  { rewrite <- Hm. apply list_elem_of_fmap. eauto. }
  apply list_elem_of_fmap in Hx as (h & Hh & Hx).
  apply list_elem_of_In, in_flat_map in Hx as [y [_ Hx]].
  apply list_elem_of_In, named_tag in Hx as (a & k & ->).
  destruct c as [s|j m t a' k']; [discriminate|]. simpl in Hh. simpl. congruence.
Qed.

(** [embedElement] on a fetched markup whose scripts and links can be
    cloned and which, read again at the placeholder without them, has an
    element at its top. *)
Lemma embedElement_spec B placeholder sourceHTML st l :
  well_formed st ->
  is_document_element placeholder (document st) = false ->
  Dom.siblings_after placeholder (document st) = Some l ->
  clonable B sourceHTML = true ->
  has_top_element (inserted_markup B placeholder (document st) sourceHTML) = true ->
  exists scriptEls linkEls new n',
    embedElement B placeholder sourceHTML st
      = (inr tt,
         mkPage (Dom.insert_after placeholder (into_first (linkEls ++ scriptEls) new)
                                  (document st))
                n' (events st)) /\
    map Dom.outerHTML new = inserted_markup B placeholder (document st) sourceHTML /\
    is_Some (Dom.first_element new) /\
    map Dom.outerHTML scriptEls = map (recloned B) (script_markup B sourceHTML) /\
    map Dom.outerHTML linkEls = map (recloned B) (link_markup B sourceHTML) /\
    Forall (new_element "script") scriptEls /\
    Forall (new_element "link") linkEls.
Proof.
  intros Hwf Hroot Hl Hclone Htop.
  destruct (extract_markup B sourceHTML st Hclone)
    as (scriptEls & linkEls & temp & st1 & Hx & Hrest & Hs & Hk & Hnew & Hd & He & Hn).
  assert (Hwf1 : well_formed st1).
  { intros i Hi. rewrite Hd in Hi. specialize (Hwf i Hi). lia. }
  assert (Hl1 : Dom.siblings_after placeholder (document st1) = Some l) by (rewrite Hd; exact Hl).
  assert (Hroot1 : is_document_element placeholder (document st1) = false)
    by (rewrite Hd; exact Hroot).
  unfold inserted_markup in *. rewrite <- Hrest, <- Hd in *.
  set (markup := reread B (context placeholder (document st1)) (Dom.innerHTML temp)) in *.
  destruct (built_first_element markup (next_id st1) Htop) as [e Hfirst].
  exists scriptEls, linkEls, (Dom.build_all markup (next_id st1)).1,
         (Dom.build_all markup (next_id st1)).2.
  apply Forall_app in Hnew as [Hnl Hns].
  split; [|split; [|split; [|split; [|split; [|split]]]]].
  - rewrite embedElement_stages. unfold bind. rewrite Hx.
    rewrite (splice_element B placeholder scriptEls linkEls temp st1 l e Hwf1 Hroot1 Hl1 Hfirst).
    rewrite He. reflexivity.
  - apply outerHTML_build_all.
  - destruct (Dom.first_element _); [eauto|discriminate].
  - exact Hs.
  - exact Hk.
  - exact (clones_named B "script" _ _ Hs Hns).
  - exact (clones_named B "link" _ _ Hk Hnl).
Qed.

Lemma into_first_split xs l :
  is_Some (Dom.first_element l) ->
  exists pre j m t a k post,
    l = pre ++ Elem j m t a k :: post /\
    Forall (fun c => Dom.is_element c = false) pre /\
    into_first xs l = pre ++ Elem j m t a (xs ++ k) :: post.
Proof.
  induction l as [|c l IH]; [intros [x Hx]; discriminate|].
  destruct c as [s|j m t a k].
  - intros H. destruct (IH H) as (pre & j & m & t & a & k & post & -> & Hpre & Hinto).
    exists (Text s :: pre), j, m, t, a, k, post. simpl. rewrite Hinto.
    split; [reflexivity|]. split; [constructor; [reflexivity|exact Hpre]|reflexivity].
  - intros _. exists [], j, m, t, a, k, l. simpl. split; [reflexivity|].
    split; [constructor|reflexivity].
Qed.

Lemma well_formed_check st :
  forallb (fun i => Nat.ltb i (next_id st)) (Dom.ids (document st)) = true ->
  well_formed st.
Proof.
  intros H i Hi. rewrite forallb_forall in H.
  apply Nat.ltb_lt, H, list_elem_of_In, Hi.
Qed.


(* ===================================================================== *)
(** ** Lemmas: host names and bases of the URL constructor *)
(* ===================================================================== *)

Lemma all_span_fst p s : Text.all p (Text.span p s).1 = true.
Proof.
  induction s as [|c s IH]; simpl; [reflexivity|].
  destruct (p c) eqn:E; [|reflexivity].
  destruct (Text.span p s) as [a b]. simpl in *. rewrite E, IH. reflexivity.
Qed.

Lemma all_span_snd q p s : Text.all q s = true -> Text.all q (Text.span p s).2 = true.
Proof.
  induction s as [|c s IH]; simpl; [reflexivity|].
  intros [Hc Hs]%andb_prop. destruct (p c).
  - destruct (Text.span p s) as [a b]. simpl in *. exact (IH Hs).
  - simpl. rewrite Hc, Hs. reflexivity.
Qed.

Lemma all_keep q p s : Text.all q s = true -> Text.all q (Text.keep p s) = true.
Proof.
  induction s as [|c s IH]; simpl; [reflexivity|].
  intros [Hc Hs]%andb_prop. destruct (p c); simpl; [rewrite Hc|]; auto.
Qed.

Lemma all_strip_start q p s :
  Text.all q s = true -> Text.all q (Whatwg.strip_start p s) = true.
Proof.
  induction s as [|c s IH]; simpl; [reflexivity|].
  intros [Hc Hs]%andb_prop. destruct (p c); simpl; [|rewrite Hc, Hs]; auto.
Qed.

Lemma all_strip_end q p s :
  Text.all q s = true -> Text.all q (Whatwg.strip_end p s) = true.
Proof.
  induction s as [|c s IH]; simpl; [reflexivity|].
  intros [Hc Hs]%andb_prop. specialize (IH Hs).
  destruct (Whatwg.strip_end p s) as [|d t].
  - destruct (p c); simpl; [|rewrite Hc]; reflexivity.
  - simpl in *. rewrite Hc. exact IH.
Qed.

Lemma colon_free_clean s : colon_free s = true -> colon_free (Whatwg.clean s) = true.
Proof.
  intros H. unfold colon_free, Whatwg.clean.
  apply all_keep, all_strip_end, all_strip_start, H.
Qed.

(** A text that has a scheme has a colon. *)
Lemma scheme_of_colon s : colon_free s = true -> Whatwg.scheme_of s = None.
Proof.
  unfold colon_free, Whatwg.scheme_of. destruct s as [|c s]; [reflexivity|].
  simpl. intros [_ Hs]%andb_prop.
  destruct (Text.is_alpha c); [|reflexivity].
  pose proof (all_span_snd _ Whatwg.is_scheme_char s Hs) as H.
  destruct (Text.span Whatwg.is_scheme_char s) as [a b]. simpl in H.
  destruct b as [|d b]; [reflexivity|].
  simpl in H. apply andb_prop in H as [Hd _].
  destruct (Ascii.eqb_spec d ":") as [->|Hne]; [discriminate Hd|].
  destruct d as [[] [] [] [] [] [] [] []]; try reflexivity. contradiction.
Qed.

Lemma lower_colon c : Ascii.eqb c ":" = false -> Ascii.eqb (Text.lower c) ":" = false.
Proof. destruct c as [[] [] [] [] [] [] [] []]; vm_compute; auto. Qed.

Lemma colon_free_toLowerCase s : colon_free s = true -> colon_free (Text.toLowerCase s) = true.
Proof.
  unfold colon_free. induction s as [|c s IH]; simpl; [reflexivity|].
  intros [Hc Hs]%andb_prop. rewrite (IH Hs), andb_true_r.
  apply negb_true_iff in Hc. rewrite (lower_colon c Hc). reflexivity.
Qed.

(** A host name has no colon. *)
Lemma authority_hostname scheme s u :
  Whatwg.authority scheme s = Some u -> colon_free (hostname u) = true.
Proof.
  unfold Whatwg.authority.
  destruct (Text.span _ s) as [auth rest].
  pose proof (all_span_fst (fun c => negb (Ascii.eqb c ":")) (Text.after_last "@" auth)) as Hh.
  destruct (Text.span _ (Text.after_last "@" auth)) as [h p]. simpl in Hh.
  repeat match goal with |- context [ if ?b then _ else _ ] =>
    destruct b; try discriminate end;
  intros [= <-]; simpl; try exact Hh; apply colon_free_toLowerCase, Hh.
Qed.

Lemma after_scheme_hostname scheme rest u :
  Whatwg.after_scheme scheme rest = Some u -> colon_free (hostname u) = true.
Proof.
  unfold Whatwg.after_scheme. destruct (Whatwg.special scheme).
  - apply authority_hostname.
  - destruct rest as [|c1 rest]; [intros [= <-]; reflexivity|].
    destruct c1 as [[] [] [] [] [] [] [] []]; try (intros [= <-]; reflexivity).
    destruct rest as [|c2 rest]; [intros [= <-]; reflexivity|].
    destruct c2 as [[] [] [] [] [] [] [] []]; try (intros [= <-]; reflexivity).
    apply authority_hostname.
Qed.

Lemma relative_hostname url bscheme brest b u :
  colon_free (hostname b) = true ->
  Whatwg.relative url bscheme brest b = Some u -> colon_free (hostname u) = true.
Proof.
  intros Hb. unfold Whatwg.relative.
  assert (Hsome : Some b = Some u -> colon_free (hostname u) = true) by (intros [= <-]; exact Hb).
  assert (Hrest : (if Whatwg.opaque_path bscheme brest then None
                   else match url with
                        | String c1 (String c2 s) =>
                            if Whatwg.is_slash (Whatwg.special bscheme) c1 &&
                               Whatwg.is_slash (Whatwg.special bscheme) c2
                            then Whatwg.authority bscheme
                                   (if Whatwg.special bscheme
                                    then Whatwg.strip_start (Whatwg.is_slash true) s else s)
                            else Some b
                        | _ => Some b
                        end) = Some u -> colon_free (hostname u) = true).
  { destruct (Whatwg.opaque_path bscheme brest); [discriminate|].
    destruct url as [|c1 [|c2 s]]; try exact Hsome.
    destruct (_ && _); [apply authority_hostname|exact Hsome]. }
  destruct url as [|c s]; [exact Hrest|].
  destruct (Ascii.eqb_spec c "#") as [->|Hne]; [exact Hsome|].
  destruct c as [[] [] [] [] [] [] [] []]; try exact Hrest. contradiction.
Qed.

(** What the constructor returns has a host name without colon, and it
    returns for a base with a colon only: the host name it returns is
    never the base it was given. *)
Lemma construct_hostname_not_base url base u :
  Whatwg.construct url base = Some u -> hostname u <> base.
Proof.
  unfold Whatwg.construct. intros H Heq.
  assert (Hfree : colon_free (hostname u) = true).
  { destruct (Whatwg.scheme_of (Whatwg.clean base)) as [[bscheme brest]|]; [|discriminate].
    destruct (Whatwg.after_scheme bscheme brest) as [b|] eqn:Eb; [|discriminate].
    destruct (Whatwg.scheme_of (Whatwg.clean url)) as [[scheme rest]|].
    - exact (after_scheme_hostname _ _ _ H).
    - exact (relative_hostname _ _ _ _ _ (after_scheme_hostname _ _ _ Eb) H). }
  rewrite Heq in Hfree.
  rewrite (scheme_of_colon _ (colon_free_clean _ Hfree)) in H. discriminate.
Qed.




(** Two calls of [prepend] on the same element put the nodes of the
    second call in front of those of the first. *)
Lemma prepend_twice e xs ys d :
  Dom.prepend e ys (Dom.prepend e xs d) = Dom.edit e (with_front (ys ++ xs)) d.
Proof.
  rewrite !prepend_edit.
  induction d as [s|j m t a k IH] using node_tree_ind; [reflexivity|].
  rewrite !edit_Elem. f_equal.
  induction IH as [|c k Hc _ IHk]; [reflexivity|].
  cbn [flat_map]. rewrite flat_map_app, IHk. f_equal.
  destruct (Dom.is_node e c) eqn:E.
  - rewrite !(step_hit e _ c E).
    destruct c as [s|j' m' t' a' k']; [discriminate E|].
    cbn [with_front flat_map]. rewrite (step_hit e); [|exact E].
    cbn [with_front app]. rewrite app_assoc. reflexivity.
  - rewrite !(step_miss e _ c E). cbn [flat_map]. rewrite app_nil_r.
    rewrite step_miss by (rewrite is_node_edit; exact E).
    rewrite Hc. reflexivity.
Qed.

(** The siblings after an element of [n], with all that is below them,
    are among the nodes of [n], in the same order. *)
Lemma siblings_after_sublist i n l :
  Dom.siblings_after i n = Some l -> forest_ids l `sublist_of` Dom.ids n.
Proof.
  revert l. induction n as [s|j m t a k IH] using node_tree_ind; intros l; [discriminate|].
  rewrite siblings_after_Elem, ids_Elem.
  induction IH as [|c k Hc _ IHk]; [discriminate|].
  rewrite scan_cons, forest_ids_cons.
  destruct (Dom.is_node i c) eqn:E.
  - intros [= <-]. apply sublist_inserts_l. reflexivity.
  - destruct (Dom.siblings_after i c) as [r|] eqn:Er.
    + intros [= <-]. destruct c as [s|j' m' t' a' k']; [discriminate Er|].
      cbn [Dom.is_element]. apply sublist_inserts_r, sublist_cons_r. left.
      exact (Hc r eq_refl).
    + intros H. apply sublist_inserts_l. exact (IHk H).
Qed.

(** In a document whose nodes are distinct, an edit at an identity that
    occurs among the siblings after [i], or below them, leaves [i] where
    it is and works on those siblings. *)
Lemma siblings_after_edit e f i n l :
  NoDup (Dom.ids n) ->
  Dom.siblings_after i n = Some l ->
  e ∈ forest_ids l ->
  Dom.siblings_after i (Dom.edit e f n) = Some (flat_map (step e f) l).
Proof.
  revert l. induction n as [s|j m t a k IH] using node_tree_ind; intros l; [discriminate|].
  rewrite edit_Elem, !siblings_after_Elem, ids_Elem.
  induction IH as [|c k Hc _ IHk]; [discriminate|].
  rewrite scan_cons, forest_ids_cons. intros Hnd H He.
  apply NoDup_app in Hnd as (Hndc & Hdisj & Hndk).
  cbn [flat_map].
  destruct (Dom.is_node i c) eqn:E.
  - injection H as <-.
    assert (Hout : e ∉ (if Dom.is_element c then Dom.ident c :: Dom.ids c else []))
      by (intros Hin; exact (Hdisj e Hin He)).
    destruct (absent_child e c Hout) as [Ee Hin].
    rewrite (step_miss e f c Ee), (edit_absent e f c Hin). cbn [app].
    rewrite scan_cons, E. reflexivity.
  - destruct (Dom.siblings_after i c) as [r|] eqn:Er.
    + injection H as <-.
      destruct c as [s|j' m' t' a' k']; [discriminate Er|].
      cbn [Dom.is_element] in Hndc. apply NoDup_cons in Hndc as [Hj Hndc].
      assert (Hin : e ∈ Dom.ids (Elem j' m' t' a' k'))
        by (exact (elem_of_sublist _ _ _ He (siblings_after_sublist _ _ _ Er))).
      assert (Ee : Dom.is_node e (Elem j' m' t' a' k') = false).
      { apply Nat.eqb_neq. intros <-. exact (Hj Hin). }
      rewrite (step_miss e f _ Ee). cbn [app].
      rewrite scan_cons, is_node_edit, E, (Hc r Hndc eq_refl He). reflexivity.
    + assert (Hin : e ∈ forest_ids k).
      { pose proof (siblings_after_sublist i (Elem 0 ByParser EmptyString ∅ k) l H) as Hs.
        rewrite ids_Elem in Hs. exact (elem_of_sublist _ _ _ He Hs). }
      assert (Hout : e ∉ (if Dom.is_element c then Dom.ident c :: Dom.ids c else []))
        by (intros Hc'; exact (Hdisj e Hc' Hin)).
      destruct (absent_child e c Hout) as [Ee Hnc].
      rewrite (step_miss e f c Ee), (edit_absent e f c Hnc). cbn [app].
      rewrite scan_cons, E, Er. exact (IHk Hndk H He).
Qed.

(** A list with a first element is text, that element, and a rest. *)
Lemma first_element_split l next :
  Dom.first_element l = Some next ->
  exists pre j m t a k post,
    l = pre ++ Elem j m t a k :: post /\ next = Elem j m t a k /\
    Forall (fun c => Dom.is_element c = false) pre.
Proof.
  unfold Dom.first_element.
  induction l as [|c l IH]; [discriminate|]. simpl.
  destruct (Dom.is_element c) eqn:E.
  - intros [= <-]. destruct c as [s|j m t a k]; [discriminate E|].
    exists [], j, m, t, a, k, l. auto.
  - intros H. destruct (IH H) as (pre & j & m & t & a & k & post & -> & -> & Hpre).
    exists (c :: pre), j, m, t, a, k, post. auto.
Qed.

Lemma forest_ids_text_only pre :
  Forall (fun c => Dom.is_element c = false) pre -> forest_ids pre = [].
Proof.
  induction 1 as [|c pre Hc _ IH]; [reflexivity|].
  rewrite forest_ids_cons, Hc, IH. reflexivity.
Qed.

(** In a document whose nodes are distinct, [prepend] on the first
    element after [i] puts the nodes in front of the children of that
    element and leaves the other siblings as they are. *)
Lemma siblings_after_prepend i n pre j m t a k post xs :
  NoDup (Dom.ids n) ->
  Dom.siblings_after i n = Some (pre ++ Elem j m t a k :: post) ->
  Forall (fun c => Dom.is_element c = false) pre ->
  Dom.siblings_after i (Dom.edit j (with_front xs) n)
    = Some (pre ++ Elem j m t a (xs ++ k) :: post).
Proof.
  intros Hnd Hl Hpre.
  pose proof (sublist_NoDup _ _ Hnd (siblings_after_sublist i n _ Hl)) as Hndl.
  rewrite forest_ids_app, forest_ids_cons, (forest_ids_text_only pre Hpre) in Hndl.
  cbn [app Dom.is_element Dom.ident] in Hndl.
  apply NoDup_cons in Hndl as [Hj _].
  rewrite (siblings_after_edit j (with_front xs) i n _ Hnd Hl).
  - rewrite flat_map_app. cbn [flat_map].
    rewrite (edit_forest_absent j _ pre)
      by (rewrite (forest_ids_text_only pre Hpre); apply not_elem_of_nil).
    rewrite (edit_forest_absent j _ post)
      by (intros Hin; apply Hj, elem_of_app; right; exact Hin).
    rewrite step_hit by (simpl; apply Nat.eqb_refl). reflexivity.
  - rewrite forest_ids_app, forest_ids_cons. apply elem_of_app. right.
    cbn [Dom.is_element Dom.ident]. apply elem_of_app. left. apply elem_of_cons. auto.
Qed.

(* ===================================================================== *)
(** ** Lemmas: the identities of the clones *)
(* ===================================================================== *)

Lemma clone_fresh B selected st element st' :
  can_clone B selected = true ->
  clone B selected st = (inr element, st') ->
  forall i, i ∈ forest_ids [element] -> next_id st <= i.
Proof.
  intros [Htag Hnames]%andb_prop.
  unfold clone, bind. rewrite createElement_plain_or by exact Htag.
  rewrite (copy_each_spec B selected _ _ _ Hnames), setAttribute_loop.
  unfold set_innerHTML, bind, parse_nodes. cbn [next_id document events Dom.tagName].
  set (markup := reread B (Dom.tagName selected) (Dom.innerHTML selected)).
  pose proof (build_all_range markup (S (next_id st))) as Hr.
  destruct (Dom.build_all markup (S (next_id st))) as [nodes n] eqn:Eb.
  cbn [fst snd] in Hr. unfold ret. intros [= <- <-] i.
  rewrite forest_ids_cons. cbn [Dom.is_element Dom.ident forest_ids flat_map].
  rewrite app_nil_r, ids_Elem.
  intros [->|Hi]%elem_of_cons; [lia|]. specialize (Hr i Hi). lia.
Qed.

Lemma clone_each_fresh B lo selection remove :
  forall elements container st clones container' st',
  forallb (can_clone B) selection = true ->
  clone_each B selection remove elements container st = (inr (clones, container'), st') ->
  lo <= next_id st ->
  (forall i, i ∈ forest_ids elements -> lo <= i) ->
  forall i, i ∈ forest_ids clones -> lo <= i.
Proof.
  induction selection as [|selected rest IH];
    intros elements container st clones container' st' Hall.
  - simpl. unfold ret. intros [= <- <- <-] _ H. exact H.
  - cbn [forallb] in Hall. apply andb_prop in Hall as [Hsel Hall].
    simpl. unfold bind.
    destruct (clone_spec B selected st Hsel) as (element & st1 & Hc & _ & _ & _ & _ & Hn).
    rewrite Hc. intros Hrest Hlo Hel.
    apply (IH _ _ _ _ _ _ Hall Hrest); [lia|].
    intros i. rewrite forest_ids_app. intros [Hi|Hi]%elem_of_app; [exact (Hel i Hi)|].
    pose proof (clone_fresh B selected st element st1 Hsel Hc i Hi). lia.
Qed.

Lemma getClonedElements_fresh B container selector remove st clones container' st' :
  Text.plain_name selector = true ->
  forallb (names_accepted B) (Dom.querySelectorAll container selector) = true ->
  getClonedElements B container selector remove st = (inr (clones, container'), st') ->
  forall i, i ∈ forest_ids clones -> next_id st <= i.
Proof.
  intros Hsel Hnames.
  unfold getClonedElements, querySelectorAll, bind. rewrite Hsel. unfold ret. intros H.
  apply (clone_each_fresh B (next_id st) _ _ _ _ _ _ _ _
           (selected_can_clone B container selector Hsel Hnames) H); [lia|].
  intros i []%elem_of_nil.
Qed.

Lemma extract_fresh B sourceHTML st scriptEls linkEls temp st1 :
  clonable B sourceHTML = true ->
  extract B sourceHTML st = (inr (scriptEls, linkEls, temp), st1) ->
  forall i, i ∈ forest_ids (linkEls ++ scriptEls) -> next_id st <= i.
Proof.
  intros Hclone. destruct (clonable_nodes B sourceHTML st Hclone) as [Hcs Hcl].
  unfold extract, bind. rewrite (createElement_plain B "div" st eq_refl).
  unfold set_innerHTML, bind.
  set (st0 := mkPage (document st) (S (next_id st)) (events st)).
  destruct (parse_nodes_spec (parseHTML B sourceHTML) st0)
    as (nodes & st2 & -> & Hb & _ & _ & Hn2).
  cbn [ret].
  assert (Ht : Elem (next_id st) ByCreateElement "div" ∅ nodes = parsed_container B sourceHTML st).
  { unfold parsed_container. simpl in Hb. rewrite <- Hb. reflexivity. }
  rewrite Ht.
  destruct (getClonedElements_spec B (parsed_container B sourceHTML st) "script" true st2
              eq_refl Hcs) as (s & st3 & Es & _ & _ & _ & Hn3).
  rewrite Es. fold (without "script" (parsed_container B sourceHTML st)).
  destruct (getClonedElements_spec B (without "script" (parsed_container B sourceHTML st))
              "link" true st3 eq_refl Hcl) as (k & st4 & Ek & _).
  rewrite Ek.
  unfold ret. intros [= <- <- <- <-] i. rewrite forest_ids_app.
  simpl in Hn2.
  intros [Hi|Hi]%elem_of_app.
  - pose proof (getClonedElements_fresh B _ "link" _ _ _ _ _ eq_refl Hcl Ek i Hi). lia.
  - pose proof (getClonedElements_fresh B _ "script" _ _ _ _ _ eq_refl Hcs Es i Hi). lia.
Qed.

Lemma forest_ids_into_first xs l i :
  i ∈ forest_ids (into_first xs l) -> i ∈ forest_ids xs \/ i ∈ forest_ids l.
Proof.
  induction l as [|c l IH]; [intros []%elem_of_nil|].
  destruct c as [s|j m t a k].
  - cbn [into_first Dom.is_element]. rewrite !forest_ids_cons. cbn [Dom.is_element app].
    exact IH.
  - cbn [into_first Dom.is_element with_front app]. rewrite !forest_ids_cons.
    cbn [Dom.is_element Dom.ident]. rewrite !ids_Elem, forest_ids_app.
    intros [->|[[Hi|Hi]%elem_of_app|Hi]%elem_of_app]%elem_of_cons.
    + right. apply elem_of_cons. auto.
    + auto.
    + right. apply elem_of_cons. right. apply elem_of_app. auto.
    + right. apply elem_of_cons. right. apply elem_of_app. auto.
Qed.

Lemma into_first_nothing l : into_first [] l = l.
Proof.
  induction l as [|c l IH]; [reflexivity|].
  destruct c as [s|j m t a k]; simpl; [rewrite IH|]; reflexivity.
Qed.

(* ===================================================================== *)
(** ** Lemmas: after the insertion *)
(* ===================================================================== *)

(** The siblings after the placeholder once [new] is in: [new], then the
    former siblings. *)
Lemma siblings_after_insert_exact i new n l :
  Dom.siblings_after i n = Some l ->
  Dom.siblings_after i (Dom.insert_after i new n)
  = Some (new ++ flat_map (step i (fun p => p :: new)) l).
Proof.
  unfold Dom.insert_after. revert l.
  induction n as [s|j m t a k IH] using node_tree_ind; intros l; [discriminate|].
  rewrite edit_Elem, !siblings_after_Elem.
  induction IH as [|c k Hc _ IHk]; [discriminate|].
  rewrite scan_cons. cbn [flat_map].
  destruct (Dom.is_node i c) eqn:E.
  - intros [= <-]. rewrite (step_hit i _ c E). cbn [app]. rewrite scan_cons, E. reflexivity.
  - rewrite (step_miss i _ c E). cbn [app]. rewrite scan_cons, is_node_edit, E.
    destruct (Dom.siblings_after i c) as [r|] eqn:Er.
    + intros [= <-]. rewrite (Hc r eq_refl). reflexivity.
    + intros H. rewrite (edit_absent i _ c (siblings_after_None i c Er)), Er.
      exact (IHk H).
Qed.

Lemma step_text_only i f l : text_only l -> flat_map (step i f) l = l.
Proof.
  induction 1 as [|c l Hc _ IH]; [reflexivity|].
  simpl. rewrite IH. destruct c; [reflexivity|discriminate].
Qed.

Lemma first_element_text_only l : text_only l -> Dom.first_element l = None.
Proof.
  unfold Dom.first_element. induction 1 as [|c l Hc _ IH]; [reflexivity|].
  simpl. rewrite Hc. exact IH.
Qed.

Lemma built_text_only markup : forall n,
  has_top_element markup = false -> text_only (Dom.build_all markup n).1.
Proof.
  unfold Dom.build_all.
  induction markup as [|h l IH]; intros n; [constructor|].
  rewrite thread_cons. cbn [fst]. destruct h as [s|t a k]; [|discriminate].
  simpl. intros H. constructor; [reflexivity|exact (IH n H)].
Qed.

(** The second stage when the container has text at most: the text goes
    in after the placeholder, and [prepend] is called on null unless an
    element follows. *)
Lemma splice_text B placeholder scriptEls linkEls temp st l :
  is_document_element placeholder (document st) = false ->
  Dom.siblings_after placeholder (document st) = Some l ->
  text_only (Dom.build_all (reread B (context placeholder (document st)) (Dom.innerHTML temp))
                           (next_id st)).1 ->
  text_only l ->
  splice B placeholder (scriptEls, linkEls, temp) st =
  (inl null_prepend,
   mkPage (Dom.insert_after placeholder
             (Dom.build_all (reread B (context placeholder (document st)) (Dom.innerHTML temp))
                            (next_id st)).1
             (document st))
          (Dom.build_all (reread B (context placeholder (document st)) (Dom.innerHTML temp))
                         (next_id st)).2 (events st)).
Proof.
  intros Hroot Hl Hnew Htext.
  unfold splice, bind, insertAdjacentHTML_afterend, bind, get_document.
  rewrite Hroot.
  rewrite bool_decide_eq_true_2 by exact (siblings_after_attached _ _ _ Hl).
  unfold parse_nodes.
  destruct (Dom.build_all (reread B (context placeholder (document st)) (Dom.innerHTML temp))
                          (next_id st)) as [new n'].
  cbn [fst snd] in *.
  unfold set_document, nextElementSibling, bind, get_document. cbn [document next_id events].
  rewrite (siblings_after_insert_exact placeholder new (document st) l Hl).
  rewrite (step_text_only _ _ l Htext).
  unfold ret. rewrite first_element_text_only; [reflexivity|].
  apply Forall_app. split; assumption.
Qed.

(* ===================================================================== *)
(** ** Lemmas: markup without scripts and links *)
(* ===================================================================== *)

Lemma cut_free_same tag h : Dom.free_of tag h = true -> Dom.cut tag h = [h].
Proof.
  induction h as [s|t a k IH] using html_tree_ind; simpl; [reflexivity|].
  intros [Ht Hk]%andb_prop. apply negb_true_iff in Ht. rewrite Ht. do 2 f_equal.
  rewrite forallb_forall in Hk.
  induction IH as [|x k Hx _ IHk]; [reflexivity|].
  simpl. rewrite (Hx (Hk x (or_introl eq_refl))). simpl. f_equal.
  apply IHk. intros y Hy. apply Hk. right. exact Hy.
Qed.

Lemma cut_all_free_same tag l :
  Forall (fun h => Dom.free_of tag h = true) l -> flat_map (Dom.cut tag) l = l.
Proof.
  induction 1 as [|h l Hh _ IH]; [reflexivity|].
  simpl. rewrite (cut_free_same tag h Hh), IH. reflexivity.
Qed.

Lemma named_free_nil tag h : Dom.free_of tag h = true -> Dom.named tag h = [].
Proof.
  induction h as [s|t a k IH] using html_tree_ind; simpl; [reflexivity|].
  intros [Ht Hk]%andb_prop. apply negb_true_iff in Ht. rewrite Ht. simpl.
  rewrite forallb_forall in Hk.
  induction IH as [|x k Hx _ IHk]; [reflexivity|].
  simpl. rewrite (Hx (Hk x (or_introl eq_refl))). simpl.
  apply IHk. intros y Hy. apply Hk. right. exact Hy.
Qed.

Lemma named_all_free_nil tag l :
  Forall (fun h => Dom.free_of tag h = true) l -> flat_map (Dom.named tag) l = [].
Proof.
  induction 1 as [|h l Hh _ IH]; [reflexivity|].
  simpl. rewrite (named_free_nil tag h Hh), IH. reflexivity.
Qed.

Lemma plain_markup_kept B sourceHTML :
  plain_markup (parseHTML B sourceHTML) ->
  static_markup B sourceHTML = parseHTML B sourceHTML /\
  script_markup B sourceHTML = [] /\ link_markup B sourceHTML = [].
Proof.
  intros [Hs Hl]. unfold static_markup, script_markup, link_markup.
  rewrite (cut_all_free_same "script" _ Hs), (cut_all_free_same "link" _ Hl).
  rewrite (named_all_free_nil "script" _ Hs), (named_all_free_nil "link" _ Hl). auto.
Qed.

(* ===================================================================== *)
(** ** Lemmas: the chain that embeds *)
(* ===================================================================== *)

(** [embedElement] as in [embedElement_spec], with the identities of what
    comes in: none of them was in use before. *)
Lemma embedElement_fresh B placeholder sourceHTML st l :
  well_formed st ->
  is_document_element placeholder (document st) = false ->
  Dom.siblings_after placeholder (document st) = Some l ->
  clonable B sourceHTML = true ->
  has_top_element (inserted_markup B placeholder (document st) sourceHTML) = true ->
  exists scriptEls linkEls new n',
    embedElement B placeholder sourceHTML st
      = (inr tt,
         mkPage (Dom.insert_after placeholder (into_first (linkEls ++ scriptEls) new)
                                  (document st))
                n' (events st)) /\
    map Dom.outerHTML new = inserted_markup B placeholder (document st) sourceHTML /\
    map Dom.outerHTML scriptEls = map (recloned B) (script_markup B sourceHTML) /\
    map Dom.outerHTML linkEls = map (recloned B) (link_markup B sourceHTML) /\
    Forall (new_element "script") scriptEls /\
    Forall (new_element "link") linkEls /\
    forall i, i ∈ forest_ids (into_first (linkEls ++ scriptEls) new) -> next_id st <= i.
Proof.
  intros Hwf Hroot Hl Hclone Htop.
  destruct (extract_markup B sourceHTML st Hclone)
    as (scriptEls & linkEls & temp & st1 & Hx & Hrest & Hs & Hk & Hnew & Hd & He & Hn).
  pose proof (extract_fresh B sourceHTML st _ _ _ _ Hclone Hx) as Hfresh.
  assert (Hwf1 : well_formed st1).
  { intros i Hi. rewrite Hd in Hi. specialize (Hwf i Hi). lia. }
  assert (Hl1 : Dom.siblings_after placeholder (document st1) = Some l) by (rewrite Hd; exact Hl).
  assert (Hroot1 : is_document_element placeholder (document st1) = false)
    by (rewrite Hd; exact Hroot).
  unfold inserted_markup in *. rewrite <- Hrest, <- Hd in *.
  set (markup := reread B (context placeholder (document st1)) (Dom.innerHTML temp)) in *.
  destruct (built_first_element markup (next_id st1) Htop) as [e Hfirst].
  exists scriptEls, linkEls, (Dom.build_all markup (next_id st1)).1,
         (Dom.build_all markup (next_id st1)).2.
  apply Forall_app in Hnew as [Hnl Hns].
  split; [|split; [|split; [|split; [|split; [|split]]]]].
  - rewrite embedElement_stages. unfold bind. rewrite Hx.
    rewrite (splice_element B placeholder scriptEls linkEls temp st1 l e Hwf1 Hroot1 Hl1 Hfirst).
    rewrite He. reflexivity.
  - apply outerHTML_build_all.
  - exact Hs.
  - exact Hk.
  - exact (clones_named B "script" _ _ Hs Hns).
  - exact (clones_named B "link" _ _ Hk Hnl).
  - intros i [Hi|Hi]%forest_ids_into_first; [exact (Hfresh i Hi)|].
    apply build_all_range in Hi. lia.
Qed.

(** The chain for a fetched markup that can be cloned and keeps an element
    at its top: what [embedElement] inserted stands where the placeholder
    stood. *)
Lemma settle_in_place B placeholder url r body st l :
  ok r = true -> text r = inr body -> Text.truthy (Text.trim body) = true ->
  well_formed st ->
  is_document_element placeholder (document st) = false ->
  Dom.siblings_after placeholder (document st) = Some l ->
  clonable B body = true ->
  has_top_element (inserted_markup B placeholder (document st) body) = true ->
  exists scriptEls linkEls new n',
    settle B placeholder url (Fulfilled r) st
      = (inr tt,
         mkPage (Dom.edit placeholder (fun _ => into_first (linkEls ++ scriptEls) new)
                          (document st))
                n' (events st)) /\
    map Dom.outerHTML new = inserted_markup B placeholder (document st) body /\
    map Dom.outerHTML scriptEls = map (recloned B) (script_markup B body) /\
    map Dom.outerHTML linkEls = map (recloned B) (link_markup B body) /\
    Forall (fun c => Dom.made_by c = Some ByCreateElement) (linkEls ++ scriptEls) /\
    (placeholder ∉ Dom.ids (Dom.edit placeholder
                              (fun _ => into_first (linkEls ++ scriptEls) new)
                              (document st))).
Proof.
  intros Hok Ht Hb Hwf Hroot Hl Hclone Htop.
  destruct (embedElement_fresh B placeholder body st l Hwf Hroot Hl Hclone Htop)
    as (scriptEls & linkEls & new & n' & He & Hnew & Hs & Hk & Hsn & Hkn & Hfresh).
  exists scriptEls, linkEls, new, n'.
  assert (Hrm : Dom.remove placeholder
                  (Dom.insert_after placeholder
                     (into_first (linkEls ++ scriptEls) new) (document st))
                = Dom.edit placeholder
                    (fun _ => into_first (linkEls ++ scriptEls) new) (document st)).
  { apply remove_after_insert. intros Hin. specialize (Hfresh _ Hin).
    specialize (Hwf _ (siblings_after_attached _ _ _ Hl)). lia. }
  repeat split; try assumption.
  - rewrite (settle_delivered B placeholder url r body st Hok Ht Hb), He.
    cbn [document next_id events]. rewrite Hrm. reflexivity.
  - apply Forall_app. split; [eapply Forall_impl; [exact Hkn|]|eapply Forall_impl; [exact Hsn|]];
      intros c [_ Hm]; exact Hm.
  - rewrite <- Hrm. apply remove_gone.
Qed.

Lemma splice_document_element B placeholder r st :
  is_document_element placeholder (document st) = true ->
  splice B placeholder r st = (inl no_parent_element, st).
Proof.
  intros H. destruct r as [[scriptEls linkEls] temp].
  unfold splice, bind, insertAdjacentHTML_afterend, bind, get_document.
  rewrite H. reflexivity.
Qed.

Lemma map_nil_inv {A B} (f : A -> B) (l : list A) : map f l = [] -> l = [].
Proof. destruct l; [reflexivity|discriminate]. Qed.

(** The chain for a fetched markup that can be cloned and is text once
    scripts and links are out, at a placeholder that no element follows. *)
Lemma settle_text B placeholder url r body st l :
  ok r = true -> text r = inr body -> Text.truthy (Text.trim body) = true ->
  is_document_element placeholder (document st) = false ->
  Dom.siblings_after placeholder (document st) = Some l ->
  clonable B body = true ->
  has_top_element (inserted_markup B placeholder (document st) body) = false ->
  text_only l ->
  exists new n',
    settle B placeholder url (Fulfilled r) st
      = (inr tt,
         mkPage (Dom.insert_after placeholder new (document st)) n'
                (events st ++ [ConsoleLog ("Error : " +:+ exn_string null_prepend)])) /\
    map Dom.outerHTML new = inserted_markup B placeholder (document st) body /\
    text_only new /\
    placeholder ∈ Dom.ids (Dom.insert_after placeholder new (document st)).
Proof.
  intros Hok Ht Hb Hroot Hl Hclone Htop Htext.
  destruct (extract_markup B body st Hclone)
    as (scriptEls & linkEls & temp & st1 & Hx & Hm & _ & _ & _ & Hd & He & _).
  unfold inserted_markup in *. rewrite <- Hm, <- Hd in *.
  set (markup := reread B (context placeholder (document st1)) (Dom.innerHTML temp)) in *.
  exists (Dom.build_all markup (next_id st1)).1, (Dom.build_all markup (next_id st1)).2.
  assert (Hnew : text_only (Dom.build_all markup (next_id st1)).1)
    by (apply built_text_only; exact Htop).
  split; [|split; [|split]].
  - rewrite (settle_delivered B placeholder url r body st Hok Ht Hb).
    rewrite embedElement_stages. unfold bind at 1. rewrite Hx.
    rewrite (splice_text B placeholder scriptEls linkEls temp st1 l Hroot Hl Hnew Htext).
    unfold after_events. cbn [document next_id events]. rewrite He. reflexivity.
  - apply outerHTML_build_all.
  - exact Hnew.
  - exact (siblings_after_attached _ _ _
             (siblings_after_insert_exact placeholder _ (document st1) l Hl)).
Qed.

(** The chain at a placeholder that is the document element, for a fetched
    markup that can be cloned. *)
Lemma settle_document_element B placeholder url r body st :
  ok r = true -> text r = inr body -> Text.truthy (Text.trim body) = true ->
  is_document_element placeholder (document st) = true ->
  clonable B body = true ->
  exists n',
    settle B placeholder url (Fulfilled r) st
      = (inr tt,
         mkPage (document st) n'
                (events st ++ [ConsoleLog ("Error : " +:+ exn_string no_parent_element)])).
Proof.
  intros Hok Ht Hb Hroot Hclone.
  destruct (extract_markup B body st Hclone)
    as (scriptEls & linkEls & temp & st1 & Hx & _ & _ & _ & _ & Hd & He & _).
  exists (next_id st1).
  rewrite (settle_delivered B placeholder url r body st Hok Ht Hb).
  rewrite embedElement_stages. unfold bind at 1. rewrite Hx.
  rewrite <- Hd in Hroot. rewrite (splice_document_element B placeholder _ st1 Hroot).
  unfold after_events. rewrite Hd, He. reflexivity.
Qed.

(* ===================================================================== *)
(** ** Lemmas: the constructor of the standard *)
(* ===================================================================== *)

(** Under the three facts, the host name of a result is never the base
    it was resolved against. *)
Lemma hostname_never_base new_URL url base u :
  standard_constructor new_URL -> new_URL url base = Some u -> hostname u <> base.
Proof.
  intros Hstd H Heq.
  destruct (Hstd url base u H) as (Hcolon & (c & rest & Hstrip & Halpha) & [Hfree|[rest' Hbr]]).
  - rewrite Heq in Hfree. congruence.
  - rewrite <- Heq, Hbr in Hstrip.
    change (Whatwg.strip_start Whatwg.is_c0_or_space (String "[" rest'))
      with (String "[" rest') in Hstrip.
    injection Hstrip as <- _. discriminate Halpha.
Qed.

Lemma strip_start_head p s c rest :
  Whatwg.strip_start p s = String c rest -> p c = false.
Proof.
  induction s as [|d s IH]; simpl; [discriminate|].
  destruct (p d) eqn:E; [exact IH|]. intros [= <- _]. exact E.
Qed.

Lemma strip_end_head p c rest :
  p c = false -> exists rest', Whatwg.strip_end p (String c rest) = String c rest'.
Proof.
  intros H. simpl. destruct (Whatwg.strip_end p rest); [rewrite H|]; eauto.
Qed.

(** The model of the constructor has the three facts. *)
Lemma construct_standard : standard_constructor Whatwg.construct.
Proof.
  intros url base u H.
  assert (Hfree : colon_free (hostname u) = true).
  { unfold Whatwg.construct in H.
    destruct (Whatwg.scheme_of (Whatwg.clean base)) as [[bscheme brest]|]; [|discriminate].
    destruct (Whatwg.after_scheme bscheme brest) as [b|] eqn:Eb; [|discriminate].
    destruct (Whatwg.scheme_of (Whatwg.clean url)) as [[scheme rest]|].
    - exact (after_scheme_hostname _ _ _ H).
    - exact (relative_hostname _ _ _ _ _ (after_scheme_hostname _ _ _ Eb) H). }
  assert (Hscheme : Whatwg.scheme_of (Whatwg.clean base) <> None).
  { unfold Whatwg.construct in H. destruct (Whatwg.scheme_of (Whatwg.clean base)); congruence. }
  split; [|split; [|left; exact Hfree]].
  - destruct (colon_free base) eqn:E; [|reflexivity].
    destruct (Hscheme (scheme_of_colon _ (colon_free_clean _ E))).
  - unfold Whatwg.clean in Hscheme.
    destruct (Whatwg.strip_start Whatwg.is_c0_or_space base) as [|c rest] eqn:Es;
      [destruct (Hscheme eq_refl)|].
    exists c, rest. split; [reflexivity|].
    pose proof (strip_start_head _ _ _ _ Es) as Hc.
    destruct (strip_end_head Whatwg.is_c0_or_space c rest Hc) as [rest' Hend].
    rewrite Hend in Hscheme. cbn [Text.keep] in Hscheme.
    destruct (Whatwg.is_tab_or_newline c) eqn:Et.
    + exfalso. unfold Whatwg.is_c0_or_space in Hc. unfold Whatwg.is_tab_or_newline in Et.
      apply N.leb_gt in Hc.
      destruct (Text.code c) as [|q]; [discriminate|].
      repeat (destruct q as [q|q|]; try discriminate Et); lia.
    + cbn [negb] in Hscheme. unfold Whatwg.scheme_of in Hscheme.
      destruct (Text.is_alpha c); [reflexivity|destruct (Hscheme eq_refl)].
Qed.

(* ===================================================================== *)
(** ** Lemmas: [flatten] *)
(* ===================================================================== *)

Section FlattenLemmas.
Import Js EasyForm.

Variable cond : value -> completion bool.

Lemma fold_merge_thrown f l e : fold_left (merge cond f) l (inl e) = inl e.
Proof. induction l as [|kv l IH]; [reflexivity|exact IH]. Qed.

Lemma fold_merge_app f l1 l2 acc :
  fold_left (merge cond f) (l1 ++ l2) acc = fold_left (merge cond f) l2 (fold_left (merge cond f) l1 acc).
Proof. apply fold_left_app. Qed.

Lemma leaves_cons key v l :
  leaves cond (Obj ((key, v) :: l))
  = match cond v with
    | inr true => [(key, v)]
    | _ => leaves cond v
    end ++ leaves cond (Obj l).
Proof. reflexivity. Qed.

(** Whatever [flatten] returns holds leaves only. *)
Lemma flatten_leaves_only stack : forall obj m,
  flatten cond stack obj = inr m ->
  forall k v, m !! k = Some v -> cond v = inr true.
Proof.
  induction stack as [|stack IH]; intros obj m; [discriminate|].
  simpl. destruct (entries obj) as [e|l]; [discriminate|]. simpl.
  assert (Hacc : forall k v, (∅ : gmap string value) !! k = Some v ->
                             cond v = inr true)
    by (intros k v; rewrite lookup_empty; discriminate).
  revert Hacc. generalize (∅ : gmap string value) as acc.
  induction l as [|[key x] l IHl]; intros acc Hacc.
  - simpl. intros [= <-]. exact Hacc.
  - cbn [fold_left]. unfold merge at 2. cbn [and_then fst snd].
    destruct (cond x) as [e|[|]] eqn:Ex; cbn [and_then].
    + rewrite fold_merge_thrown. discriminate.
    + apply IHl. intros k v. destruct (decide (k = key)) as [->|Hne].
      * rewrite lookup_insert_eq. intros [= <-]. exact Ex.
      * rewrite lookup_insert_ne by congruence. apply Hacc.
    + destruct (flatten cond stack x) as [e|sub] eqn:Es; cbn [and_then].
      * rewrite fold_merge_thrown. discriminate.
      * apply IHl. intros k v [Hin|[_ Hin]]%lookup_union_Some_raw.
        -- exact (IH x sub Es k v Hin).
        -- exact (Hacc k v Hin).
Qed.

(** Whatever [flatten] returns was in the object it was given. *)
Lemma flatten_members stack : forall obj m,
  flatten cond stack obj = inr m ->
  forall k v, m !! k = Some v -> member obj k v.
Proof.
  induction stack as [|stack IH]; intros obj m; [discriminate|].
  simpl. destruct (entries obj) as [e|l] eqn:He; [discriminate|]. simpl.
  enough (H : forall l' (acc : gmap string value) m,
             (forall kv, kv ∈ l' -> kv ∈ l) ->
             (forall k v, acc !! k = Some v -> member obj k v) ->
             fold_left (merge cond (flatten cond stack)) l' (inr acc) = inr m ->
             forall k v, m !! k = Some v -> member obj k v).
  { apply (H l ∅ m); [auto|]. intros k v. rewrite lookup_empty. discriminate. }
  clear m. induction l' as [|[key x] l' IHl]; intros acc m Hsub Hacc.
  - simpl. intros [= <-]. exact Hacc.
  - assert (Hx : (key, x) ∈ l) by (apply Hsub; left).
    assert (Hsub' : forall kv, kv ∈ l' -> kv ∈ l) by (intros kv Hkv; apply Hsub; right; exact Hkv).
    cbn [fold_left]. unfold merge at 2. cbn [and_then fst snd].
    destruct (cond x) as [e|[|]]; cbn [and_then].
    + rewrite fold_merge_thrown. discriminate.
    + apply (IHl _ _ Hsub'). intros k v. destruct (decide (k = key)) as [->|Hne].
      * rewrite lookup_insert_eq. intros [= <-]. exact (member_here obj l key x He Hx).
      * rewrite lookup_insert_ne by congruence. apply Hacc.
    + destruct (flatten cond stack x) as [e|sub] eqn:Es; cbn [and_then].
      * rewrite fold_merge_thrown. discriminate.
      * apply (IHl _ _ Hsub'). intros k v [Hin|[_ Hin]]%lookup_union_Some_raw.
        -- exact (member_below obj l key x k v He Hx (IH x sub Es k v Hin)).
        -- exact (Hacc k v Hin).
Qed.

(** On a tree of groups and leaves, [flatten] adds the leaves to what it
    has, the later ones over the earlier ones. *)
Lemma flatten_field_tree stack : forall obj,
  field_tree cond stack obj = true ->
  flatten cond stack obj = inr (list_to_map (rev (leaves cond obj))).
Proof.
  induction stack as [|stack IH]; intros obj; [discriminate|].
  destruct obj as [| | | | | |props]; try discriminate.
  cbn [EasyForm.field_tree EasyForm.flatten entries and_then].
  intros Hprops.
  enough (H : forall acc,
             fold_left (merge cond (flatten cond stack)) props (inr acc)
             = inr (list_to_map (rev (leaves cond (Obj props))) ∪ acc)).
  { rewrite H. f_equal. apply (right_id_L ∅ (∪)). }
  induction props as [|[key x] props IHp]; intros acc.
  - simpl. f_equal. symmetry. apply (left_id_L ∅ (∪)).
  - cbn [forallb snd] in Hprops. apply andb_prop in Hprops as [Hx Hrest].
    cbn [fold_left]. unfold merge at 2. cbn [and_then fst snd].
    rewrite leaves_cons, rev_app_distr, list_to_map_app, <- (assoc_L (∪)).
    destruct (cond x) as [e|[|]] eqn:Ex; [discriminate| |]; cbn [and_then].
    + rewrite (IHp Hrest). do 2 f_equal.
      change (list_to_map (rev [(key, x)])) with (<[key:=x]> (∅ : gmap string value)).
      rewrite insert_empty. apply insert_union_singleton_l.
    + rewrite (IH x Hx). cbn [and_then]. rewrite (IHp Hrest). reflexivity.
Qed.

(** The binding of a name in [list_to_map (rev l)] is the last one the
    list has for it. *)
Lemma list_to_map_rev_last (l1 l2 : list (string * value)) k v :
  k ∉ map fst l2 ->
  (list_to_map (rev (l1 ++ (k, v) :: l2)) : gmap string value) !! k = Some v.
Proof.
  intros Hk. rewrite rev_app_distr. cbn [rev]. rewrite <- app_assoc.
  rewrite list_to_map_app. apply lookup_union_Some_raw. right. split.
  - apply not_elem_of_list_to_map_1. intros Hin. apply Hk.
    change (k ∈ map fst (rev l2)) in Hin. rewrite map_rev in Hin.
    apply list_elem_of_In, in_rev, list_elem_of_In. exact Hin.
  - simpl. apply lookup_insert_eq.
Qed.

Lemma list_to_map_rev_none (l : list (string * value)) k :
  k ∉ map fst l -> (list_to_map (rev l) : gmap string value) !! k = None.
Proof.
  intros Hk. apply not_elem_of_list_to_map_1. intros Hin. apply Hk.
  change (k ∈ map fst (rev l)) in Hin. rewrite map_rev in Hin.
  apply list_elem_of_In, in_rev, list_elem_of_In. exact Hin.
Qed.

Lemma list_to_map_rev_NoDup (l : list (string * value)) :
  NoDup (map fst l) -> (list_to_map (rev l) : gmap string value) = list_to_map l.
Proof.
  intros Hnd. apply list_to_map_proper.
  - change (NoDup (map fst (rev l))). rewrite map_rev.
    apply NoDup_ListNoDup, List.NoDup_rev, NoDup_ListNoDup, Hnd.
  - symmetry. apply Permutation_rev.
Qed.

(** A string that is not a leaf, and whose units are not, is entered
    without end: the call stack runs out, whatever its size. *)
Lemma flatten_string stack : forall s,
  s <> EmptyString ->
  Forall (fun u => cond (Str u) = inr false) (units s) ->
  flatten cond stack (Str s) = inl RangeError.
Proof.
  induction stack as [|stack IH]; intros s Hs Hunits; [reflexivity|].
  destruct s as [|c s]; [contradiction|].
  unfold units in Hunits. cbn [list_ascii_of_string map] in Hunits.
  apply Forall_cons in Hunits as [Hc _].
  cbn [EasyForm.flatten entries and_then units list_ascii_of_string map imap fold_left].
  unfold merge at 2. cbn [and_then fst snd]. rewrite Hc. cbn [and_then].
  rewrite IH; [apply fold_merge_thrown|discriminate|].
  unfold units. cbn [list_ascii_of_string map]. constructor; [exact Hc|constructor].
Qed.

(** A member on which the test throws, or which is not a leaf and cannot
    be flattened, makes the whole call throw. *)
Lemma flatten_member_throws stack l1 key v l2 :
  (exists e, cond v = inl e) \/ (cond v = inr false /\ exists e, flatten cond stack v = inl e) ->
  exists e, flatten cond (S stack) (Obj (l1 ++ (key, v) :: l2)) = inl e.
Proof.
  intros Hv. cbn [EasyForm.flatten entries and_then].
  rewrite fold_merge_app. cbn [fold_left].
  destruct (fold_left (merge cond (flatten cond stack)) l1 (inr ∅)) as [e|acc].
  - exists e. cbn [merge and_then]. apply fold_merge_thrown.
  - unfold merge at 2. cbn [and_then fst snd].
    destruct Hv as [[e He]|[Hc [e He]]].
    + exists e. rewrite He. cbn [and_then]. apply fold_merge_thrown.
    + exists e. rewrite Hc. cbn [and_then]. rewrite He. cbn [and_then].
      apply fold_merge_thrown.
Qed.

(** A member that is not a leaf and has no entries adds nothing. *)
Lemma merge_nothing stack acc key v :
  entries v = inr [] -> cond v = inr false ->
  merge cond (flatten cond (S stack)) acc (key, v) = acc.
Proof.
  intros He Hc. destruct acc as [e|acc]; [reflexivity|].
  unfold merge. cbn [and_then fst snd EasyForm.flatten]. rewrite Hc, He.
  cbn [and_then fold_left]. f_equal. apply (left_id_L ∅ (∪)).
Qed.

(** An object of leaves. *)
Lemma leaves_flat props :
  Forall (fun entry => cond (snd entry) = inr true) props ->
  leaves cond (Obj props) = props /\ forall stack, field_tree cond (S stack) (Obj props) = true.
Proof.
  induction 1 as [|[key v] props Hv _ [IHl IHt]]; [split; reflexivity|].
  cbn [snd] in Hv. split.
  - rewrite leaves_cons, Hv, IHl. reflexivity.
  - intros stack. specialize (IHt stack).
    cbn [EasyForm.field_tree forallb snd] in *. rewrite Hv, IHt. reflexivity.
Qed.

End FlattenLemmas.

(* ===================================================================== *)
(** ** Lemmas: property reads and [reduce_property] *)
(* ===================================================================== *)

Section FieldLemmas.
Import Js EasyForm.

Variable inherited : value -> string -> value.

Lemma own_list_to_map props k : own props k = (list_to_map props : gmap string value) !! k.
Proof.
  unfold own. induction props as [|[k' v'] props IH]; [reflexivity|].
  cbn [List.find fst list_to_map foldr]. 
  change (foldr (fun '(k0, v0) => <[k0:=v0]>) ∅ props) with (list_to_map props : gmap string value).
  destruct (String.eqb_spec k' k) as [->|Hne].
  - simpl. rewrite lookup_insert_eq. reflexivity.
  - rewrite lookup_insert_ne by exact Hne. exact IH.
Qed.

Lemma get_defined v k : nullish v = false -> exists x, get inherited v k = inr x.
Proof. destruct v; try discriminate; intros _; eexists; reflexivity. Qed.

Lemma is_field_defined v b : is_field inherited v = inr b -> nullish v = false.
Proof. destruct v; try discriminate; reflexivity. Qed.

Lemma reduce_property_fold props property : forall ks (acc : gmap string value),
  (forall k, k ∈ ks -> exists v, own props k = Some v /\ nullish v = false) ->
  exists m : gmap string value,
    fold_left (fun result key =>
                 and_then result (fun result =>
                 and_then (get inherited (Obj props) key) (fun field =>
                 and_then (get inherited field property) (fun x =>
                   inr (<[key := x]> result)))))
              ks (inr acc) = inr m /\
    forall k, m !! k = if bool_decide (k ∈ ks) then read inherited property <$> own props k
                       else acc !! k.
Proof.
  induction ks as [|key ks IH]; intros acc Hks.
  - exists acc. split; [reflexivity|]. intros k.
    rewrite bool_decide_eq_false_2; [reflexivity|]. apply not_elem_of_nil.
  - destruct (Hks key) as (v & Hv & Hn); [left|].
    cbn [fold_left and_then get]. rewrite Hv. cbn [default and_then]. change (id v) with v.
    destruct (get_defined v property Hn) as [x Hx]. rewrite Hx. cbn [and_then].
    destruct (IH (<[key:=x]> acc)) as (m & Hm & Hlook).
    { intros k Hk. apply Hks. right. exact Hk. }
    exists m. split; [exact Hm|]. intros k. rewrite Hlook.
    destruct (decide (k ∈ ks)) as [Hin|Hout].
    + rewrite !bool_decide_eq_true_2; [reflexivity| right; exact Hin | exact Hin].
    + rewrite (bool_decide_eq_false_2 _ Hout).
      destruct (decide (k = key)) as [->|Hne].
      * rewrite bool_decide_eq_true_2 by left. rewrite lookup_insert_eq, Hv.
        cbn [fmap option_fmap option_map]. unfold read. rewrite Hx. reflexivity.
      * rewrite lookup_insert_ne by congruence.
        rewrite bool_decide_eq_false_2; [reflexivity|].
        intros [Heq|Hin]%elem_of_cons; [congruence|contradiction].
Qed.

(** On an object whose fields can all be read, [reduce_property] returns
    the property of each field under the name of the field. *)
Lemma reduce_property_all props property :
  Forall (fun entry => nullish (snd entry) = false) props ->
  reduce_property inherited (Obj props) property
  = inr (read inherited property <$> (list_to_map props : gmap string value)).
Proof.
  intros Hall. unfold reduce_property, keys. cbn [entries and_then].
  destruct (reduce_property_fold props property (map fst props) ∅) as (m & Hm & Hlook).
  { intros k Hk. rewrite own_list_to_map.
    destruct ((list_to_map props : gmap string value) !! k) as [v|] eqn:E.
    - exists v. split; [reflexivity|].
      apply elem_of_list_to_map_2 in E. rewrite Forall_forall in Hall.
      exact (Hall _ E).
    - apply not_elem_of_list_to_map in E. contradiction. }
  rewrite Hm. f_equal. apply map_eq. intros k. rewrite Hlook, lookup_fmap, own_list_to_map.
  destruct (decide (k ∈ map fst props)) as [Hin|Hout].
  - rewrite bool_decide_eq_true_2 by exact Hin. reflexivity.
  - rewrite bool_decide_eq_false_2 by exact Hout.
    rewrite lookup_empty. apply not_elem_of_list_to_map_1 in Hout. rewrite Hout. reflexivity.
Qed.

End FieldLemmas.

(* ===================================================================== *)
(** ** Lemmas: [select] *)
(* ===================================================================== *)

Section SelectLemmas.
Import Js Wrapped.

Variable inherited : value -> string -> value.

Lemma find_key_none key switcher separator :
  (forall g, g ∈ map fst switcher -> includes (split g separator) key = false) ->
  find_key key switcher separator = Undefined.
Proof.
  intros Hnone. unfold find_key.
  destruct (List.find _ (map fst switcher)) as [g|] eqn:E; [|reflexivity].
  apply find_some in E as [Hin Hg]. apply list_elem_of_In in Hin.
  rewrite (Hnone g Hin) in Hg. discriminate.
Qed.

Lemma find_key_first key l1 group v l2 separator :
  (forall g, g ∈ map fst l1 -> includes (split g separator) key = false) ->
  includes (split group separator) key = true ->
  find_key key (l1 ++ (group, v) :: l2) separator = Str group.
Proof.
  intros Hbefore Hg. unfold find_key. rewrite map_app. cbn [map fst].
  set (p := fun switcher_key => includes (split switcher_key separator) key).
  assert (H : List.find p (map fst l1 ++ group :: map fst l2) = Some group);
    [|rewrite H; reflexivity].
  induction l1 as [|[g x] l1 IH].
  - simpl. unfold p at 1. rewrite Hg. reflexivity.
  - simpl. unfold p at 1.
    rewrite (Hbefore g) by (cbn [map fst]; left).
    apply IH. intros g' Hg'. apply Hbefore. cbn [map fst]. right. exact Hg'.
Qed.

Lemma case_own switcher k v :
  NoDup (map fst switcher) -> (k, v) ∈ switcher -> case inherited switcher k = v.
Proof.
  intros Hnd Hin. unfold case. rewrite own_list_to_map.
  rewrite (elem_of_list_to_map_1 switcher k v Hnd Hin). reflexivity.
Qed.

Lemma includes_string parts k : includes parts (Str k) = true <-> k ∈ parts.
Proof.
  unfold includes. rewrite existsb_exists. split.
  - intros (x & Hin & Heq). apply String.eqb_eq in Heq as ->. apply list_elem_of_In, Hin.
  - intros Hin. exists k. split; [apply list_elem_of_In, Hin|apply String.eqb_refl].
Qed.

End SelectLemmas.

(* ===================================================================== *)
(** ** The trust check *)
(* ===================================================================== *)

(** C1, an address of the document's own origin is accepted whatever the
    page declares: evaluated on the page [https://site.ext/index.html] and
    the address [https://site.ext/frag.html], whose origin is the origin of
    the document.  With [data-domain="https://cdn.ext"] the constructor
    resolves the address and the check leaves the placeholder alone without
    a word, since [domain] is the declared string alone; with no
    declaration [domain] is the bare host name, the constructor throws on
    such a base, and the check logs and leaves the placeholder alone. *)
Theorem own_origin_refused :
  (exists u, Whatwg.construct "https://site.ext/frag.html" "https://site.ext/index.html" = Some u /\
             origin u = origin (location (Example.site None))) /\
  check (Example.site (Some "https://cdn.ext")) "https://site.ext/frag.html"
        (Example.start "https://site.ext/frag.html" [])
    = (inr false, Example.start "https://site.ext/frag.html" []) /\
  check (Example.site None) "https://site.ext/frag.html"
        (Example.start "https://site.ext/frag.html" [])
    = (inr false,
       after_events (Example.start "https://site.ext/frag.html" []) [invalid_URL_log]).
Proof.
  split; [|split].
  - eexists. split; vm_compute; reflexivity.
  - vm_compute. reflexivity.
  - vm_compute. reflexivity.
Qed.

(** C2, an address is trusted when its origin is the origin of the
    document or an origin the page declares: evaluated on the page
    [https://site.ext/index.html] that declares
    [data-domain="https://cdn.ext"] and the address
    [https://cdn.ext/frag.html], whose origin is exactly the declared one.
    The check compares the host name of the address, [cdn.ext], with the
    whole declared string, [https://cdn.ext], and leaves the placeholder
    alone without a word. *)
Theorem declared_origin_refused :
  trusted_by_origin (Example.site (Some "https://cdn.ext")) "https://cdn.ext/frag.html" /\
  (exists u, Whatwg.construct "https://cdn.ext/frag.html" "https://cdn.ext" = Some u /\
             hostname u = "cdn.ext") /\
  domain (Example.site (Some "https://cdn.ext")) = "https://cdn.ext" /\
  check (Example.site (Some "https://cdn.ext")) "https://cdn.ext/frag.html"
        (Example.start "https://cdn.ext/frag.html" [])
    = (inr false, Example.start "https://cdn.ext/frag.html" []).
Proof.
  split; [|split; [|split]].
  - eexists. split; [vm_compute; reflexivity|]. right.
    eexists _, _. split; [reflexivity|]. split; vm_compute; reflexivity.
  - eexists. split; vm_compute; reflexivity.
  - reflexivity.
  - vm_compute. reflexivity.
Qed.

(** C3, the same-origin placeholder for [/frag.html]: evaluated on the page
    [https://site.ext/index.html] with no declaration.  The relative
    address is resolved against [domain], the bare host name, not against
    the location of the document; the constructor throws, the pass logs
    it, no request is made and the placeholder (element 3) stays where it
    is with nothing inserted. *)
Theorem scenario_A_nothing_embedded :
  embedElements (Example.site None) "data-embedsrc" (Example.start "/frag.html" [])
    = (inr tt, after_events (Example.start "/frag.html" []) [invalid_URL_log]) /\
  Whatwg.construct "/frag.html" (domain (Example.site None)) = None /\
  (exists u, Whatwg.construct "/frag.html" (location_href (Example.site None)) = Some u /\
             origin u = origin (location (Example.site None))).
Proof.
  split; [|split].
  - vm_compute. reflexivity.
  - vm_compute. reflexivity.
  - eexists. split; vm_compute; reflexivity.
Qed.

(* ===================================================================== *)
(** ** The cloner *)
(* ===================================================================== *)




(* ===================================================================== *)
(** ** The promise chain *)
(* ===================================================================== *)

(** C7: when the fetch is answered in the 200-299 range with a body that
    is empty or white space only, the chain returns, the document after it
    is the document before it without the placeholder, nothing has come
    in, and nothing is logged. *)
Theorem blank_fragment_only_removes (B : Browser) (placeholder : nat) (url : string)
                                    (r : response) (body : string) (st : page) :
  ok r = true -> text r = inr body -> Text.blank body = true ->
  settle B placeholder url (Fulfilled r) st
    = (inr tt, mkPage (Dom.remove placeholder (document st)) (next_id st) (events st)) /\
  (placeholder ∉ Dom.ids (Dom.remove placeholder (document st))) /\
  (forall i, i ∈ Dom.ids (Dom.remove placeholder (document st)) -> i ∈ Dom.ids (document st)).
Proof.
  intros Hok Ht Hb. split; [exact (settle_blank B placeholder url r body st Hok Ht Hb)|].
  split; [apply remove_gone|]. intros i. apply remove_ids.
Qed.

(** The theorem on a page whose snippet is two spaces. *)
Lemma blank_fragment_only_removes_witness :
  settle (Example.site None) 3 "/frag.html" (Example.ok_200 "  ")
         (Example.start "/frag.html" [Example.footer])
  = (inr tt, mkPage (Dom.remove 3 (Example.doc "/frag.html" [Example.footer])) 5 []).
Proof.
  apply (blank_fragment_only_removes (Example.site None) 3 "/frag.html"
           (mkResponse 200 "OK" (inr "  ")) "  "
           (Example.start "/frag.html" [Example.footer]));
    reflexivity.
Defined.

(** C8: a source address the constructor does not take is logged, and the
    turn of the loop ends there with the page as it was, the log apart; a
    fetch that is rejected or answered outside 200-299 is logged, and the
    chain ends there with the page as it was, the log apart.  No promise
    chain ends in a throw; and for an attribute name that is plain, as
    the one the script passes, the pass does not end in a throw either,
    and every placeholder gets its turn in it: the events of the pass are
    the events of the turns, one after the other. *)
Theorem failures_stay_local (B : Browser) :
  (forall attributeName placeholder st,
     new_URL B (default "null" (Dom.getAttribute placeholder attributeName)) (domain B) = None ->
     visit B attributeName placeholder st = (inr tt, after_events st [invalid_URL_log])) /\
  (forall placeholder url o st,
     failed o ->
     settle B placeholder url o st = (inr tt, after_events st [failure_log url o])) /\
  (forall attributeName st,
     Text.plain_name attributeName = true ->
     exists st',
     embedElements B attributeName st = (inr tt, st') /\
     document st' = document st /\
     events st' = events st ++
       flat_map (visit_events B attributeName)
                (Dom.querySelectorAll_attr (document st) attributeName)) /\
  (forall placeholder url o st, exists st', settle B placeholder url o st = (inr tt, st')).
Proof.
  split; [|split; [|split]].
  - intros attributeName placeholder st H. unfold visit, bind.
    rewrite (check_invalid B _ st H). reflexivity.
  - intros placeholder url o st H. exact (settle_failed B placeholder url o st H).
  - intros attributeName st Hname.
    destruct (embedElements_spec B attributeName st Hname) as (st' & H & Hd & _ & He). eauto.
  - intros placeholder url o st. apply settle_returns.
Qed.

(** The theorem on the page of [site.ext]: an address the constructor does
    not take, a snippet that is not found, and the pass for the attribute
    name of the script. *)
Lemma failures_stay_local_witness :
  visit (Example.site None) "data-embedsrc"
        (Elem 3 ByParser "div" {["data-embedsrc" := "/frag.html"]} [])
        (Example.start "/frag.html" [])
    = (inr tt, after_events (Example.start "/frag.html" []) [invalid_URL_log]) /\
  settle (Example.site None) 3 "/frag.html" Example.not_found (Example.start "/frag.html" [])
    = (inr tt, after_events (Example.start "/frag.html" [])
                 [failure_log "/frag.html" Example.not_found]) /\
  exists st',
    embedElements (Example.site None) "data-embedsrc" (Example.start "/frag.html" [])
      = (inr tt, st') /\
    document st' = document (Example.start "/frag.html" []) /\
    events st' = events (Example.start "/frag.html" []) ++
      flat_map (visit_events (Example.site None) "data-embedsrc")
               (Dom.querySelectorAll_attr (document (Example.start "/frag.html" []))
                                          "data-embedsrc").
Proof.
  destruct (failures_stay_local (Example.site None)) as (Hurl & Hfetch & Hpass & _).
  split; [|split].
  - apply Hurl. reflexivity.
  - apply Hfetch. reflexivity.
  - apply Hpass. reflexivity.
Defined.

(* ===================================================================== *)
(** ** The warning *)
(* ===================================================================== *)

(** C9, an insecure source that is trusted is warned of and then fetched:
    evaluated on the page [http://site.ext/index.html], in a browser set
    to Spanish, with one placeholder for [http://site.ext/frag.html], an
    address of the document's own origin whose protocol is [http:].  With
    no declaration the constructor throws on the base [site.ext] and the
    pass logs an invalid address; with the page's own origin declared the
    host name [site.ext] is not the declared string and the pass leaves
    the placeholder alone without a word.  In neither case is there a
    warning or a request. *)
Theorem insecure_source_not_warned :
  (exists u, Whatwg.construct "http://site.ext/frag.html" "http://site.ext/index.html" = Some u /\
             protocol u = "http:" /\
             origin u = origin (location (Example.site_over_http None))) /\
  embedElements (Example.site_over_http None) "data-embedsrc"
                (Example.start "http://site.ext/frag.html" [])
    = (inr tt, after_events (Example.start "http://site.ext/frag.html" []) [invalid_URL_log]) /\
  embedElements (Example.site_over_http (Some "http://site.ext")) "data-embedsrc"
                (Example.start "http://site.ext/frag.html" [])
    = (inr tt, Example.start "http://site.ext/frag.html" []).
Proof.
  split; [|split].
  - eexists. split; [vm_compute; reflexivity|]. split; vm_compute; reflexivity.
  - vm_compute. reflexivity.
  - vm_compute. reflexivity.
Qed.

(* ===================================================================== *)
(** ** The embedder *)
(* ===================================================================== *)

(** C10, counterexample: the fetched markup is one script, with the
    attribute name [=x] that [setAttribute] refuses, and a footer follows
    the placeholder.  Nothing is left of the markup without its script,
    yet nothing is prepended to the footer: the cloner throws, the chain
    logs it, and the document is as it was. *)
Lemma refused_name_prepends_nothing :
  static_markup (Example.site None) "<script =x=1>s</script>" = [] /\
  Dom.first_element [Example.footer] = Some Example.footer /\
  exists n,
    settle (Example.site None) 3 "/frag.html" (Example.ok_200 "<script =x=1>s</script>")
           (Example.start "/frag.html" [Example.footer])
    = (inr tt,
       mkPage (Example.doc "/frag.html" [Example.footer]) n
              [ConsoleLog ("Error : " +:+ exn_string (invalid_attribute_name "=x"))]).
Proof.
  split; [vm_compute; reflexivity|]. split; [reflexivity|].
  eexists. vm_compute. reflexivity.
Qed.

(** C10, amended: let [setAttribute] take the attribute names of the
    scripts and links of the fetched markup, let nothing be left of the
    markup once they are out of it, and let [l] be the siblings after the
    placeholder, which is in a document of distinct nodes and is not the
    document element.  The cloner returns the clones of the scripts and
    of the links, newly constructed.  When [l] has an element,
    [embedElement] returns; the document after it is the document before
    it in which that element, the first of [l], which was there before
    the call, has the link clones and then the script clones as its
    first children, in front of the children it had; the siblings after
    the placeholder are otherwise the same, so no node has been inserted;
    and the chain goes on to remove the placeholder.  When [l] has no
    element, [embedElement] throws on the null element with the document
    as it was; the [catch] of the chain logs the error, and the
    placeholder is not removed. *)
Theorem empty_static_content (B : Browser) (placeholder : nat) (url : string) (r : response)
    (sourceHTML : string) (st : page) (l : list node) :
  ok r = true -> text r = inr sourceHTML -> Text.truthy (Text.trim sourceHTML) = true ->
  clonable B sourceHTML = true ->
  static_markup B sourceHTML = [] ->
  NoDup (Dom.ids (document st)) ->
  is_document_element placeholder (document st) = false ->
  Dom.siblings_after placeholder (document st) = Some l ->
  exists scriptEls linkEls n',
    map Dom.outerHTML scriptEls = map (recloned B) (script_markup B sourceHTML) /\
    map Dom.outerHTML linkEls = map (recloned B) (link_markup B sourceHTML) /\
    Forall (fun c => Dom.made_by c = Some ByCreateElement) (linkEls ++ scriptEls) /\
    (forall next, Dom.first_element l = Some next ->
       let d' := Dom.edit (Dom.ident next)
                   (fun element =>
                      match element with
                      | Text _ => [element]
                      | Elem j m t a k => [Elem j m t a ((linkEls ++ scriptEls) ++ k)]
                      end)
                   (document st) in
       embedElement B placeholder sourceHTML st = (inr tt, mkPage d' n' (events st)) /\
       settle B placeholder url (Fulfilled r) st
         = (inr tt, mkPage (Dom.remove placeholder d') n' (events st)) /\
       exists pre j m t a k post,
         l = pre ++ Elem j m t a k :: post /\
         next = Elem j m t a k /\
         Forall (fun c => Dom.is_element c = false) pre /\
         Dom.siblings_after placeholder d'
           = Some (pre ++ Elem j m t a (linkEls ++ scriptEls ++ k) :: post)) /\
    (Dom.first_element l = None ->
       embedElement B placeholder sourceHTML st
         = (inl null_prepend, mkPage (document st) n' (events st)) /\
       settle B placeholder url (Fulfilled r) st
         = (inr tt, mkPage (document st) n'
                           (events st ++ [ConsoleLog ("Error : " +:+ exn_string null_prepend)])) /\
       placeholder ∈ Dom.ids (document st)).
Proof.
  intros Hok Ht Hb Hclone Hstatic Hnd Hroot Hl.
  destruct (extract_markup B sourceHTML st Hclone)
    as (scriptEls & linkEls & temp & st1 & Hx & Hm & Hs & Hk & Hnew & Hd & He & _).
  exists scriptEls, linkEls, (next_id st1).
  split; [exact Hs|]. split; [exact Hk|]. split; [exact Hnew|].
  assert (Hempty : Dom.children temp = []).
  { rewrite Hstatic in Hm. unfold Dom.innerHTML in Hm.
    destruct (Dom.children temp); [reflexivity|discriminate]. }
  assert (Hl1 : Dom.siblings_after placeholder (document st1) = Some l) by (rewrite Hd; exact Hl).
  assert (Hroot1 : is_document_element placeholder (document st1) = false)
    by (rewrite Hd; exact Hroot).
  assert (Hembed : embedElement B placeholder sourceHTML st
                   = splice B placeholder (scriptEls, linkEls, temp) st1).
  { rewrite embedElement_stages. unfold bind. rewrite Hx. reflexivity. }
  rewrite (settle_delivered B placeholder url r sourceHTML st Hok Ht Hb), Hembed.
  rewrite (splice_nothing B placeholder scriptEls linkEls temp st1 l Hempty Hroot1 Hl1), Hd, He.
  split.
  - intros next Hnext. rewrite Hnext. rewrite prepend_twice.
    split; [reflexivity|]. split; [reflexivity|].
    destruct (first_element_split l next Hnext)
      as (pre & j & m & t & a & k & post & -> & -> & Hpre).
    exists pre, j, m, t, a, k, post. split; [reflexivity|]. split; [reflexivity|].
    split; [exact Hpre|].
    rewrite (List.app_assoc linkEls scriptEls k).
    exact (siblings_after_prepend placeholder (document st) pre j m t a k post
             (linkEls ++ scriptEls) Hnd Hl Hpre).
  - intros ->. split; [reflexivity|]. split; [reflexivity|].
    exact (siblings_after_attached _ _ _ Hl).
Qed.

(** The theorem on a snippet that is one script, with a footer after the
    placeholder: the footer gets the clone of the script in front of its
    text, and the placeholder goes. *)
Lemma empty_static_content_witness :
  exists scriptEls linkEls n',
    map Dom.outerHTML scriptEls = [HElem "script" ∅ [HText "s"]] /\
    map Dom.outerHTML linkEls = [] /\
    Forall (fun c => Dom.made_by c = Some ByCreateElement) (linkEls ++ scriptEls) /\
    (forall next, Some Example.footer = Some next ->
       let d' := Dom.edit (Dom.ident next)
                   (fun element =>
                      match element with
                      | Text _ => [element]
                      | Elem j m t a k => [Elem j m t a ((linkEls ++ scriptEls) ++ k)]
                      end)
                   (Example.doc "/frag.html" [Example.footer]) in
       embedElement (Example.site None) 3 "<script>s</script>"
                    (Example.start "/frag.html" [Example.footer])
         = (inr tt, mkPage d' n' []) /\
       settle (Example.site None) 3 "/frag.html" (Example.ok_200 "<script>s</script>")
              (Example.start "/frag.html" [Example.footer])
         = (inr tt, mkPage (Dom.remove 3 d') n' []) /\
       exists pre j m t a k post,
         [Example.footer] = pre ++ Elem j m t a k :: post /\
         next = Elem j m t a k /\
         Forall (fun c => Dom.is_element c = false) pre /\
         Dom.siblings_after 3 d'
           = Some (pre ++ Elem j m t a (linkEls ++ scriptEls ++ k) :: post)) /\
    (Some Example.footer = None ->
       embedElement (Example.site None) 3 "<script>s</script>"
                    (Example.start "/frag.html" [Example.footer])
         = (inl null_prepend, mkPage (Example.doc "/frag.html" [Example.footer]) n' []) /\
       settle (Example.site None) 3 "/frag.html" (Example.ok_200 "<script>s</script>")
              (Example.start "/frag.html" [Example.footer])
         = (inr tt, mkPage (Example.doc "/frag.html" [Example.footer]) n'
                           ([] ++ [ConsoleLog ("Error : " +:+ exn_string null_prepend)])) /\
       3 ∈ Dom.ids (Example.doc "/frag.html" [Example.footer])).
Proof.
  apply (empty_static_content (Example.site None) 3 "/frag.html"
           (mkResponse 200 "OK" (inr "<script>s</script>")) "<script>s</script>"
           (Example.start "/frag.html" [Example.footer]) [Example.footer]).
  - reflexivity.
  - reflexivity.
  - reflexivity.
  - reflexivity.
  - reflexivity.
  - apply (bool_decide_unpack _). vm_compute. exact I.
  - reflexivity.
  - reflexivity.
Defined.




(** C5, counterexample: the fetched markup has a [div], a script and a
    link.  In the element that follows the placeholder after
    [embedElement], the link clone is the first child and the script clone
    the second: the scripts do not stand before the links. *)
Lemma link_stands_first :
  exists st' e,
    embedElement (Example.site None) 3
                 "<div>x</div><script>s</script><link rel=stylesheet href=a.css>"
                 (Example.start "/frag.html" [Example.footer]) = (inr tt, st') /\
    Dom.first_element <$> Dom.siblings_after 3 (document st') = Some (Some e) /\
    map Dom.tagName (Dom.children e) = ["link"; "script"; EmptyString] /\
    ~ scripts_before_links (Dom.children e).
Proof.
  eexists _, _. split; [vm_compute; reflexivity|].
  split; [vm_compute; reflexivity|].
  split; [vm_compute; reflexivity|].
  intros H.
  specialize (H 1 0 _ _ eq_refl eq_refl eq_refl eq_refl). lia.
Qed.

(** C5, amended: under the conditions of the theorem before,
    [embedElement] prepends the script clones and then the link clones to
    the element that follows the placeholder once the markup is in; that
    element, with nothing but text between the placeholder and it, ends up
    with the link clones first, the script clones next and its own
    children last. *)
Theorem links_stand_before_scripts (B : Browser) (placeholder : nat) (sourceHTML : string)
                                   (st : page) (l : list node) :
  well_formed st ->
  is_document_element placeholder (document st) = false ->
  Dom.siblings_after placeholder (document st) = Some l ->
  clonable B sourceHTML = true ->
  has_top_element (inserted_markup B placeholder (document st) sourceHTML) = true ->
  exists scriptEls linkEls pre j m t a k post st',
    embedElement B placeholder sourceHTML st = (inr tt, st') /\
    Dom.siblings_after placeholder (document st')
      = Some (pre ++ Elem j m t a (linkEls ++ scriptEls ++ k) :: post) /\
    Forall (fun c => Dom.is_element c = false) pre /\
    Forall (new_element "script") scriptEls /\
    Forall (new_element "link") linkEls /\
    length scriptEls = length (script_markup B sourceHTML) /\
    length linkEls = length (link_markup B sourceHTML).
Proof.
  intros Hwf Hroot Hl Hclone Htop.
  destruct (embedElement_spec B placeholder sourceHTML st l Hwf Hroot Hl Hclone Htop)
    as (scriptEls & linkEls & new & n' & He & _ & Hfirst & Hs & Hk & Hsn & Hkn).
  destruct (into_first_split (linkEls ++ scriptEls) new Hfirst)
    as (pre & j & m & t & a & k & post & _ & Hpre & Hinto).
  destruct (siblings_after_insert placeholder (into_first (linkEls ++ scriptEls) new)
                                  (document st) l Hl) as [l' Hafter].
  eexists scriptEls, linkEls, pre, j, m, t, a, k, (post ++ l'), _.
  split; [exact He|]. simpl. rewrite Hafter, Hinto.
  split; [rewrite <- !app_assoc; reflexivity|].
  split; [exact Hpre|]. split; [exact Hsn|]. split; [exact Hkn|].
  apply (f_equal (@length html)) in Hs, Hk. rewrite !length_map in Hs, Hk. auto.
Qed.

(** The theorem on the same snippet. *)
Lemma links_stand_before_scripts_witness :
  exists scriptEls linkEls pre j m t a k post st',
    embedElement (Example.site None) 3
                 "<div>x</div><script>s</script><link rel=stylesheet href=a.css>"
                 (Example.start "/frag.html" [Example.footer]) = (inr tt, st') /\
    Dom.siblings_after 3 (document st')
      = Some (pre ++ Elem j m t a (linkEls ++ scriptEls ++ k) :: post) /\
    Forall (fun c => Dom.is_element c = false) pre /\
    Forall (new_element "script") scriptEls /\
    Forall (new_element "link") linkEls /\
    length scriptEls = 1 /\
    length linkEls = 1.
Proof.
  apply (links_stand_before_scripts (Example.site None) 3
           "<div>x</div><script>s</script><link rel=stylesheet href=a.css>"
           (Example.start "/frag.html" [Example.footer]) [Example.footer]).
  - apply well_formed_check. reflexivity.
  - reflexivity.
  - reflexivity.
  - reflexivity.
  - reflexivity.
Defined.

(* ===================================================================== *)
(** ** More on the pass over the placeholders *)
(* ===================================================================== *)

(** X1: a placeholder whose source address resolves to a host name other
    than [domain] is passed over without a trace: no log, no alert, no
    request, and the page is left exactly as it was. *)
Theorem foreign_host_passed_over (B : Browser) (attributeName : string) (placeholder : node)
                                 (url : string) (u : URL) (st : page) :
  Dom.getAttribute placeholder attributeName = Some url ->
  new_URL B url (domain B) = Some u ->
  hostname u <> domain B ->
  visit B attributeName placeholder st = (inr tt, st).
Proof.
  intros Ha Hu Hne. unfold visit, bind. rewrite Ha. simpl.
  rewrite (check_other_host B url u st Hu Hne). reflexivity.
Qed.

(** The theorem on the page that declares [https://cdn.ext], for a source
    on another host. *)
Lemma foreign_host_passed_over_witness :
  visit (Example.site (Some "https://cdn.ext")) "data-embedsrc"
        (Elem 3 ByParser "div" {["data-embedsrc" := "https://evil.example/frag.html"]} [])
        (Example.start "https://evil.example/frag.html" [])
  = (inr tt, Example.start "https://evil.example/frag.html" []).
Proof.
  apply (foreign_host_passed_over (Example.site (Some "https://cdn.ext")) "data-embedsrc"
           (Elem 3 ByParser "div" {["data-embedsrc" := "https://evil.example/frag.html"]} [])
           "https://evil.example/frag.html" (mkURL "https:" "evil.example" "")).
  - reflexivity.
  - reflexivity.
  - discriminate.
Defined.



(** X4: let the URL constructor be as the standard has it in three
    respects (a base holds a colon; it starts, leading controls and
    spaces apart, with a letter; a host name is written without a colon
    or between brackets).  Then whatever the document and the declared
    domain, the pass for a plain attribute name can do nothing but log an
    invalid address: it returns, the document is as it was, and every
    event it adds is that log; there is no request and no alert. *)
Theorem standard_constructor_only_logs (B : Browser) (attributeName : string) (st : page) :
  standard_constructor (new_URL B) ->
  Text.plain_name attributeName = true ->
  exists st',
    embedElements B attributeName st = (inr tt, st') /\
    document st' = document st /\
    forall e, e ∈ events st' -> e ∈ events st \/ e = invalid_URL_log.
Proof.
  intros Hstd Hname.
  destruct (embedElements_spec B attributeName st Hname) as (st' & H & Hd & _ & He).
  exists st'. split; [exact H|]. split; [exact Hd|].
  intros e. rewrite He. intros [Hin|Hin]%elem_of_app; [auto|]. right.
  apply list_elem_of_In, in_flat_map in Hin as [p [_ Hin]].
  unfold visit_events, passes, check_events in Hin.
  destruct (new_URL B _ (domain B)) as [u|] eqn:E.
  - apply (hostname_never_base _ _ _ _ Hstd) in E.
    destruct (String.eqb_spec (hostname u) (domain B)); [contradiction|].
    destruct Hin.
  - destruct Hin as [<-|[]]. reflexivity.
Qed.

(** The theorem on the page of [site.ext] that declares no domain. *)
Lemma standard_constructor_only_logs_witness :
  exists st',
    embedElements (Example.site None) "data-embedsrc" (Example.start "/frag.html" [])
      = (inr tt, st') /\
    document st' = document (Example.start "/frag.html" []) /\
    forall e, e ∈ events st' ->
              e ∈ events (Example.start "/frag.html" []) \/ e = invalid_URL_log.
Proof.
  apply (standard_constructor_only_logs (Example.site None) "data-embedsrc"
           (Example.start "/frag.html" [])).
  - exact construct_standard.
  - reflexivity.
Defined.

(* ===================================================================== *)
(** ** More on the promise chain *)
(* ===================================================================== *)

(** X5: when the fetch is answered in the 200-299 range and reading the
    body fails, the chain logs the error and ends there: the document is
    as it was and the placeholder is not removed. *)
Theorem unreadable_body_logged (B : Browser) (placeholder : nat) (url : string)
                               (r : response) (e : exn) (st : page) :
  ok r = true -> text r = inl e ->
  settle B placeholder url (Fulfilled r) st
    = (inr tt, after_events st [ConsoleLog ("Error : " +:+ exn_string e)]).
Proof.
  intros Hok Ht. unfold settle, try_catch, bind. rewrite Hok, Ht. reflexivity.
Qed.

(** The theorem for an answer whose body cannot be read. *)
Lemma unreadable_body_logged_witness :
  settle (Example.site None) 3 "/frag.html"
         (Fulfilled (mkResponse 200 "OK" (inl (TypeError "Failed to fetch"))))
         (Example.start "/frag.html" [])
  = (inr tt, after_events (Example.start "/frag.html" [])
               [ConsoleLog "Error : TypeError: Failed to fetch"]).
Proof.
  apply (unreadable_body_logged (Example.site None) 3 "/frag.html"
           (mkResponse 200 "OK" (inl (TypeError "Failed to fetch")))
           (TypeError "Failed to fetch")); reflexivity.
Defined.



(** X7: the embedder itself cuts nothing out of a fetched markup that has
    no script and no link, and adds nothing to it.  When such a markup,
    read again at the placeholder, has an element at its top level, the
    nodes that take the placeholder's place are what the parser makes, in
    the parent of the placeholder, of the serialization of the whole
    parsed body; nothing is prepended to any of them and nothing is
    logged. *)
Theorem plain_fragment_only_reread (B : Browser) (placeholder : nat) (url : string)
    (r : response) (body : string) (st : page) (l : list node) :
  ok r = true -> text r = inr body -> Text.truthy (Text.trim body) = true ->
  well_formed st ->
  is_document_element placeholder (document st) = false ->
  Dom.siblings_after placeholder (document st) = Some l ->
  plain_markup (parseHTML B body) ->
  has_top_element (reread B (context placeholder (document st)) (parseHTML B body)) = true ->
  exists new st',
    settle B placeholder url (Fulfilled r) st = (inr tt, st') /\
    document st' = Dom.edit placeholder (fun _ => new) (document st) /\
    map Dom.outerHTML new = reread B (context placeholder (document st)) (parseHTML B body) /\
    events st' = events st.
Proof.
  intros Hok Ht Hb Hwf Hroot Hl Hplain Htop.
  destruct (plain_markup_kept B body Hplain) as (Hsame & Hnos & Hnol).
  assert (Hclone : clonable B body = true) by (unfold clonable; rewrite Hnos, Hnol; reflexivity).
  assert (Htop' : has_top_element (inserted_markup B placeholder (document st) body) = true)
    by (unfold inserted_markup; rewrite Hsame; exact Htop).
  destruct (settle_in_place B placeholder url r body st l Hok Ht Hb Hwf Hroot Hl Hclone Htop')
    as (scriptEls & linkEls & new & n' & Hs & Hnew & Hsm & Hkm & _).
  rewrite Hnos in Hsm. rewrite Hnol in Hkm.
  apply map_nil_inv in Hsm, Hkm. subst scriptEls linkEls.
  cbn [app] in Hs. rewrite into_first_nothing in Hs.
  unfold inserted_markup in Hnew. rewrite Hsame in Hnew.
  eexists new, _. split; [exact Hs|]. cbn [document events].
  split; [reflexivity|]. split; [exact Hnew|reflexivity].
Qed.

(** The theorem on a snippet of one paragraph. *)
Lemma plain_fragment_only_reread_witness :
  exists new st',
    settle (Example.site None) 3 "/frag.html" (Example.ok_200 "<p>hi</p>")
           (Example.start "/frag.html" [Example.footer]) = (inr tt, st') /\
    document st' = Dom.edit 3 (fun _ => new) (Example.doc "/frag.html" [Example.footer]) /\
    map Dom.outerHTML new = [HElem "p" ∅ [HText "hi"]] /\
    events st' = [].
Proof.
  apply (plain_fragment_only_reread (Example.site None) 3 "/frag.html"
           (mkResponse 200 "OK" (inr "<p>hi</p>")) "<p>hi</p>"
           (Example.start "/frag.html" [Example.footer]) [Example.footer]).
  - reflexivity.
  - reflexivity.
  - reflexivity.
  - apply well_formed_check. reflexivity.
  - reflexivity.
  - reflexivity.
  - split; repeat constructor.
  - reflexivity.
Defined.

(** X8: let [setAttribute] take the attribute names of the scripts and
    links of the fetched markup.  When what is left of that markup
    without them, read again at the placeholder, has no element at its
    top level (character data only), and no element follows the
    placeholder, the character data is inserted after the placeholder all
    the same, [prepend] is then called on null, the chain logs that
    error, and the placeholder stays in the document beside the inserted
    text. *)
Theorem text_fragment_left_beside_placeholder (B : Browser) (placeholder : nat)
    (url : string) (r : response) (body : string) (st : page) (l : list node) :
  ok r = true -> text r = inr body -> Text.truthy (Text.trim body) = true ->
  is_document_element placeholder (document st) = false ->
  Dom.siblings_after placeholder (document st) = Some l ->
  clonable B body = true ->
  has_top_element (inserted_markup B placeholder (document st) body) = false ->
  text_only l ->
  exists new st',
    settle B placeholder url (Fulfilled r) st = (inr tt, st') /\
    document st' = Dom.insert_after placeholder new (document st) /\
    map Dom.outerHTML new
      = reread B (context placeholder (document st)) (static_markup B body) /\
    events st' = events st ++ [ConsoleLog ("Error : " +:+ exn_string null_prepend)] /\
    placeholder ∈ Dom.ids (document st').
Proof.
  intros Hok Ht Hb Hroot Hl Hclone Htop Htext.
  destruct (settle_text B placeholder url r body st l Hok Ht Hb Hroot Hl Hclone Htop Htext)
    as (new & n' & Hs & Hm & _ & Hin).
  eexists new, _. split; [exact Hs|]. cbn [document events]. auto.
Qed.

(** The theorem on a snippet that is one word, at a placeholder that
    closes the body. *)
Lemma text_fragment_left_beside_placeholder_witness :
  exists new st',
    settle (Example.site None) 3 "/frag.html" (Example.ok_200 "hello")
           (Example.start "/frag.html" []) = (inr tt, st') /\
    document st' = Dom.insert_after 3 new (Example.doc "/frag.html" []) /\
    map Dom.outerHTML new = [HText "hello"] /\
    events st'
      = [ConsoleLog "Error : TypeError: Cannot read properties of null (reading 'prepend')"] /\
    3 ∈ Dom.ids (document st').
Proof.
  apply (text_fragment_left_beside_placeholder (Example.site None) 3 "/frag.html"
           (mkResponse 200 "OK" (inr "hello")) "hello" (Example.start "/frag.html" []) []).
  - reflexivity.
  - reflexivity.
  - reflexivity.
  - reflexivity.
  - reflexivity.
  - reflexivity.
  - reflexivity.
  - constructor.
Defined.

(** X9: let [setAttribute] take the attribute names of the scripts and
    links of the fetched markup, so that the cloning, which comes first,
    goes through.  When the placeholder is the document element,
    [insertAdjacentHTML] then throws before anything is inserted; the
    chain logs the error, the document is as it was, and the placeholder
    is not removed. *)
Theorem document_element_placeholder_kept (B : Browser) (placeholder : nat) (url : string)
    (r : response) (body : string) (st : page) :
  ok r = true -> text r = inr body -> Text.truthy (Text.trim body) = true ->
  is_document_element placeholder (document st) = true ->
  clonable B body = true ->
  exists st',
    settle B placeholder url (Fulfilled r) st = (inr tt, st') /\
    document st' = document st /\
    events st' = events st ++ [ConsoleLog ("Error : " +:+ exn_string no_parent_element)].
Proof.
  intros Hok Ht Hb Hroot Hclone.
  destruct (settle_document_element B placeholder url r body st Hok Ht Hb Hroot Hclone)
    as (n' & Hs).
  eexists. split; [exact Hs|]. split; reflexivity.
Qed.

(** The theorem on a document whose [html] element carries the attribute. *)
Lemma document_element_placeholder_kept_witness :
  exists st',
    settle (Example.site None) 1 "/frag.html"
           (Example.ok_200 "<p>hi</p><script>window.__x=1</script>") placeholder_root
      = (inr tt, st') /\
    document st' = document placeholder_root /\
    events st' = events placeholder_root
                 ++ [ConsoleLog ("Error : " +:+ exn_string no_parent_element)].
Proof.
  apply (document_element_placeholder_kept (Example.site None) 1 "/frag.html"
           (mkResponse 200 "OK" (inr "<p>hi</p><script>window.__x=1</script>"))
           "<p>hi</p><script>window.__x=1</script>" placeholder_root); reflexivity.
Defined.

(* ===================================================================== *)
(** ** More on the cloner *)
(* ===================================================================== *)



(* ===================================================================== *)
(** ** EasyForm: what [flatten] returns *)
(* ===================================================================== *)

(** X11: whatever the object and the test, [flatten] makes nothing up and
    keeps leaves only: every binding of the object it returns is an entry
    of the object it was given, at some depth, and its value passes the
    test. *)
Theorem flatten_returns_leaves_only (max_depth_condition : Js.value -> Js.completion bool)
    (stack : nat) (obj : Js.value) (m : gmap string Js.value) :
  EasyForm.flatten max_depth_condition stack obj = inr m ->
  forall k v, m !! k = Some v ->
              max_depth_condition v = inr true /\ Js.member obj k v.
Proof.
  intros Hm k v Hk. split.
  - exact (flatten_leaves_only max_depth_condition stack obj m Hm k v Hk).
  - exact (flatten_members max_depth_condition stack obj m Hm k v Hk).
Qed.

(** The theorem on the fields of the login form, for the field
    [password]. *)
Lemma flatten_returns_leaves_only_witness :
  EasyForm.is_field Js.bare EasyForm.password = inr true /\
  Js.member EasyForm.login "password" EasyForm.password.
Proof.
  apply (flatten_returns_leaves_only (EasyForm.is_field Js.bare) 2 EasyForm.login
           (list_to_map [("user", EasyForm.user); ("password", EasyForm.password);
                         ("remember", EasyForm.remember)] : gmap string Js.value))
    with (k := "password").
  - vm_compute. reflexivity.
  - vm_compute. reflexivity.
Defined.

(** X12: on an object made of leaves and of groups of leaves within the
    reach of the stack, [flatten] returns, and a name is bound to the last
    leaf of that name in the order of the entries; a name no leaf has is
    not bound. *)
Theorem flatten_last_leaf_wins (max_depth_condition : Js.value -> Js.completion bool)
    (stack : nat) (obj : Js.value) :
  EasyForm.field_tree max_depth_condition stack obj = true ->
  exists m : gmap string Js.value,
    EasyForm.flatten max_depth_condition stack obj = inr m /\
    (forall l1 k v l2,
       EasyForm.leaves max_depth_condition obj = l1 ++ (k, v) :: l2 ->
       k ∉ map fst l2 -> m !! k = Some v) /\
    (forall k, k ∉ map fst (EasyForm.leaves max_depth_condition obj) -> m !! k = None).
Proof.
  intros Htree. eexists. split; [apply (flatten_field_tree _ _ _ Htree)|]. split.
  - intros l1 k v l2 -> Hk. apply list_to_map_rev_last, Hk.
  - intros k Hk. apply list_to_map_rev_none, Hk.
Qed.

(** The theorem on the login form with two fields named [user]. *)
Lemma flatten_last_leaf_wins_witness :
  exists m : gmap string Js.value,
    EasyForm.flatten (EasyForm.is_field Js.bare) 2 EasyForm.login_twice = inr m /\
    (forall l1 k v l2,
       EasyForm.leaves (EasyForm.is_field Js.bare) EasyForm.login_twice
         = l1 ++ (k, v) :: l2 ->
       k ∉ map fst l2 -> m !! k = Some v) /\
    (forall k, k ∉ map fst (EasyForm.leaves (EasyForm.is_field Js.bare) EasyForm.login_twice)
               -> m !! k = None).
Proof.
  apply (flatten_last_leaf_wins (EasyForm.is_field Js.bare) 2 EasyForm.login_twice).
  reflexivity.
Defined.

(** X13: when, on such an object, no two leaves have the same name, the
    object [flatten] returns has exactly the leaves: a name is bound to a
    value if and only if that pair is a leaf. *)
Theorem flatten_unique_names_keep_every_leaf
    (max_depth_condition : Js.value -> Js.completion bool) (stack : nat) (obj : Js.value) :
  EasyForm.field_tree max_depth_condition stack obj = true ->
  NoDup (map fst (EasyForm.leaves max_depth_condition obj)) ->
  exists m : gmap string Js.value,
    EasyForm.flatten max_depth_condition stack obj = inr m /\
    forall k v, m !! k = Some v <-> (k, v) ∈ EasyForm.leaves max_depth_condition obj.
Proof.
  intros Htree Hnd. eexists. split; [apply (flatten_field_tree _ _ _ Htree)|].
  intros k v. rewrite (list_to_map_rev_NoDup _ Hnd). symmetry.
  apply elem_of_list_to_map, Hnd.
Qed.

(** The theorem on the login form. *)
Lemma flatten_unique_names_keep_every_leaf_witness :
  exists m : gmap string Js.value,
    EasyForm.flatten (EasyForm.is_field Js.bare) 2 EasyForm.login = inr m /\
    forall k v, m !! k = Some v <->
                (k, v) ∈ EasyForm.leaves (EasyForm.is_field Js.bare) EasyForm.login.
Proof.
  apply (flatten_unique_names_keep_every_leaf (EasyForm.is_field Js.bare) 2 EasyForm.login).
  - reflexivity.
  - apply (bool_decide_unpack _). vm_compute. exact I.
Defined.

(** X14: a string that is not empty, and that the test does not take for
    a leaf any more than its units, is entered without end: [flatten]
    throws a [RangeError] on it whatever the size of the stack, and throws
    on every object that has it for a member. *)
Theorem flatten_string_member_overflows
    (max_depth_condition : Js.value -> Js.completion bool) (s : string) :
  s <> EmptyString ->
  max_depth_condition (Js.Str s) = inr false ->
  Forall (fun u => max_depth_condition (Js.Str u) = inr false) (Js.units s) ->
  forall stack,
    EasyForm.flatten max_depth_condition stack (Js.Str s) = inl Js.RangeError /\
    forall l1 key l2,
      exists e,
        EasyForm.flatten max_depth_condition stack (Js.Obj (l1 ++ (key, Js.Str s) :: l2))
        = inl e.
Proof.
  intros Hs Hc Hunits stack. split; [apply flatten_string; assumption|].
  intros l1 key l2. destruct stack as [|stack]; [exists Js.RangeError; reflexivity|].
  apply flatten_member_throws. right. split; [exact Hc|].
  exists Js.RangeError. apply flatten_string; assumption.
Qed.

(** The theorem for the test of EasyForm and a title given as a string. *)
Lemma flatten_string_member_overflows_witness :
  EasyForm.flatten (EasyForm.is_field Js.bare) 1000 (Js.Str "Login") = inl Js.RangeError /\
  forall l1 key l2,
    exists e,
      EasyForm.flatten (EasyForm.is_field Js.bare) 1000
                       (Js.Obj (l1 ++ (key, Js.Str "Login") :: l2))
      = inl e.
Proof.
  apply (flatten_string_member_overflows (EasyForm.is_field Js.bare) "Login").
  - discriminate.
  - reflexivity.
  - repeat constructor.
Defined.

(** X15: with the test of EasyForm, a member that is [null] or
    [undefined] makes [flatten] throw, wherever it stands among the
    entries; when it stands first and there is room on the stack, what is
    thrown is the [TypeError] of the read of [type]. *)
Theorem flatten_null_member_throws (inherited : Js.value -> string -> Js.value)
    (v : Js.value) :
  Js.nullish v = true ->
  forall stack key l2,
    EasyForm.flatten (EasyForm.is_field inherited) (S stack) (Js.Obj ((key, v) :: l2))
    = inl Js.TypeError /\
    forall l1,
      exists e,
        EasyForm.flatten (EasyForm.is_field inherited) stack (Js.Obj (l1 ++ (key, v) :: l2))
        = inl e.
Proof.
  intros Hv stack key l2.
  assert (Hc : EasyForm.is_field inherited v = inl Js.TypeError)
    by (destruct v; try discriminate; reflexivity).
  split.
  - cbn [EasyForm.flatten Js.entries Js.and_then fold_left].
    unfold EasyForm.merge at 2. cbn [Js.and_then fst snd]. rewrite Hc.
    apply fold_merge_thrown.
  - intros l1. destruct stack as [|stack]; [exists Js.RangeError; reflexivity|].
    apply flatten_member_throws. left. exists Js.TypeError. exact Hc.
Qed.

(** The theorem for a field that is [null]. *)
Lemma flatten_null_member_throws_witness :
  EasyForm.flatten (EasyForm.is_field Js.bare) 3
                   (Js.Obj [("user", Js.Null); ("password", EasyForm.password)])
  = inl Js.TypeError /\
  forall l1,
    exists e,
      EasyForm.flatten (EasyForm.is_field Js.bare) 2
                       (Js.Obj (l1 ++ [("user", Js.Null); ("password", EasyForm.password)]))
      = inl e.
Proof.
  apply (flatten_null_member_throws Js.bare Js.Null eq_refl 2 "user"
           [("password", EasyForm.password)]).
Defined.

(** X16: a member that is not a leaf and has no entries of its own (a
    number, a boolean, a function, the empty string, an empty group) is
    dropped without a trace: [flatten] returns what it returns on the
    object without that member. *)
Theorem flatten_drops_member_without_entries
    (max_depth_condition : Js.value -> Js.completion bool) (v : Js.value) :
  Js.entries v = inr [] ->
  max_depth_condition v = inr false ->
  forall stack l1 key l2,
    EasyForm.flatten max_depth_condition (S (S stack)) (Js.Obj (l1 ++ (key, v) :: l2))
    = EasyForm.flatten max_depth_condition (S (S stack)) (Js.Obj (l1 ++ l2)).
Proof.
  intros He Hc stack l1 key l2.
  cbn [EasyForm.flatten Js.entries Js.and_then].
  rewrite !fold_merge_app. cbn [fold_left].
  change (fold_left (EasyForm.merge max_depth_condition
                       (fun obj => Js.and_then (Js.entries obj)
                          (fun l => fold_left
                             (EasyForm.merge max_depth_condition
                                (EasyForm.flatten max_depth_condition stack)) l (inr ∅))))
                    l1 (inr ∅))
    with (fold_left (EasyForm.merge max_depth_condition
                       (EasyForm.flatten max_depth_condition (S stack))) l1 (inr ∅)).
  rewrite (merge_nothing max_depth_condition stack _ key v He Hc). reflexivity.
Qed.

(** The theorem for a number left among the fields. *)
Lemma flatten_drops_member_without_entries_witness :
  EasyForm.flatten (EasyForm.is_field Js.bare) 2
                   (Js.Obj ([("user", EasyForm.user)]
                            ++ ("columns", Js.Num 7) :: [("password", EasyForm.password)]))
  = EasyForm.flatten (EasyForm.is_field Js.bare) 2
                     (Js.Obj ([("user", EasyForm.user)] ++ [("password", EasyForm.password)])).
Proof.
  apply (flatten_drops_member_without_entries (EasyForm.is_field Js.bare) (Js.Num 7)
           eq_refl eq_refl 0 [("user", EasyForm.user)] "columns"
           [("password", EasyForm.password)]).
Defined.

(** X17: [flatten] is idempotent: called again, with room for one call, on
    the object it returned (its properties in any order), it returns that
    object. *)
Theorem flatten_idempotent (max_depth_condition : Js.value -> Js.completion bool)
    (stack stack' : nat) (obj : Js.value) (m : gmap string Js.value)
    (props : list (string * Js.value)) :
  EasyForm.flatten max_depth_condition stack obj = inr m ->
  EasyForm.object_of m props ->
  EasyForm.flatten max_depth_condition (S stack') (Js.Obj props) = inr m.
Proof.
  intros Hm [Hnd Hprops].
  assert (Hleaves : Forall (fun entry => max_depth_condition (snd entry) = inr true) props).
  { apply Forall_forall. intros [k v] Hin. cbn [snd].
    apply (flatten_leaves_only max_depth_condition stack obj m Hm k).
    rewrite <- Hprops. apply elem_of_list_to_map_1; assumption. }
  destruct (leaves_flat max_depth_condition props Hleaves) as [Hl Ht].
  rewrite (flatten_field_tree max_depth_condition _ _ (Ht stack')), Hl.
  rewrite (list_to_map_rev_NoDup _ Hnd), Hprops. reflexivity.
Qed.

(** The theorem on the login form, the fields taken in another order. *)
Lemma flatten_idempotent_witness :
  EasyForm.flatten (EasyForm.is_field Js.bare) 1
    (Js.Obj [("remember", EasyForm.remember); ("user", EasyForm.user);
             ("password", EasyForm.password)])
  = inr (list_to_map [("user", EasyForm.user); ("password", EasyForm.password);
                      ("remember", EasyForm.remember)]).
Proof.
  apply (flatten_idempotent (EasyForm.is_field Js.bare) 2 0 EasyForm.login).
  - vm_compute. reflexivity.
  - split; [apply (bool_decide_unpack _); vm_compute; exact I|vm_compute; reflexivity].
Defined.

(* ===================================================================== *)
(** ** EasyForm: [reduce_property] on what [flatten] returned *)
(* ===================================================================== *)

(** X18: on the object that [flatten] returned under the test of EasyForm
    (its properties in any order), [reduce_property] does not throw, and
    it returns an object with the same names, each bound to what the read
    of the property gives on the field of that name. *)
Theorem reduce_property_after_flatten (inherited : Js.value -> string -> Js.value)
    (stack : nat) (fields : Js.value) (m : gmap string Js.value)
    (props : list (string * Js.value)) (property : string) :
  EasyForm.flatten (EasyForm.is_field inherited) stack fields = inr m ->
  EasyForm.object_of m props ->
  exists m' : gmap string Js.value,
    EasyForm.reduce_property inherited (Js.Obj props) property = inr m' /\
    (forall k v, m !! k = Some v ->
                 exists x, Js.get inherited v property = inr x /\ m' !! k = Some x) /\
    (forall k, m !! k = None -> m' !! k = None).
Proof.
  intros Hm [Hnd Hprops].
  assert (Hread : forall k v, m !! k = Some v -> Js.nullish v = false).
  { intros k v Hk.
    exact (is_field_defined inherited v true
             (flatten_leaves_only _ stack fields m Hm k v Hk)). }
  eexists. split; [apply reduce_property_all|].
  - apply Forall_forall. intros [k v] Hin. cbn [snd]. apply (Hread k).
    rewrite <- Hprops. apply elem_of_list_to_map_1; assumption.
  - rewrite Hprops. split.
    + intros k v Hk. destruct (get_defined inherited v property (Hread k v Hk)) as [x Hx].
      exists x. split; [exact Hx|]. rewrite lookup_fmap, Hk. cbn.
      unfold EasyForm.read. rewrite Hx. reflexivity.
    + intros k Hk. rewrite lookup_fmap, Hk. reflexivity.
Qed.

(** The theorem for the initial values of the login form. *)
Lemma reduce_property_after_flatten_witness :
  exists m' : gmap string Js.value,
    EasyForm.reduce_property Js.bare
      (Js.Obj [("user", EasyForm.user); ("password", EasyForm.password);
               ("remember", EasyForm.remember)]) "initial" = inr m' /\
    (forall k v,
       (list_to_map [("user", EasyForm.user); ("password", EasyForm.password);
                     ("remember", EasyForm.remember)] : gmap string Js.value) !! k = Some v ->
       exists x, Js.get Js.bare v "initial" = inr x /\ m' !! k = Some x) /\
    (forall k,
       (list_to_map [("user", EasyForm.user); ("password", EasyForm.password);
                     ("remember", EasyForm.remember)] : gmap string Js.value) !! k = None ->
       m' !! k = None).
Proof.
  apply (reduce_property_after_flatten Js.bare 2 EasyForm.login).
  - vm_compute. reflexivity.
  - split; [apply (bool_decide_unpack _); vm_compute; exact I|reflexivity].
Defined.

(* ===================================================================== *)
(** ** wrappedjs: [select] with a separator *)
(* ===================================================================== *)

(** X19: with a separator, a key that is a case of its own does not
    select the value of that case: what [select] returns is the property
    of the switcher named by that value, where without a separator it
    returns the value itself. *)
Theorem select_case_under_separator (inherited : Js.value -> string -> Js.value)
    (key : Js.value) (switcher : list (string * Js.value)) (separator : string)
    (v : Js.value) :
  separator <> EmptyString ->
  Wrapped.case inherited switcher (Js.property_key key) = v ->
  Js.nullish v = false ->
  Wrapped.select inherited key (Some switcher) (Some separator)
    = Wrapped.Selected (Wrapped.case inherited switcher (Js.property_key v)) /\
  Wrapped.select inherited key (Some switcher) None = Wrapped.Selected v.
Proof.
  intros Hsep Hv Hn. unfold Wrapped.select, Wrapped.select_from.
  destruct separator as [|c separator]; [contradiction|].
  rewrite Hv. unfold Js.coalesce. rewrite Hn. rewrite Hn. split; reflexivity.
Qed.

(** The theorem on the switcher of the README: [case3] with the separator
    selects nothing. *)
Lemma select_case_under_separator_witness :
  Wrapped.select Js.bare (Js.Str "case3") (Some Wrapped.readme_switcher) (Some ":")
    = Wrapped.Selected Js.Undefined /\
  Wrapped.select Js.bare (Js.Str "case3") (Some Wrapped.readme_switcher) None
    = Wrapped.Selected (Js.Str "value2").
Proof.
  apply (select_case_under_separator Js.bare (Js.Str "case3") Wrapped.readme_switcher ":"
           (Js.Str "value2")).
  - discriminate.
  - reflexivity.
  - reflexivity.
Defined.

(** X20: with a separator, a string that is no case of its own selects
    the value of the first key of the switcher that lists it among its
    parts. *)
Theorem select_group_member (inherited : Js.value -> string -> Js.value)
    (k : string) (l1 l2 : list (string * Js.value)) (separator : string)
    (group : string) (v : Js.value) :
  separator <> EmptyString ->
  NoDup (map fst (l1 ++ (group, v) :: l2)) ->
  Js.nullish (Wrapped.case inherited (l1 ++ (group, v) :: l2) k) = true ->
  (forall g, g ∈ map fst l1 -> k ∉ Js.split g separator) ->
  k ∈ Js.split group separator ->
  Wrapped.select inherited (Js.Str k) (Some (l1 ++ (group, v) :: l2)) (Some separator)
  = Wrapped.Selected v.
Proof.
  intros Hsep Hnd Hk Hbefore Hpart. unfold Wrapped.select, Wrapped.select_from.
  destruct separator as [|c separator]; [contradiction|].
  cbn [Js.property_key]. unfold Js.coalesce at 2. rewrite Hk.
  rewrite (find_key_first (Js.Str k) l1 group v l2 (String c separator)).
  - cbn [Js.coalesce Js.nullish Js.property_key]. f_equal.
    apply case_own; [exact Hnd|]. apply elem_of_app. right. left.
  - intros g Hg. destruct (Js.includes (Js.split g (String c separator)) (Js.Str k)) eqn:E;
      [|reflexivity].
    apply includes_string in E. destruct (Hbefore g Hg E).
  - apply includes_string, Hpart.
Qed.

(** The theorem on a switcher with two groups that both list [b]. *)
Lemma select_group_member_witness :
  Wrapped.select Js.bare (Js.Str "b")
    (Some ([("a", Js.Str "first")]
           ++ ("b:c", Js.Str "second") :: [("d:b", Js.Str "third")])) (Some ":")
  = Wrapped.Selected (Js.Str "second").
Proof.
  apply (select_group_member Js.bare "b" [("a", Js.Str "first")]
           [("d:b", Js.Str "third")] ":" "b:c" (Js.Str "second")).
  - discriminate.
  - apply (bool_decide_unpack _). vm_compute. exact I.
  - reflexivity.
  - intros g Hg. apply list_elem_of_In in Hg. destruct Hg as [<-|[]].
    apply (bool_decide_unpack _). vm_compute. exact I.
  - apply (bool_decide_unpack _). vm_compute. exact I.
Defined.

(** X21: with a separator, a key that is not a string is never looked up
    among the parts of the keys: when it is no case of its own, [select]
    returns the default, though a key of the switcher may list its
    decimal form. *)
Theorem select_other_key_skips_groups (inherited : Js.value -> string -> Js.value)
    (key : Js.value) (switcher : list (string * Js.value)) (separator : string) :
  separator <> EmptyString ->
  (forall s, key <> Js.Str s) ->
  Js.nullish (Wrapped.case inherited switcher (Js.property_key key)) = true ->
  Wrapped.select inherited key (Some switcher) (Some separator)
  = Wrapped.Selected (Wrapped.case inherited switcher "default").
Proof.
  intros Hsep Hkey Hk. unfold Wrapped.select, Wrapped.select_from.
  destruct separator as [|c separator]; [contradiction|].
  unfold Js.coalesce at 2. rewrite Hk.
  rewrite find_key_none; [reflexivity|].
  intros g _. destruct key; try reflexivity. exfalso. exact (Hkey _ eq_refl).
Qed.

(** The theorem for the number 1 on a switcher whose one group is
    [1:2]. *)
Lemma select_other_key_skips_groups_witness :
  Wrapped.select Js.bare (Js.Num 1) (Some Wrapped.numbered) (Some ":")
  = Wrapped.Selected (Js.Str "other").
Proof.
  apply (select_other_key_skips_groups Js.bare (Js.Num 1) Wrapped.numbered ":").
  - discriminate.
  - discriminate.
  - reflexivity.
Defined.
